(** * ajax-form: the submission pipeline and the payload assembler

    A shallow embedding of [AjaxForm] (the class in the repository's main
    module) and of the three free functions that follow it
    ([getQuerystring] is not needed here; [setNestedValue] and
    [deepFilterArrays] are).

    Modelling conventions.
    - A JavaScript value is a tree ([jsval]).  Objects are their own
      enumerable properties, in the order [Object.entries] lists them
      (array-index keys ascending, then the other keys by insertion).
      The prototype chain is not modelled: inherited members
      ([constructor], [__proto__], an array's [length] slot, ...) are
      outside the model, as is sharing of one object between two places.
    - Numbers are the integers ([Z]); holes of a sparse array read as
      [undefined] and are represented by [VUndef].
    - The DOM is a store of [element] records; an element is named by
      its position in the store, and a collection of elements is a list
      of positions.
    - A promise chain is a computation in the monad [M]: it threads the
      mutable state of the instance and either resolves or rejects. *)

From Stdlib Require Import ZArith NArith Ascii String List Bool Lia.
From stdpp Require Import base tactics option list strings pretty.

Open Scope Z_scope.
Open Scope nat_scope.

(** ** JavaScript values *)

(** Host objects: file handles, binary blobs, date instants and [Error]
    instances (whose [message] is an own, non-enumerable property). *)
Inductive host : Type :=
| HFile (id : nat)
| HBlob (id : nat)
| HDate (ms : Z)
| HError (msg : string).

#[warnings="-register-all"]
Inductive jsval : Type :=
| VUndef
| VNull
| VBool (b : bool)
| VNum (n : Z)
| VStr (s : string)
| VArr (items : list jsval) (props : list (string * jsval))
| VObj (props : list (string * jsval))
| VHost (h : host) (props : list (string * jsval)).

(** ** Helpers of the [js-common] package

    The package is a dependency; only its names and call sites are
    visible from this repository. *)

(** Modelled from the spec: [hasValue] of js-common is missing; a value is
    "absent" when it is [undefined] or [null]. *)
Definition hasValue (v : jsval) : bool :=
  match v with
  | VUndef | VNull => false
  | _ => true
  end.

(** Modelled from the spec: [isArray] of js-common is missing. *)
Definition isArray (v : jsval) : bool :=
  match v with
  | VArr _ _ => true
  | _ => false
  end.

(** Modelled from the spec: [isObject] of js-common is missing; it
    recognises the mappings ("recurses into mappings key-by-key"). *)
Definition isObject (v : jsval) : bool :=
  match v with
  | VObj _ => true
  | _ => false
  end.

(** [obj instanceof File || obj instanceof Blob || obj instanceof Date]. *)
Definition isOpaque (v : jsval) : bool :=
  match v with
  | VHost (HFile _) _ | VHost (HBlob _) _ | VHost (HDate _) _ => true
  | _ => false
  end.

(** [Object(x) === x]: [x] is not a primitive. *)
Definition isObjectLike (v : jsval) : bool :=
  match v with
  | VArr _ _ | VObj _ | VHost _ _ => true
  | _ => false
  end.

(** Modelled from the spec: [toArray] of js-common is missing; an absent
    value gives the empty list, a sequence is kept, anything else is
    wrapped. *)
Definition toArray (v : jsval) : list jsval :=
  match v with
  | VUndef | VNull => []
  | VArr items _ => items
  | _ => [v]
  end.

Definition is_space (c : ascii) : bool :=
  let n := nat_of_ascii c in
  (n =? 32) || ((9 <=? n) && (n <=? 13)).

Fixpoint all_space (s : string) : bool :=
  match s with
  | EmptyString => true
  | String c r => is_space c && all_space r
  end.

(** Modelled from the spec: [isNotBlank] of js-common is missing; a string
    is blank when it is empty or white space only. *)
Definition isNotBlank (s : string) : bool := negb (all_space s).

Definition isNotBlankV (v : jsval) : bool :=
  match v with
  | VStr s => isNotBlank s
  | _ => false
  end.

(** ** The final cleaning pass *)

(** [deepFilterArrays]: [obj.filter(hasValue).map(deepFilterArrays)] on a
    sequence (the result is a fresh array, so named properties are not
    carried over), [Object.fromEntries (... map ...)] on a mapping. *)
Fixpoint deepFilterArrays (obj : jsval) : jsval :=
  let fix filter_map (l : list jsval) : list jsval :=
    match l with
    | [] => []
    | x :: r => if hasValue x then deepFilterArrays x :: filter_map r
                else filter_map r
    end in
  let fix entries (l : list (string * jsval)) : list (string * jsval) :=
    match l with
    | [] => []
    | (k, x) :: r => (k, deepFilterArrays x) :: entries r
    end in
  if isOpaque obj then obj
  else match obj with
       | VArr items _ => VArr (filter_map items) []
       | VObj props => VObj (entries props)
       | _ => obj
       end.

(** A body is clean when no sequence in it, at any depth below sequences
    and mappings, holds an absent entry. *)
Fixpoint is_clean (v : jsval) : bool :=
  let fix all_items (l : list jsval) : bool :=
    match l with
    | [] => true
    | x :: r => hasValue x && is_clean x && all_items r
    end in
  let fix all_props (l : list (string * jsval)) : bool :=
    match l with
    | [] => true
    | (_, x) :: r => is_clean x && all_props r
    end in
  match v with
  | VArr items _ => all_items items
  | VObj props => all_props props
  | _ => true
  end.

(** ** Own properties

    A property table lists the keys in the order [Object.entries]
    enumerates them: array-index keys first, ascending, then every other
    key in insertion order. *)

Definition digit_of (c : ascii) : option N :=
  let n := N_of_ascii c in
  if ((48 <=? n) && (n <=? 57))%N then Some (n - 48)%N else None.

Fixpoint parse_digits (acc : N) (s : string) : option N :=
  match s with
  | EmptyString => Some acc
  | String c r =>
      match digit_of c with
      | Some d => parse_digits (10 * acc + d)%N r
      | None => None
      end
  end.

(** An array index is the canonical decimal form of an integer below
    [2^32 - 1]. *)
Definition array_index (k : string) : option N :=
  match k with
  | EmptyString => None
  | String c r =>
      if Ascii.eqb c "0" && negb (String.eqb r "") then None
      else match parse_digits 0 k with
           | Some n => if (n <? 4294967295)%N then Some n else None
           | None => None
           end
  end.

(** Modelled from the spec: [isInteger] of js-common is missing; a path
    segment is numeric when it is a non-empty run of decimal digits. *)
Definition isInteger (k : string) : bool :=
  match k with
  | EmptyString => false
  | _ => bool_decide (is_Some (parse_digits 0 k))
  end.

Section Props.
Context {A : Type}.

Fixpoint pget (k : string) (o : list (string * A)) : option A :=
  match o with
  | [] => None
  | (k', x) :: r => if String.eqb k k' then Some x else pget k r
  end.

Fixpoint preplace (k : string) (v : A) (o : list (string * A))
  : list (string * A) :=
  match o with
  | [] => []
  | (k', x) :: r =>
      if String.eqb k k' then (k', v) :: r else (k', x) :: preplace k v r
  end.

(** Does a new key with index [ki] go before an existing key with
    index [ki']? *)
Definition precedes (ki ki' : option N) : bool :=
  match ki, ki' with
  | Some n, Some m => (n <? m)%N
  | Some _, None => true
  | None, _ => false
  end.

Fixpoint pinsert (ki : option N) (k : string) (v : A)
    (o : list (string * A)) : list (string * A) :=
  match o with
  | [] => [(k, v)]
  | (k', x) :: r =>
      if precedes ki (array_index k') then (k, v) :: o
      else (k', x) :: pinsert ki k v r
  end.

(** [o[k] = v] on a property table. *)
Definition pset (k : string) (v : A) (o : list (string * A))
  : list (string * A) :=
  match pget k o with
  | Some _ => preplace k v o
  | None => pinsert (array_index k) k v o
  end.
End Props.

(** The own property [k] of an object-like [o].  A property table holds
    own properties only; what [o[k]] answers beyond them comes from the
    prototypes of the environment, which [inherits] accounts for where the
    code reads with a name taken from its input. *)
Definition js_get (o : jsval) (k : string) : jsval :=
  match o with
  | VObj props => default VUndef (pget k props)
  | VArr items props =>
      match array_index k with
      | Some n => default VUndef (items !! N.to_nat n)
      | None => default VUndef (pget k props)
      end
  | VHost h props =>
      match pget k props, h with
      | Some x, _ => x
      | None, HError m => if String.eqb k "message" then VStr m else VUndef
      | None, _ => VUndef
      end
  | _ => VUndef
  end.

(** [items[n] = v]: in place below the length, extending with holes
    above it. *)
Definition items_set (n : nat) (v : jsval) (items : list jsval)
  : list jsval :=
  if n <? length items then <[n := v]> items
  else items ++ replicate (n - length items) VUndef ++ [v].

(** The names every object answers through [Object.prototype], and the
    further ones a sequence answers through [Array.prototype] or as its
    [length]. *)
Definition OBJECT_MEMBERS : list string :=
  ["__proto__"; "constructor"; "hasOwnProperty"; "isPrototypeOf";
   "propertyIsEnumerable"; "toLocaleString"; "toString"; "valueOf";
   "__defineGetter__"; "__defineSetter__"; "__lookupGetter__";
   "__lookupSetter__"].

Definition ARRAY_MEMBERS : list string :=
  ["length"; "at"; "concat"; "copyWithin"; "entries"; "every"; "fill";
   "filter"; "find"; "findIndex"; "findLast"; "findLastIndex"; "flat";
   "flatMap"; "forEach"; "includes"; "indexOf"; "join"; "keys";
   "lastIndexOf"; "map"; "pop"; "push"; "reduce"; "reduceRight"; "reverse";
   "shift"; "slice"; "some"; "sort"; "splice"; "toReversed"; "toSorted";
   "toSpliced"; "unshift"; "values"; "with"].

(** A name that no prototype answers: on a mapping or a sequence, [o[k]]
    is then the own property [k] and nothing else. *)
Definition ordinary (k : string) : bool :=
  negb (existsb (String.eqb k) (OBJECT_MEMBERS ++ ARRAY_MEMBERS)).

(** [o] has an own property of the name [k] (a name, not an index). *)
Definition owns (o : jsval) (k : string) : bool :=
  match o with
  | VObj props | VArr _ props | VHost _ props =>
      bool_decide (is_Some (pget k props))
  | _ => false
  end.

(** [o[k]] is not an own property of [o] but an object found on its
    prototype chain: [Object.prototype] itself for [__proto__], a built-in
    function for the other names. *)
Definition inherits (o : jsval) (k : string) : bool :=
  negb (owns o k)
  && match o with
     | VObj _ | VHost _ _ => existsb (String.eqb k) OBJECT_MEMBERS
     | VArr _ _ =>
         existsb (String.eqb k) (OBJECT_MEMBERS ++ tl ARRAY_MEMBERS)
     | _ => false
     end.

(** [o[k] = v] for an object-like [o]; the updated object is returned.
    Assigning [__proto__] to an object that does not own that name goes
    to the setter of [Object.prototype] and creates no own property; the
    [length] of a sequence is outside the model. *)
Definition js_set (o : jsval) (k : string) (v : jsval) : jsval :=
  if String.eqb k "__proto__" && negb (owns o k) then o
  else
    match o with
    | VObj props => VObj (pset k v props)
    | VArr items props =>
        match array_index k with
        | Some n => VArr (items_set (N.to_nat n) v items) props
        | None => VArr items (pset k v props)
        end
    | VHost h props => VHost h (pset k v props)
    | _ => o
    end.

(** ** Nested path assignment *)

Definition is_sep (c : ascii) : bool :=
  Ascii.eqb c "." || Ascii.eqb c "[" || Ascii.eqb c "]".

(** [name.match(/[^.[\]]+/g) || []]: the maximal runs of characters other
    than [.], [[] and []]; [cur] is the run being read. *)
Fixpoint split_path (cur : string) (s : string) : list string :=
  match s with
  | EmptyString => if String.eqb cur "" then [] else [cur]
  | String c r =>
      if is_sep c then
        if String.eqb cur "" then split_path "" r
        else cur :: split_path "" r
      else split_path (cur +:+ String c "") r
  end.

Definition path_of (name : string) : list string := split_path "" name.

(** The [reduce] over [keys.slice(0, -1)] followed by the assignment to
    the last key; with no key at all the target is [keys[-1]], that is
    the property named ["undefined"].  The walk mutates the containers it
    goes through, so the updated child is put back where it was read.
    Where [acc[key]] is an inherited object the walk leaves [acc] for it
    and the assignment is made there: the own properties of [acc] stay as
    they are.  What the assignment does inside the inherited object (it
    fails on a member that is read-only) is outside the model. *)
Fixpoint assign_path (acc : jsval) (keys : list string) (value : jsval)
  : jsval :=
  match keys with
  | [] => js_set acc "undefined" value
  | [k] => js_set acc k value
  | k :: ((k' :: _) as rest) =>
      if inherits acc k then acc
      else
        let child := js_get acc k in
        if isObjectLike child then js_set acc k (assign_path child rest value)
        else
          let fresh := if isInteger k' then VArr [] [] else VObj [] in
          js_set acc k (assign_path fresh rest value)
  end.

Definition setNestedValue (obj : jsval) (name : string) (value : jsval)
  : jsval :=
  if negb (hasValue value) || negb (isObject obj) then obj
  else assign_path obj (path_of name) value.

(** ** Form fields *)

(** The properties and attributes of an input element that the class
    reads or writes.  [el_to] is the bucket named by the [to] data
    attribute, [el_from_type] and [el_from_pattern] are the two parts of
    the [from] data attribute, [el_validation] and the [el_applied]
    fields are the [validation] and [applied] data attributes. *)
Record element : Type := Element {
  el_name : string;
  el_type : string;
  el_data_type : option string;
  el_value : string;
  el_checked : bool;
  el_multiple : bool;
  el_files : list jsval;
  el_selected : list string;
  el_disabled : bool;
  el_required : bool;
  el_custom : string;
  el_other_invalid : bool;
  el_validation : option string;
  el_to : option string;
  el_from_type : option string;
  el_from_pattern : option string;
  el_applied : option string;
  el_applied_request : option string;
  el_applied_response : option string
}.

Definition set_disabled (b : bool) (e : element) : element :=
  Element (el_name e) (el_type e) (el_data_type e) (el_value e)
    (el_checked e) (el_multiple e) (el_files e) (el_selected e)
    b (el_required e) (el_custom e) (el_other_invalid e)
    (el_validation e) (el_to e) (el_from_type e) (el_from_pattern e)
    (el_applied e) (el_applied_request e) (el_applied_response e).

Definition setCustomValidity (msg : string) (e : element) : element :=
  Element (el_name e) (el_type e) (el_data_type e) (el_value e)
    (el_checked e) (el_multiple e) (el_files e) (el_selected e)
    (el_disabled e) (el_required e) msg (el_other_invalid e)
    (el_validation e) (el_to e) (el_from_type e) (el_from_pattern e)
    (el_applied e) (el_applied_request e) (el_applied_response e).

(** The kinds of control whose [required] check is on their value: the
    text-like inputs and the text area. *)
Definition REQUIRED_BY_VALUE : list string :=
  ["text"; "search"; "url"; "tel"; "email"; "password"; "number"; "date";
   "month"; "week"; "time"; "datetime-local"; "textarea"].

(** Modelled from the spec: the browser's constraint validation is
    missing ("every field failing native required/pattern validity").
    What a required control misses depends on its kind: a checkbox misses
    its check mark, whatever its value; a file input misses a file; a
    multiple select misses a selected option; a single select and the
    controls of [REQUIRED_BY_VALUE] miss a value when their value is
    empty.  The check of a radio button is on its whole group and is left
    to [el_other_invalid]; [required] does not apply to the other kinds
    (hidden, range, color, buttons).  The controls are taken to be
    mutable: a read-only control is outside the model. *)
Definition value_missing (e : element) : bool :=
  if String.eqb (el_type e) "checkbox" then negb (el_checked e)
  else if String.eqb (el_type e) "file"
       then match el_files e with [] => true | _ => false end
  else if String.eqb (el_type e) "select-multiple"
       then match el_selected e with [] => true | _ => false end
  else (String.eqb (el_type e) "select-one"
        || existsb (String.eqb (el_type e)) REQUIRED_BY_VALUE)
       && String.eqb (el_value e) "".

(** [el.validity.valid] fails on a custom validity message, on a required
    control that misses its value, and on any other native constraint
    (pattern, type, range), which [el_other_invalid] stands for. *)
Definition validity_valid (e : element) : bool :=
  String.eqb (el_custom e) ""
  && negb (el_required e && value_missing e)
  && negb (el_other_invalid e).

(** The DOM: elements by position. *)
Abbreviation store := (list element) (only parsing).

(** Modelled from the spec: the constants of js-common/js-constant are
    missing; these are the input types they name. *)
Definition HTML_CHECKBOX : string := "checkbox".
Definition HTML_RADIO : string := "radio".

(** ** Configuration *)

(** What a promise settles to, and what a call that may throw gives. *)
Inductive outcome : Type :=
| Resolved (v : jsval)
| Rejected (e : jsval).

(** The merged configuration ([#config], [AjaxForm.config]) and the host
    functions the class calls.  [i18n_code k] is
    [AjaxForm.config.i18n?.code?.[k]], likewise [i18n_status];
    [i18n_validation g] is [AjaxForm.config.i18n?.validation?.[g]] with
    the empty string for a missing (or falsy) entry; [cfg_from t] is
    [request.from[t]]; [date_getTime s] is [new Date(s).getTime()];
    [formatString] is the interpolation of js-common. *)
Record config : Type := Config {
  i18n_code : jsval -> jsval;
  i18n_status : jsval -> jsval;
  i18n_validation : string -> string;
  cfg_from : string -> option (jsval -> jsval);
  cfg_checkResponse : jsval -> bool;
  cfg_getData : jsval -> jsval;
  cfg_getPage : jsval -> jsval;
  cfg_getError : jsval -> outcome;
  date_getTime : string -> jsval;
  formatString : string -> jsval -> jsval
}.

(** ** Value extraction *)

Definition resolved_type (e : element) : string :=
  default (el_type e) (el_data_type e).

(** The [switch] of [#getElementValue]: either the function returns at
    once ([inl]) or it leaves a [result] for the source lookup ([inr]). *)
Definition element_result (cfg : config) (e : element) : jsval + jsval :=
  let type := resolved_type e in
  if String.eqb type "month" || String.eqb type "date"
     || String.eqb type "datetime-local" then
    inl (if isNotBlank (el_value e) then date_getTime cfg (el_value e)
         else VUndef)
  else if String.eqb type "file" then
    inl (if el_multiple e then VArr (el_files e) []
         else default VUndef (el_files e !! 0))
  else if String.eqb type "select-multiple" then
    inl (VArr (map VStr (el_selected e)) [])
  else if String.eqb type HTML_CHECKBOX then
    inr (if negb (String.eqb (el_value e) "on")
            && negb (String.eqb (el_value e) "")
         then (if el_checked e then VStr (el_value e) else VUndef)
         else VBool (el_checked e))
  else if String.eqb type HTML_RADIO then
    inr (if el_checked e then VStr (el_value e) else VUndef)
  else inr (VStr (el_value e)).

(** Modelled from the spec: [formatString] of js-common is missing; with
    no pattern declared the raw value itself is the key ("the raw value
    is first interpolated into the pattern"). *)
Definition source_key (cfg : config) (e : element) (result : jsval)
  : jsval :=
  match el_from_pattern e with
  | Some pattern => formatString cfg pattern result
  | None => result
  end.

(** [getFrom?.[fromType]?.(key) ?? key]. *)
Definition source_lookup (cfg : config) (e : element) (key : jsval)
  : jsval :=
  match el_from_type e with
  | Some t =>
      match cfg_from cfg t with
      | Some f => if hasValue (f key) then f key else key
      | None => key
      end
  | None => key
  end.

(** [#getElementValue] on an element. *)
Definition getElementValue (cfg : config) (e : element) : jsval :=
  match element_result cfg e with
  | inl v => v
  | inr VUndef => VUndef
  | inr result => source_lookup cfg e (source_key cfg e result)
  end.

(** ** The input collection *)

(** The filter of [#queryFormInput]. *)
Definition usable (e : element) : bool :=
  negb (el_disabled e) && isNotBlank (el_name e).

(** [#queryFormInput(selector)]: [inputs] lists the positions of
    [root.elements] followed by those of the two external selections; a
    selector is the predicate [el.matches(selector)], and [None] is a
    blank selector. *)
Definition queryFormInput (st : store) (inputs : list nat)
    (selector : option (element -> bool)) : list nat :=
  fold_left
    (fun acc i =>
       match selector, st !! i with
       | Some m, Some e => if m e then acc ++ [i] else acc
       | None, Some _ => acc ++ [i]
       | _, None => acc
       end)
    (List.filter (fun i => from_option usable false (st !! i)) inputs)
    [].

(** What [#queryFormInput] keeps: a usable element that matches. *)
Definition selected (st : store) (selector : option (element -> bool))
    (i : nat) : bool :=
  from_option
    (fun e => usable e && from_option (fun m => m e) true selector)
    false (st !! i).

(** ** Payload assembly *)

(** Modelled from the spec: [endsWith] of js-common is missing; it
    reports whether the name carries the suffix ([exist]) and gives the
    name without it ([value]). *)
Fixpoint endsWith_brackets (name : string) : bool * string :=
  match name with
  | EmptyString => (false, EmptyString)
  | String c r =>
      if String.eqb name "[]" then (true, EmptyString)
      else let '(exist_, value) := endsWith_brackets r in
           (exist_, String c value)
  end.

(** What a key of a bucket holds after field grouping: one element or an
    array of elements. *)
Inductive fslot : Type :=
| FOne (i : nat)
| FMany (l : list nat).

(** After the side-channel merge a key holds field elements or a
    side-channel value. *)
Inductive slot : Type :=
| SField (f : fslot)
| SValue (v : jsval).

Definition bucket_of (e : element) : string := default "data" (el_to e).

(** [toArray(target[value])] followed by [push(el)]. *)
Definition fslot_push (i : nat) (cur : option fslot) : fslot :=
  match cur with
  | None => FMany [i]
  | Some (FOne j) => FMany [j; i]
  | Some (FMany l) => FMany (l ++ [i])
  end.

(** One turn of the first loop of [#generateDataAndProps].
    [target[value]] is read as an own property, which is what it is for
    a name that is [ordinary]; an inherited member under the name of a
    field is outside the model. *)
Definition group_field (st : store)
    (groups : list (string * list (string * fslot))) (i : nat)
  : list (string * list (string * fslot)) :=
  match st !! i with
  | None => groups
  | Some e =>
      let toType := bucket_of e in
      let '(exist_, value) := endsWith_brackets (el_name e) in
      let target := default [] (pget toType groups) in
      let target' :=
        if bool_decide (is_Some (pget value target)) || exist_
        then pset value (fslot_push i (pget value target)) target
        else pset value (FOne i) target in
      pset toType target' groups
  end.

Definition group_fields (st : store) (inputs : list nat)
  : list (string * list (string * fslot)) :=
  fold_left (group_field st) (queryFormInput st inputs None) [].

(** The side channels: inclusion name, then bucket, then key. *)
Abbreviation withdata :=
  (list (string * list (string * list (string * jsval)))) (only parsing).

Definition WITH : list (string * bool) :=
  [("append", false); ("page", false); ("querystring", false);
   ("apply", true)].

Definition merge_key (toType : string)
    (groups : list (string * list (string * slot))) (kv : string * jsval)
  : list (string * list (string * slot)) :=
  let target := default [] (pget toType groups) in
  pset toType (pset kv.1 (SValue kv.2) target) groups.

Definition merge_bucket (groups : list (string * list (string * slot)))
    (tv : string * list (string * jsval))
  : list (string * list (string * slot)) :=
  fold_left (merge_key tv.1) tv.2 groups.

(** One turn of the second loop: [objectEntries] of a missing side
    channel has no entry. *)
Definition merge_with (w : withdata) (withParams : list string)
    (groups : list (string * list (string * slot))) (nr : string * bool)
  : list (string * list (string * slot)) :=
  if nr.2 || existsb (String.eqb nr.1) withParams
  then fold_left merge_bucket (default [] (pget nr.1 w)) groups
  else groups.

Definition merge_side_channels (w : withdata) (withParams : list string)
    (groups : list (string * list (string * fslot)))
  : list (string * list (string * slot)) :=
  fold_left (merge_with w withParams) WITH
    (map (fun tg => (tg.1, map (fun kf => (kf.1, SField kf.2)) tg.2)) groups).

(** [flatMap] splices the arrays its callback returns, one level deep. *)
Definition splice (v : jsval) : list jsval :=
  match v with
  | VArr items _ => items
  | _ => [v]
  end.

Definition field_value (cfg : config) (st : store) (i : nat) : jsval :=
  from_option (getElementValue cfg) VUndef (st !! i).

(** [elementIs(el[0], HTML_RADIO)]. *)
Definition first_is_radio (st : store) (l : list nat) : bool :=
  match l with
  | i :: _ => from_option (fun e => String.eqb (el_type e) HTML_RADIO)
                false (st !! i)
  | [] => false
  end.

(** The third loop on a side-channel value: [#getElementValue] returns
    what is not an element as it is, so a sequence goes through
    [flatMap] and [filter(hasValue)] and anything else is kept. *)
Definition side_value (v : jsval) : jsval :=
  match v with
  | VArr items _ => VArr (List.filter hasValue (flat_map splice items)) []
  | _ => v
  end.

(** The value computed for one key in the third loop. *)
Definition slot_value (cfg : config) (st : store) (s : slot) : jsval :=
  match s with
  | SField (FOne i) => field_value cfg st i
  | SField (FMany l) =>
      let value :=
        List.filter hasValue
          (flat_map (fun i => splice (field_value cfg st i)) l) in
      if first_is_radio st l then default VUndef (value !! 0)
      else VArr value []
  | SValue v => side_value v
  end.

Definition write_key (cfg : config) (st : store) (obj : jsval)
    (ns : string * slot) : jsval :=
  setNestedValue obj ns.1 (slot_value cfg st ns.2).

Definition write_bucket (cfg : config) (st : store)
    (result : list (string * jsval)) (tg : string * list (string * slot))
  : list (string * jsval) :=
  let obj := default (VObj []) (pget tg.1 result) in
  pset tg.1 (fold_left (write_key cfg st) tg.2 obj) result.

Definition write_groups (cfg : config) (st : store)
    (groups : list (string * list (string * slot))) : jsval :=
  VObj (fold_left (write_bucket cfg st) groups []).

(** [#generateDataAndProps(withParams)]. *)
Definition generateDataAndProps (cfg : config) (st : store)
    (inputs : list nat) (w : withdata) (withParams : list string) : jsval :=
  deepFilterArrays
    (write_groups cfg st
       (merge_side_channels w withParams (group_fields st inputs))).

(** ** Validation *)

(** The selector [[validation][required]] of [#handleValidation]. *)
Definition in_validation_group (e : element) : bool :=
  bool_decide (is_Some (el_validation e)) && el_required e.

(** One turn of the [reduce] that partitions the grouped fields: the
    custom validity is cleared and the field is pushed onto its group.
    [acc[group]] is read as an own property, which is what it is for a
    group name that is [ordinary]; a group named after an inherited
    member is outside the model. *)
Definition collect_group (acc : store * list (string * list nat)) (i : nat)
  : store * list (string * list nat) :=
  let '(st, groups) := acc in
  match st !! i with
  | None => acc
  | Some e =>
      let group := default "" (el_validation e) in
      (alter (setCustomValidity "") i st,
       pset group (default [] (pget group groups) ++ [i]) groups)
  end.

Definition value_not_blank (st : store) (i : nat) : bool :=
  from_option (fun e => isNotBlank (el_value e)) false (st !! i).

(** [inputs.forEach(input => !isNotBlank(input.value) &&
    (input.disabled = true))]. *)
Definition disable_blank (st : store) (i : nat) : store :=
  if value_not_blank st i then st else alter (set_disabled true) i st.

(** [AjaxForm.config.i18n?.validation?.[group] || group]. *)
Definition group_message (cfg : config) (group : string) : string :=
  if String.eqb (i18n_validation cfg group) "" then group
  else i18n_validation cfg group.

(** One turn of the loop over the groups. *)
Definition resolve_group (cfg : config) (st : store)
    (gi : string * list nat) : store :=
  let '(group, members) := gi in
  if existsb (value_not_blank st) members
  then fold_left disable_blank members st
  else match members with
       | i :: _ => alter (setCustomValidity (group_message cfg group)) i st
       | [] => st
       end.

(** A [Set] of names, in insertion order. *)
Definition set_add (x : string) (s : list string) : list string :=
  if existsb (String.eqb x) s then s else s ++ [x].

(** One turn of the standard pass. *)
Definition check_field (acc : store * list string) (i : nat)
  : store * list string :=
  let '(st, validation) := acc in
  match st !! i with
  | None => acc
  | Some e =>
      (alter (set_disabled false) i st,
       if validity_valid e then validation else set_add (el_name e) validation)
  end.

(** The [reduce] over the grouped fields. *)
Definition collect_groups (st : store) (inputs : list nat)
  : store * list (string * list nat) :=
  fold_left collect_group
    (queryFormInput st inputs (Some in_validation_group)) (st, []).

(** The store after the loop over the groups. *)
Definition resolve_groups (cfg : config) (st : store) (inputs : list nat)
  : store :=
  fold_left (resolve_group cfg) (collect_groups st inputs).2
    (collect_groups st inputs).1.

(** The synchronous part of [#handleValidation]: the store it leaves and
    the names in [validation] when the middleware is called. *)
Definition validate (cfg : config) (st : store) (inputs : list nat)
  : store * list string :=
  let st2 := resolve_groups cfg st inputs in
  fold_left check_field (queryFormInput st2 inputs None) (st2, []).

(** ** Applied values *)

(** The selectors built by [#handleEventApplied]:
    [[applied="key"],[applied-type="key"]] and
    [[applied="ajax-form-apply-type"]]. *)
Inductive applied_selector : Type :=
| ByKey (type key : string)
| Whole (type : string).

Definition applied_typed (type : string) (e : element) : option string :=
  if String.eqb type "request" then el_applied_request e
  else if String.eqb type "response" then el_applied_response e
  else None.

Definition FORM_APPLY_CLASS_NAME : string := "ajax-form-apply".

(** A key that can stand between double quotes in a selector as it is:
    it holds no double quote, no backslash, no null character and no line
    break. *)
Definition css_plain (key : string) : bool :=
  forallb
    (fun c => negb (Ascii.eqb c "034" || Ascii.eqb c "092"
                    || Ascii.eqb c "000" || Ascii.eqb c "010"
                    || Ascii.eqb c "012" || Ascii.eqb c "013"))
    (list_ascii_of_string key).

(** [el.matches(selector)] for the selectors above.  The code pastes the
    key between double quotes without escaping it; for a key that is
    [css_plain] the selector compares the attribute with the key, and a
    key that is not is outside the model. *)
Definition matches_applied (sel : applied_selector) (e : element) : bool :=
  match sel with
  | ByKey type key =>
      bool_decide (el_applied e = Some key)
      || bool_decide (applied_typed type e = Some key)
  | Whole type =>
      bool_decide (el_applied e = Some (FORM_APPLY_CLASS_NAME +:+ "-" +:+ type))
  end.

Definition applied_selector_eqb (a b : applied_selector) : bool :=
  match a, b with
  | ByKey t k, ByKey t' k' => String.eqb t t' && String.eqb k k'
  | Whole t, Whole t' => String.eqb t t'
  | _, _ => false
  end.

(** [selectors.set(selector, value)] on a [Map]. *)
Fixpoint selectors_set (sel : applied_selector) (v : jsval)
    (m : list (applied_selector * jsval)) : list (applied_selector * jsval) :=
  match m with
  | [] => [(sel, v)]
  | (s, x) :: r =>
      if applied_selector_eqb sel s then (s, v) :: r
      else (s, x) :: selectors_set sel v r
  end.

(** The selectors contributed by one of [payload.request] and
    [payload.response]. *)
Definition applied_selectors (type : string) (applyData : jsval)
    (m : list (applied_selector * jsval)) : list (applied_selector * jsval) :=
  match applyData with
  | VObj props =>
      fold_left (fun m kv => selectors_set (ByKey type kv.1) kv.2 m) props m
  | _ => if hasValue applyData then selectors_set (Whole type) applyData m
         else m
  end.

(** [this.#with.apply[toType][el.name] = value].  The bucket and the
    name are taken to be [ordinary]: assigning under an inherited name is
    outside the model. *)
Definition apply_to_field (st : store) (value : jsval)
    (apply : list (string * list (string * jsval))) (i : nat)
  : list (string * list (string * jsval)) :=
  match st !! i with
  | None => apply
  | Some e =>
      let toType := bucket_of e in
      pset toType (pset (el_name e) value (default [] (pget toType apply)))
        apply
  end.

(** [#handleEventApplied]: the new value of [this.#with.apply]. *)
Definition handleEventApplied (st : store) (inputs : list nat)
    (request response : jsval)
    (apply : list (string * list (string * jsval)))
  : list (string * list (string * jsval)) :=
  let selectors :=
    applied_selectors "response" response
      (applied_selectors "request" request []) in
  fold_left
    (fun apply sv =>
       fold_left (apply_to_field st sv.2)
         (queryFormInput st inputs (Some (matches_applied sv.1))) apply)
    selectors apply.

(** ** The submission pipeline *)

Definition EVENT_LIFECYCLE_BEFORE : string := "ajax-form:before".
Definition EVENT_LIFECYCLE_INVALID : string := "ajax-form:invalid".
Definition EVENT_LIFECYCLE_REQUEST : string := "ajax-form:request".
Definition EVENT_LIFECYCLE_RESPONSE : string := "ajax-form:response".
Definition EVENT_LIFECYCLE_AFTER : string := "ajax-form:after".
Definition EVENT_UPLOAD_STOP : string := "ajax-form:upload-stop".

(** What the pipeline does to its collaborators, in the order it does
    it. *)
Inductive event : Type :=
| ConsoleError (e : jsval)
| Broadcast (name : string) (payload : jsval)
| ResetUIControls
| RequestUIControls
| SuccessHandlerCall (stage : string) (data : jsval)
| ReportValidity
| ShowElements (control : string)
| TriggerEvent (control name : string)
| SetMessageError (v : jsval)
| GlobalErrorMiddleware (v : jsval).

(** The mutable state of an instance. *)
Record state : Type := State {
  st_store : store;
  st_with : withdata;
  st_log : list event
}.

(** What is fixed while a submission runs: the merged configuration, the
    input collection, the chain [#getMiddleware(lifecycle, opts)] of each
    stage, the transport behind [#submitHandler.run], the number of
    [messageError] controls and the two sentinel messages of
    js-common/js-constant. *)
Record instance : Type := Instance {
  inst_config : config;
  inst_inputs : list nat;
  inst_middleware : string -> jsval -> outcome;
  inst_transport : jsval -> outcome;
  inst_messageError : nat;
  ERROR_VALIDATION : string;
  ERROR_CONFIRM : string
}.

(** A step of a promise chain. *)
Inductive reply (A : Type) : Type :=
| Ok (a : A)
| Throw (e : jsval).
Arguments Ok {A} a.
Arguments Throw {A} e.

Definition M (A : Type) : Type := state -> reply A * state.

#[global] Instance M_ret : MRet M := fun A a s => (Ok a, s).
#[global] Instance M_bind : MBind M := fun A B f m s =>
  match m s with
  | (Ok a, s') => f a s'
  | (Throw e, s') => (Throw e, s')
  end.

Definition throw {A : Type} (e : jsval) : M A := fun s => (Throw e, s).

(** [p.catch(handler)]. *)
Definition catch {A : Type} (m : M A) (handler : jsval -> M A) : M A :=
  fun s =>
    match m s with
    | (Ok a, s') => (Ok a, s')
    | (Throw e, s') => handler e s'
    end.

Definition emit (ev : event) : M unit :=
  fun s => (Ok tt, State (st_store s) (st_with s) (st_log s ++ [ev])).

Definition await (o : outcome) : M jsval :=
  match o with
  | Resolved v => mret v
  | Rejected e => throw e
  end.

Definition get_state : M state := fun s => (Ok s, s).

Definition put_store (st : store) : M unit :=
  fun s => (Ok tt, State st (st_with s) (st_log s)).

(** [x?.[k]]. *)
Definition js_get_opt (x : jsval) (k : string) : jsval :=
  if hasValue x then js_get x k else VUndef.

(** [hasValue(result?.[key]) ? result[key] : original]. *)
Definition override (key : string) (result original : jsval) : jsval :=
  if hasValue (js_get_opt result key) then js_get result key else original.

Definition truthy (v : jsval) : bool :=
  match v with
  | VUndef | VNull | VBool false | VNum Z0 | VStr EmptyString => false
  | _ => true
  end.

(** [a || b]. *)
Definition js_or (a b : jsval) : jsval := if truthy a then a else b.

(** [DEFAULT_CONFIG.response.getError]; the parameter defaults to [{}],
    and reading a property of [null] throws. *)
Definition DEFAULT_getError (code status : jsval -> jsval) (error : jsval)
  : outcome :=
  match error with
  | VNull => Rejected (VHost (HError "TypeError") [])
  | _ =>
      let error := match error with VUndef => VObj [] | _ => error end in
      Resolved
        (js_or (code (js_get error "code"))
           (js_or (status (js_get error "status"))
              (js_or (js_get error "message")
                 (js_or (js_get error "code")
                    (js_or (js_get error "status") error)))))
  end.

Definition DEFAULT_checkResponse (res : jsval) : bool :=
  match js_get_opt res "code" with
  | VNum 200 => true
  | _ => false
  end.

Definition DEFAULT_getData (res : jsval) : jsval :=
  js_get_opt (js_get_opt res "data") "item".

Definition DEFAULT_getPage (res : jsval) : jsval :=
  js_get_opt (js_get_opt res "data") "page".

(** The own enumerable properties copied by [{ ...x }]. *)
Definition spread (x : jsval) : list (string * jsval) :=
  match x with
  | VObj props => props
  | VHost _ props => props
  | VArr items props => imap (fun i v => (pretty i, v)) items ++ props
  | VStr s =>
      imap (fun i c => (pretty i, VStr (String c EmptyString)))
        (list_ascii_of_string s)
  | _ => []
  end.

Definition obj1 (k : string) (v : jsval) : jsval := VObj [(k, v)].

Definition resetUIControls : M unit := emit ResetUIControls.

(** [#handleBefore]. *)
Definition handleBefore (inst : instance) (request : jsval) : M jsval :=
  r ← await (inst_middleware inst "before" (obj1 "request" request));
  let result := override "request" r request in
  let data := obj1 "request" result in
  _ ← emit (Broadcast EVENT_LIFECYCLE_BEFORE data);
  _ ← resetUIControls;
  _ ← emit (SuccessHandlerCall "before" data);
  mret result.

(** [#handleValidation]; the [Set] handed to the middleware is shown to
    it as the sequence of its names. *)
Definition handleValidation (inst : instance) (request : jsval) : M jsval :=
  s ← get_state;
  let '(st', validation) :=
    validate (inst_config inst) (st_store s) (inst_inputs inst) in
  _ ← put_store st';
  r ← await (inst_middleware inst "validation"
               (VObj [("request", request);
                      ("validation", VArr (map VStr validation) [])]));
  let result := List.filter isNotBlankV (toArray (js_get_opt r "validation")) in
  let validation :=
    fold_left (fun acc v => match v with VStr x => set_add x acc | _ => acc end)
      result validation in
  if 0 <? length validation then
    _ ← emit ReportValidity;
    _ ← emit (Broadcast EVENT_LIFECYCLE_INVALID VUndef);
    _ ← emit (ShowElements "messageValidation");
    throw (VHost (HError (ERROR_VALIDATION inst)) [])
  else mret request.

(** [#handleRequest]; the result is [{ request, response }]. *)
Definition handleRequest (inst : instance) (request : jsval) : M jsval :=
  _ ← emit RequestUIControls;
  r ← await (inst_middleware inst "request" (obj1 "request" request));
  let result := override "request" r request in
  let data := obj1 "request" result in
  _ ← emit (Broadcast EVENT_LIFECYCLE_REQUEST data);
  _ ← emit (SuccessHandlerCall "request" data);
  res ← await (inst_transport inst result);
  mret (VObj [("request", result); ("response", res)]).

(** [#handleResponse]. *)
Definition handleResponse (inst : instance) (request response : jsval)
  : M jsval :=
  r ← await (inst_middleware inst "response"
               (VObj [("request", request); ("response", response)]));
  let result := override "response" r response in
  if cfg_checkResponse (inst_config inst) result then
    let data := VObj [("request", request);
                      ("response", cfg_getData (inst_config inst) result);
                      ("page", cfg_getPage (inst_config inst) result)] in
    _ ← emit (Broadcast EVENT_LIFECYCLE_RESPONSE data);
    _ ← emit (TriggerEvent "progress" EVENT_UPLOAD_STOP);
    _ ← resetUIControls;
    _ ← emit (SuccessHandlerCall "response" data);
    mret data
  else throw result.

(** [#handleAfter]. *)
Definition handleAfter (inst : instance) (data : jsval) : M jsval :=
  _ ← await (inst_middleware inst "after" data);
  _ ← emit (Broadcast EVENT_LIFECYCLE_AFTER data);
  _ ← emit (ShowElements "messageSuccess");
  _ ← emit (SuccessHandlerCall "after" data);
  mret data.

(** [{ ...error, message: getError(error) }]. *)
Definition decorate (message error : jsval) : jsval :=
  VObj (pset "message" message (spread error)).

(** [case] of the [switch]: strict equality with a string. *)
Definition is_string (s : string) (v : jsval) : bool :=
  match v with
  | VStr m => String.eqb m s
  | _ => false
  end.

(** [#handleError]. *)
Definition handleError (inst : instance) (error : jsval) : M jsval :=
  _ ← emit (ConsoleError error);
  let message := js_get_opt error "message" in
  if is_string (ERROR_VALIDATION inst) message then mret VUndef
  else if is_string (ERROR_CONFIRM inst) message then
    _ ← resetUIControls; mret VUndef
  else
    m ← await (cfg_getError (inst_config inst) error);
    let error := decorate m error in
    _ ← emit (Broadcast EVENT_LIFECYCLE_AFTER (obj1 "error" error));
    _ ← emit (TriggerEvent "progress" EVENT_UPLOAD_STOP);
    _ ← resetUIControls;
    r ← await (inst_middleware inst "error" error);
    let result := if hasValue r then r else error in
    _ ← (if 0 <? inst_messageError inst then
           _ ← emit (SetMessageError result);
           emit (ShowElements "messageError")
         else emit (GlobalErrorMiddleware result));
    throw result.

(** The options of [submit] that the model follows: [opts.with] and
    [opts.data]. *)
Record options : Type := Options {
  opt_with : list string;
  opt_data : jsval
}.

(** The chain of [then] calls of [submit]. *)
Definition pipeline (inst : instance) (data : jsval) : M jsval :=
  request ← handleBefore inst data;
  request ← handleValidation inst request;
  rr ← handleRequest inst request;
  data ← handleResponse inst (js_get rr "request") (js_get rr "response");
  handleAfter inst data.

(** The [data] that [submit] destructures from
    [{ ...opts, ...this.#generateDataAndProps(opts.with) }]: the bucket of
    that name in the assembled groups, or [opts.data] when the assembly
    has no such bucket. *)
Definition submitted_data (inst : instance) (opts : options) (s : state)
  : jsval :=
  default (opt_data opts)
    (pget "data"
       (spread (generateDataAndProps (inst_config inst) (st_store s)
                  (inst_inputs inst) (st_with s) (opt_with opts)))).

(** [submit(opts)]. *)
Definition submit (inst : instance) (opts : options) : M jsval :=
  fun s =>
    catch (pipeline inst (submitted_data inst opts s)) (handleError inst) s.

(** How the promise returned by [submit] settles. *)
Definition settle (r : reply jsval * state) : outcome :=
  match r.1 with
  | Ok v => Resolved v
  | Throw e => Rejected e
  end.

(** ** Vocabulary of the statements *)

(** The forms and side channels the statements are about: every name
    that becomes a property name (a bucket, a segment of a field name, a
    validation group, a key of a side channel) is [ordinary]. *)
Definition ordinary_path (name : string) : bool :=
  forallb ordinary (path_of name).

Definition ordinary_field (e : element) : bool :=
  ordinary (bucket_of e) && ordinary_path (el_name e)
  && from_option ordinary true (el_validation e).

Definition ordinary_form (st : list element) (inputs : list nat) : bool :=
  forallb (fun i => from_option ordinary_field true (st !! i)) inputs.

Definition ordinary_with
    (w : list (string * list (string * list (string * jsval)))) : bool :=
  forallb
    (fun nt : string * list (string * list (string * jsval)) =>
       forallb
         (fun tk : string * list (string * jsval) =>
            ordinary tk.1 && forallb (fun kv => ordinary_path kv.1) tk.2)
         nt.2)
    w.

(** A text-like control, whose [required] check is on its value. *)
Definition by_value (e : element) : bool :=
  existsb (String.eqb (el_type e)) REQUIRED_BY_VALUE.

(** The source lookup applied to a [result] of the [switch]. *)
Definition via_source (cfg : config) (e : element) (result : jsval)
  : jsval :=
  source_lookup cfg e (source_key cfg e result).

(** A value made of mappings, sequences and primitive leaves: it holds
    no host object (a file, a date, an error), whose own members are
    outside the model. *)
Fixpoint host_free (v : jsval) : bool :=
  let fix all_items (l : list jsval) : bool :=
    match l with
    | [] => true
    | x :: r => host_free x && all_items r
    end in
  let fix all_props (l : list (string * jsval)) : bool :=
    match l with
    | [] => true
    | (_, x) :: r => host_free x && all_props r
    end in
  match v with
  | VArr items props => all_items items && all_props props
  | VObj props => all_props props
  | VHost _ _ => false
  | _ => true
  end.

(** Reading along a path: [o[k1][k2]...]. *)
Fixpoint get_path (o : jsval) (keys : list string) : jsval :=
  match keys with
  | [] => o
  | k :: r => get_path (js_get o k) r
  end.

Fixpoint no_sep (s : string) : bool :=
  match s with
  | EmptyString => true
  | String c r => negb (is_sep c) && no_sep r
  end.

(** The characters of a name that are not separators, in order. *)
Fixpoint strip_sep (s : string) : string :=
  match s with
  | EmptyString => EmptyString
  | String c r => if is_sep c then strip_sep r else String c (strip_sep r)
  end.

(** The state after [evs] have been appended to its log. *)
Definition logged (s : state) (evs : list event) : state :=
  State (st_store s) (st_with s) (st_log s ++ evs).

(** The events of the Error stage for an error that is not a sentinel:
    [error] is the decorated error, [result] what is thrown. *)
Definition error_events (inst : instance) (raw error result : jsval)
  : list event :=
  [ConsoleError raw;
   Broadcast EVENT_LIFECYCLE_AFTER (obj1 "error" error);
   TriggerEvent "progress" EVENT_UPLOAD_STOP;
   ResetUIControls]
  ++ (if 0 <? inst_messageError inst
      then [SetMessageError result; ShowElements "messageError"]
      else [GlobalErrorMiddleware result]).

(** The precedence chain of the resolved message, as a list of
    candidates tried in order; the last resort is the error itself. *)
Definition message_candidates (code status : jsval -> jsval) (error : jsval)
  : list jsval :=
  [code (js_get error "code"); status (js_get error "status");
   js_get error "message"; js_get error "code"; js_get error "status"].

Fixpoint first_truthy (candidates : list jsval) (last : jsval) : jsval :=
  match candidates with
  | [] => last
  | c :: r => if truthy c then c else first_truthy r last
  end.

(** [st'] has the elements of [st] under the same names, and no element
    that is disabled in [st] is enabled in [st']. *)
Definition narrows (st st' : list element) : Prop :=
  forall i e', st' !! i = Some e' ->
    exists e, st !! i = Some e /\ el_name e' = el_name e
              /\ (el_disabled e = true -> el_disabled e' = true).

(** [groups[t]?.[k]]. *)
Definition pget2 {A : Type} (t k : string)
    (groups : list (string * list (string * A))) : option A :=
  match pget t groups with
  | Some target => pget k target
  | None => None
  end.

(** The assignments [groups[toType][key] = value] of the second loop of
    [#generateDataAndProps], in the order they are made: bucket, key and
    value, for every inclusion that is required or requested. *)
Definition side_writes (w : withdata) (withParams : list string)
  : list (string * string * jsval) :=
  flat_map
    (fun nr : string * bool =>
       if nr.2 || existsb (String.eqb nr.1) withParams
       then flat_map
              (fun tv : string * list (string * jsval) =>
                 map (fun kv => (tv.1, kv.1, kv.2)) tv.2)
              (default [] (pget nr.1 w))
       else [])
    WITH.

(** The value of the last assignment to bucket [t] and key [k]. *)
Definition last_write (t k : string) (writes : list (string * string * jsval))
  : option jsval :=
  fold_left
    (fun acc wr => if String.eqb wr.1.1 t && String.eqb wr.1.2 k
                   then Some wr.2 else acc)
    writes None.

(** The top-level key that [setNestedValue] assigns for a name. *)
Definition first_segment (name : string) : string :=
  default "undefined" (head (path_of name)).

(** A table of buckets in which no bucket and no key of a bucket occurs
    twice. *)
Definition wf_groups {A : Type} (groups : list (string * list (string * A)))
  : Prop :=
  List.NoDup (map fst groups)
  /\ Forall (fun tg => List.NoDup (map fst tg.2)) groups.

(** The positions a slot refers to. *)
Definition fslot_ids (f : fslot) : list nat :=
  match f with
  | FOne i => [i]
  | FMany l => l
  end.

Definition slot_ids (s : slot) : list nat :=
  match s with
  | SField f => fslot_ids f
  | SValue _ => []
  end.

(** Every position a table of slots refers to satisfies [Q]. *)
Definition ids_in {A : Type} (ids : A -> list nat) (Q : nat -> Prop)
    (groups : list (string * list (string * A))) : Prop :=
  forall t g k s i, In (t, g) groups -> In (k, s) g -> In i (ids s) -> Q i.

(** An element without the two things validation writes: its custom
    validity message and its disabled flag. *)
Definition core (e : element) : element :=
  set_disabled false (setCustomValidity "" e).

(** ** Fixtures for the worked examples *)

(** A configuration with the defaults of [DEFAULT_CONFIG], no i18n table
    and no source function. *)
Definition plain_config : config :=
  Config (fun _ => VUndef) (fun _ => VUndef) (fun _ => "") (fun _ => None)
    DEFAULT_checkResponse DEFAULT_getData DEFAULT_getPage
    (DEFAULT_getError (fun _ => VUndef) (fun _ => VUndef))
    (fun _ => VUndef) (fun _ v => v).

(** An enabled input with nothing declared but its name, type, value
    and checked state. *)
Definition input (type name value : string) (checked : bool) : element :=
  Element name type None value checked false [] [] false false "" false
    None None None None None None None.

(** A required text input that belongs to a validation group. *)
Definition grouped (group name value : string) : element :=
  Element name "text" None value false false [] [] false true "" false
    (Some group) None None None None None None.

(** A [select multiple] with the given selected option values. *)
Definition select_multiple (name : string) (selected : list string)
  : element :=
  Element name "select-multiple" None (default "" (selected !! 0)) false true
    [] selected false false "" false None None None None None None None.

(** The identity chain: no middleware is declared for any stage. *)
Definition identity_chain : string -> jsval -> outcome :=
  fun _ payload => Resolved payload.

(** A chain whose [error] stage resolves with a value of its own. *)
Definition error_override (replacement : jsval) : string -> jsval -> outcome :=
  fun lifecycle payload =>
    if String.eqb lifecycle "error" then Resolved replacement
    else Resolved payload.

(** A chain whose [error] stage fails with an error of its own. *)
Definition error_failing (failure : jsval) : string -> jsval -> outcome :=
  fun lifecycle payload =>
    if String.eqb lifecycle "error" then Rejected failure
    else Resolved payload.

(** An instance with the default configuration, no [messageError]
    control and the given input collection, chain and transport. *)
Definition simple_instance (inputs : list nat)
    (chain : string -> jsval -> outcome) (transport : jsval -> outcome)
  : instance :=
  Instance plain_config inputs chain transport 0
    "validation-error" "confirm-error".

Definition no_options : options := Options [] VUndef.

(** One text field [q] with the value ["v"], no side channel, empty log. *)
Definition one_field : state := State [input "text" "q" "v" false] [] [].

(** A transport that answers every request with [response]. *)
Definition answers (response : jsval) : jsval -> outcome :=
  fun _ => Resolved response.

(** A transport that fails every request with [error]. *)
Definition fails (error : jsval) : jsval -> outcome :=
  fun _ => Rejected error.

(** The two-field form of the validation examples: a satisfied group
    whose second member is blank. *)
Definition satisfied_pair : list element :=
  [grouped "g" "a" "x"; grouped "g" "b" ""].

(** Both members of the group are empty. *)
Definition empty_pair : list element :=
  [grouped "g" "a" ""; grouped "g" "b" ""].



(** ** The captured query string *)

(** [query.getAll(key)] on the decoded pairs of a [URLSearchParams]. *)
Definition getAll (key : string) (query : list (string * string))
  : list string :=
  map snd (List.filter (fun kv => String.eqb kv.1 key) query).

(** One callback of [query.forEach] in [getQuerystring].  [None] is the
    [TypeError] of calling [data.hasOwnProperty] once a parameter of that
    name has been stored as an own property; an assignment to
    [__proto__] creates no own property. *)
Definition query_step (query : list (string * string))
    (data : option (list (string * jsval))) (kv : string * string)
  : option (list (string * jsval)) :=
  match data with
  | None => None
  | Some d =>
      if bool_decide (is_Some (pget "hasOwnProperty" d)) then None
      else if bool_decide (is_Some (pget kv.1 d)) then Some d
      else if String.eqb kv.1 "__proto__" then Some d
      else
        let values := getAll kv.1 query in
        Some (pset kv.1
                (if 1 <? length values then VArr (map VStr values) []
                 else VStr kv.2)
                d)
  end.

(** [getQuerystring()], on the pairs of [location.search]. *)
Definition getQuerystring (query : list (string * string))
  : option (list (string * jsval)) :=
  fold_left (query_step query) query (Some []).

(** What a captured parameter holds: the string of a parameter given
    once, the sequence of the values of a repeated one. *)
Definition captured (values : list string) : option jsval :=
  match values with
  | [] => None
  | [v] => Some (VStr v)
  | _ => Some (VArr (map VStr values) [])
  end.

(** ** Vocabulary of the pipeline statements *)

(** [result.forEach(validation.add, validation)] after
    [toArray(result?.validation).filter(isNotBlank)]: the names in
    [validation] once the result [rv] of the validation middleware has
    been added. *)
Definition validation_names (rv : jsval) (validation : list string)
  : list string :=
  fold_left (fun acc v => match v with VStr x => set_add x acc | _ => acc end)
    (List.filter isNotBlankV (toArray (js_get_opt rv "validation")))
    validation.

(** The payload handed to the validation middleware. *)
Definition validation_payload (request : jsval) (validation : list string)
  : jsval :=
  VObj [("request", request); ("validation", VArr (map VStr validation) [])].



(** The events of a submission that validation stops. *)
Definition invalid_events (inst : instance) (q1 : jsval) : list event :=
  [Broadcast EVENT_LIFECYCLE_BEFORE (obj1 "request" q1);
   ResetUIControls;
   SuccessHandlerCall "before" (obj1 "request" q1);
   ReportValidity;
   Broadcast EVENT_LIFECYCLE_INVALID VUndef;
   ShowElements "messageValidation";
   ConsoleError (VHost (HError (ERROR_VALIDATION inst)) [])].


(** ** Vocabulary of the assembly statements *)

(** The usable fields addressed to bucket [t] whose name, without the
    suffix [[]], is [k], in document order. *)
Definition addressed (st : list element) (t k : string) (i : nat) : bool :=
  from_option
    (fun e => String.eqb (bucket_of e) t
              && String.eqb (endsWith_brackets (el_name e)).2 k)
    false (st !! i).

Definition fields_of (st : list element) (inputs : list nat) (t k : string)
  : list nat :=
  List.filter (addressed st t k) (queryFormInput st inputs None).

Definition has_suffix (st : list element) (i : nat) : bool :=
  from_option (fun e => (endsWith_brackets (el_name e)).1) false (st !! i).

(** What field grouping leaves under a key, from the fields that share
    it. *)
Definition grouped_slot (st : list element) (l : list nat) : option fslot :=
  match l with
  | [] => None
  | [i] => Some (if has_suffix st i then FMany [i] else FOne i)
  | _ => Some (FMany l)
  end.

(** The values of the checked members of a group, in document order. *)
Definition checked_values (st : list element) (l : list nat) : list jsval :=
  flat_map
    (fun i => match st !! i with
              | Some e => if el_checked e then [VStr (el_value e)] else []
              | None => []
              end) l.




(** ** Vocabulary of the applied-value statements *)

(** Is the field at [i] addressed to bucket [t] under the name [n]? *)
Definition targets (st : list element) (t n : string) (i : nat) : bool :=
  from_option
    (fun e => String.eqb (bucket_of e) t && String.eqb (el_name e) n)
    false (st !! i).

(** Does a selector reach a usable field addressed to [t] under [n]? *)
Definition reaches (st : list element) (inputs : list nat) (t n : string)
    (sel : applied_selector) : bool :=
  existsb (targets st t n)
    (queryFormInput st inputs (Some (matches_applied sel))).

(** A payload of an applied event whose keys, when it is a mapping, can
    all stand in a selector as they are. *)
Definition payload_plain (applyData : jsval) : bool :=
  match applyData with
  | VObj props => forallb (fun kv : string * jsval => css_plain kv.1) props
  | _ => true
  end.

(** The selectors of an event, in the order of the [Map]. *)
Definition event_selectors (request response : jsval)
  : list (applied_selector * jsval) :=
  applied_selectors "response" response
    (applied_selectors "request" request []).

(** ** Vocabulary of the control statements *)

(** Are the UI controls in the state of a running request after the
    events of [log], given whether they were before? *)
Fixpoint controls_pending (log : list event) (before : bool) : bool :=
  match log with
  | [] => before
  | RequestUIControls :: r => controls_pending r true
  | ResetUIControls :: r => controls_pending r false
  | _ :: r => controls_pending r before
  end.

(** A later state of the same instance: same side channels, same fields,
    and a log that continues the earlier one. *)
Definition extends (s s' : state) : Prop :=
  st_with s' = st_with s /\ st_store s' = st_store s
  /\ exists evs, st_log s' = st_log s ++ evs.

(** A computation that only adds to the log. *)
Definition keeps {A : Type} (m : M A) : Prop := forall s, extends s (m s).2.

(** ** Vocabulary of the validation statements *)

(** The names of the fields of [l] that fail their constraints, each
    once, in the order of [l]. *)
Definition invalid_names (st : list element) (l : list nat) : list string :=
  fold_left
    (fun acc i => match st !! i with
                  | Some e => if validity_valid e then acc
                              else set_add (el_name e) acc
                  | None => acc
                  end)
    l [].


(** ** Page updates *)




(** ** Triggered submissions *)


(** ** UI controls

    The controls of an instance are lists of elements of the page, one
    list for every key of [UI_CONTROLS].  The four helpers that toggle
    them belong to js-common and are parameters here, with the two
    observations they act on: whether an element is visible and whether
    it is enabled. *)
Module Controls.

(** An entry of [UI_CONTROLS]: its [show] and [enable] properties. *)
Record control : Type := Control {
  ctl_show : option bool;
  ctl_enable : option bool
}.

Definition UI_CONTROLS : list (string * control) :=
  [("enable", Control None (Some true));
   ("disable", Control None (Some false));
   ("show", Control (Some true) None);
   ("hide", Control (Some false) None);
   ("progress", Control (Some true) None);
   ("messageValidation", Control (Some true) None);
   ("messageSuccess", Control (Some true) None);
   ("messageError", Control (Some true) None)].

(** [this.#controls] as [#initUIControls] builds it: one list for every
    key of [UI_CONTROLS], in that order. *)
Record controls : Type := Build {
  c_enable : list nat;
  c_disable : list nat;
  c_show : list nat;
  c_hide : list nat;
  c_progress : list nat;
  c_messageValidation : list nat;
  c_messageSuccess : list nat;
  c_messageError : list nat
}.

Definition entries (c : controls) : list (string * list nat) :=
  [("enable", c_enable c); ("disable", c_disable c); ("show", c_show c);
   ("hide", c_hide c); ("progress", c_progress c);
   ("messageValidation", c_messageValidation c);
   ("messageSuccess", c_messageSuccess c);
   ("messageError", c_messageError c)].

Definition mem (x : nat) (l : list nat) : bool := existsb (Nat.eqb x) l.

Section Helpers.
Variable U : Type.
Variables showElements hideElements enableElements disableElements
  : list nat -> U -> U.

(** One turn of the loop of [#resetUIControls]. *)
Definition reset_entry (u : U) (ke : string * list nat) : U :=
  let control := pget ke.1 UI_CONTROLS in
  let u :=
    match control ≫= ctl_show with
    | Some true => hideElements ke.2 u
    | Some false => showElements ke.2 u
    | None => u
    end in
  match control ≫= ctl_enable with
  | Some true => disableElements ke.2 u
  | Some false => enableElements ke.2 u
  | None => u
  end.

(** [#resetUIControls]. *)
Definition resetUIControls (c : controls) (u : U) : U :=
  fold_left reset_entry (entries c) u.

(** The four toggles of [#handleRequest]. *)
Definition requestUIControls (c : controls) (u : U) : U :=
  hideElements (c_hide c)
    (showElements (c_show c)
       (disableElements (c_disable c) (enableElements (c_enable c) u))).
End Helpers.

(** What is asked of the helpers: each sets one flag of the elements it
    is given and touches nothing else. *)
Record toggles {U : Type}
    (showElements hideElements enableElements disableElements
       : list nat -> U -> U)
    (visible enabled : U -> nat -> bool) : Prop := Toggles {
  show_visible : forall l u x,
    visible (showElements l u) x = mem x l || visible u x;
  hide_visible : forall l u x,
    visible (hideElements l u) x = negb (mem x l) && visible u x;
  enable_visible : forall l u x,
    visible (enableElements l u) x = visible u x;
  disable_visible : forall l u x,
    visible (disableElements l u) x = visible u x;
  show_enabled : forall l u x,
    enabled (showElements l u) x = enabled u x;
  hide_enabled : forall l u x,
    enabled (hideElements l u) x = enabled u x;
  enable_enabled : forall l u x,
    enabled (enableElements l u) x = mem x l || enabled u x;
  disable_enabled : forall l u x,
    enabled (disableElements l u) x = negb (mem x l) && enabled u x
}.

(** The idle state of an element, from the lists it belongs to. *)
Definition idle_visible (c : controls) (x : nat) (before : bool) : bool :=
  if mem x (c_messageError c) || mem x (c_messageSuccess c)
     || mem x (c_messageValidation c) || mem x (c_progress c)
  then false
  else if mem x (c_hide c) then true
  else if mem x (c_show c) then false
  else before.

Definition idle_enabled (c : controls) (x : nat) (before : bool) : bool :=
  if mem x (c_disable c) then true
  else if mem x (c_enable c) then false
  else before.

(** A page whose elements carry the two flags, and the helpers on it. *)
Definition page : Type := nat -> bool * bool.

Definition set_visible (b : bool) (l : list nat) (u : page) : page :=
  fun x => if mem x l then (b, (u x).2) else u x.

Definition set_enabled (b : bool) (l : list nat) (u : page) : page :=
  fun x => if mem x l then ((u x).1, b) else u x.

End Controls.

(** [DEFAULT_CONFIG.response.create]. *)
Definition DEFAULT_create (value : jsval) : jsval :=
  VObj [("code", VNum 200);
        ("data", VObj [("item", js_get_opt value "data");
                       ("page", js_get_opt value "page")])].
(** *** Equations of the cleaning pass *)

Lemma deepFilterArrays_arr items props :
  deepFilterArrays (VArr items props) =
  VArr (map deepFilterArrays (List.filter hasValue items)) [].
Proof.
  simpl. f_equal.
  induction items as [|x r IH]; simpl; [done|].
  destruct (hasValue x); simpl; by rewrite IH.
Qed.

Lemma deepFilterArrays_obj props :
  deepFilterArrays (VObj props) =
  VObj (map (fun kv => (kv.1, deepFilterArrays kv.2)) props).
Proof.
  simpl. f_equal.
  induction props as [|[k x] r IH]; simpl; [done|]. by rewrite IH.
Qed.

Lemma is_clean_arr items props :
  is_clean (VArr items props) =
  forallb (fun x => hasValue x && is_clean x) items.
Proof.
  simpl. induction items as [|x r IH]; simpl; [done|]. by rewrite IH.
Qed.

Lemma is_clean_obj props :
  is_clean (VObj props) = forallb (fun kv => is_clean kv.2) props.
Proof.
  simpl. induction props as [|[k x] r IH]; simpl; [done|]. by rewrite IH.
Qed.

Lemma hasValue_deepFilterArrays v :
  hasValue (deepFilterArrays v) = hasValue v.
Proof. by destruct v as [ | | | | | | | [] ?]. Qed.

(** Induction on values, with the hypothesis available for every item of
    a sequence and every property value. *)
Lemma jsval_nested_ind (P : jsval -> Prop) :
  P VUndef -> P VNull -> (forall b, P (VBool b)) -> (forall n, P (VNum n)) ->
  (forall s, P (VStr s)) ->
  (forall items props,
      Forall P items -> Forall (fun kv => P kv.2) props ->
      P (VArr items props)) ->
  (forall props, Forall (fun kv => P kv.2) props -> P (VObj props)) ->
  (forall h props, Forall (fun kv => P kv.2) props -> P (VHost h props)) ->
  forall v, P v.
Proof.
  intros Hu Hn Hb Hz Hs Ha Ho Hh.
  fix IH 1. intros v.
  assert (Hprops : forall ps : list (string * jsval),
             Forall (fun kv => P kv.2) ps).
  { fix IHp 1. intros [|[k x] r]; constructor; [apply IH | apply IHp]. }
  destruct v as [ | | b | n | s | items props | props | h props].
  - exact Hu.
  - exact Hn.
  - apply Hb.
  - apply Hz.
  - apply Hs.
  - apply Ha; [|apply Hprops].
    induction items as [|x r IHr]; constructor; [apply IH | exact IHr].
  - apply Ho, Hprops.
  - apply Hh, Hprops.
Qed.

Lemma deepFilterArrays_idem v :
  deepFilterArrays (deepFilterArrays v) = deepFilterArrays v.
Proof.
  induction v as [ | | b | n | s | items props IHi _ | props IHp | h props _]
    using jsval_nested_ind; try reflexivity; try (by destruct h).
  - rewrite !deepFilterArrays_arr. f_equal.
    induction IHi as [|x r Hx _ IHr]; simpl; [done|].
    destruct (hasValue x) eqn:Hv; simpl; [|exact IHr].
    rewrite hasValue_deepFilterArrays, Hv. simpl. by rewrite Hx, IHr.
  - rewrite !deepFilterArrays_obj. f_equal.
    induction IHp as [|[k x] r Hx _ IHr]; simpl in *; [done|].
    by rewrite Hx, IHr.
Qed.

Lemma deepFilterArrays_clean v : is_clean (deepFilterArrays v) = true.
Proof.
  induction v as [ | | b | n | s | items props IHi _ | props IHp | h props _]
    using jsval_nested_ind; try reflexivity; try (by destruct h).
  - rewrite deepFilterArrays_arr, is_clean_arr.
    induction IHi as [|x r Hx _ IHr]; simpl; [done|].
    destruct (hasValue x) eqn:Hv; simpl; [|exact IHr].
    by rewrite hasValue_deepFilterArrays, Hv, Hx, IHr.
  - rewrite deepFilterArrays_obj, is_clean_obj.
    induction IHp as [|[k x] r Hx _ IHr]; simpl in *; [done|].
    by rewrite Hx, IHr.
Qed.

(** *** Checkbox extraction *)

Lemma via_source_plain cfg e result :
  el_from_type e = None -> el_from_pattern e = None ->
  via_source cfg e result = result.
Proof.
  intros Ht Hp. unfold via_source, source_lookup, source_key.
  by rewrite Ht, Hp.
Qed.

Lemma element_result_checkbox cfg e :
  resolved_type e = HTML_CHECKBOX ->
  element_result cfg e =
  inr (if negb (String.eqb (el_value e) "on")
          && negb (String.eqb (el_value e) "")
       then (if el_checked e then VStr (el_value e) else VUndef)
       else VBool (el_checked e)).
Proof. intros Ht. unfold element_result. by rewrite Ht. Qed.

(** *** Property tables *)

Section PropsFacts.
Context {A : Type}.
Implicit Types (o : list (string * A)) (k : string) (v : A).

Lemma pget_preplace_eq k v o :
  is_Some (pget k o) -> pget k (preplace k v o) = Some v.
Proof.
  induction o as [|[k' x] r IH]; simpl; [by intros [? ?]|].
  destruct (String.eqb k k') eqn:E; simpl; rewrite E; auto.
Qed.

Lemma pget_preplace_ne k k' v o :
  k <> k' -> pget k (preplace k' v o) = pget k o.
Proof.
  intros Hne. induction o as [|[k2 x] r IH]; simpl; [done|].
  destruct (String.eqb k' k2) eqn:E; simpl.
  - apply String.eqb_eq in E as <-.
    by rewrite (proj2 (String.eqb_neq k k')).
  - by rewrite IH.
Qed.

Lemma pget_pinsert_eq ki k v o :
  pget k o = None -> pget k (pinsert ki k v o) = Some v.
Proof.
  induction o as [|[k' x] r IH]; simpl.
  - by rewrite String.eqb_refl.
  - destruct (String.eqb k k') eqn:E; [done|]. intros Hn.
    destruct (precedes ki (array_index k')); simpl.
    + by rewrite String.eqb_refl.
    + rewrite E. auto.
Qed.

Lemma pget_pinsert_ne ki k k' v o :
  k <> k' -> pget k (pinsert ki k' v o) = pget k o.
Proof.
  intros Hne. induction o as [|[k2 x] r IH]; simpl.
  - by rewrite (proj2 (String.eqb_neq k k')).
  - destruct (precedes ki (array_index k2)); simpl.
    + by rewrite (proj2 (String.eqb_neq k k')).
    + by rewrite IH.
Qed.

Lemma pget_pset_eq k v o : pget k (pset k v o) = Some v.
Proof.
  unfold pset. destruct (pget k o) eqn:E.
  - apply pget_preplace_eq. by rewrite E.
  - by apply pget_pinsert_eq.
Qed.

Lemma pget_pset_ne k k' v o : k <> k' -> pget k (pset k' v o) = pget k o.
Proof.
  intros Hne. unfold pset. destruct (pget k' o).
  - by apply pget_preplace_ne.
  - by apply pget_pinsert_ne.
Qed.
End PropsFacts.

(** *** Reading and writing a property *)

Lemma items_set_lookup n v items : items_set n v items !! n = Some v.
Proof.
  unfold items_set. destruct (n <? length items) eqn:E.
  - apply Nat.ltb_lt in E. by apply list_lookup_insert_eq.
  - apply Nat.ltb_ge in E.
    rewrite lookup_app_r by lia.
    rewrite lookup_app_r by (rewrite length_replicate; lia).
    rewrite length_replicate.
    by replace (n - length items - (n - length items)) with 0 by lia.
Qed.

Lemma ordinary_not_proto k : ordinary k = true -> k <> "__proto__".
Proof. by intros H ->. Qed.

Lemma ordinary_not_inherits acc k : ordinary k = true -> inherits acc k = false.
Proof.
  unfold ordinary, inherits. intros H. apply negb_true_iff in H.
  rewrite existsb_app in H. apply orb_false_iff in H as [Ho Ha].
  destruct acc; rewrite ?andb_false_r; try done.
  - rewrite existsb_app, Ho. simpl.
    unfold ARRAY_MEMBERS in Ha. simpl in Ha.
    apply orb_false_iff in Ha as [_ Ha]. simpl.
    by rewrite Ha, andb_false_r.
  - by rewrite Ho, andb_false_r.
  - by rewrite Ho, andb_false_r.
Qed.

Lemma js_set_named acc k v :
  k <> "__proto__" ->
  js_set acc k v
  = match acc with
    | VObj props => VObj (pset k v props)
    | VArr items props =>
        match array_index k with
        | Some n => VArr (items_set (N.to_nat n) v items) props
        | None => VArr items (pset k v props)
        end
    | VHost h props => VHost h (pset k v props)
    | _ => acc
    end.
Proof.
  intros Hk. unfold js_set. apply String.eqb_neq in Hk. by rewrite Hk.
Qed.

Lemma js_get_js_set_eq acc k v :
  isObjectLike acc = true -> k <> "__proto__" ->
  js_get (js_set acc k v) k = v.
Proof.
  intros Hacc Hk. rewrite js_set_named by done.
  destruct acc as [ | | | | | items props | props | h props]; try done;
    simpl.
  - destruct (array_index k) eqn:E; simpl; rewrite E.
    + by rewrite items_set_lookup.
    + by rewrite pget_pset_eq.
  - by rewrite pget_pset_eq.
  - by rewrite pget_pset_eq.
Qed.

Lemma isObjectLike_js_set acc k v :
  isObjectLike (js_set acc k v) = isObjectLike acc.
Proof.
  unfold js_set. destruct (String.eqb k "__proto__" && negb (owns acc k));
    [done|].
  destruct acc; try done. simpl. by destruct (array_index k).
Qed.

Lemma isArray_js_set acc k v : isArray (js_set acc k v) = isArray acc.
Proof.
  unfold js_set. destruct (String.eqb k "__proto__" && negb (owns acc k));
    [done|].
  destruct acc; try done. simpl. by destruct (array_index k).
Qed.

Lemma assign_path_unfold acc k k' rest value :
  inherits acc k = false ->
  assign_path acc (k :: k' :: rest) value =
  js_set acc k
    (assign_path
       (if isObjectLike (js_get acc k) then js_get acc k
        else if isInteger k' then VArr [] [] else VObj [])
       (k' :: rest) value).
Proof. intros H. simpl. rewrite H. by destruct (isObjectLike (js_get acc k)). Qed.

Lemma isArray_assign_path acc keys value :
  isArray (assign_path acc keys value) = isArray acc.
Proof.
  destruct keys as [|k [|k' rest]]; simpl; [apply isArray_js_set..|].
  destruct (inherits acc k); [done|].
  destruct (isObjectLike (js_get acc k)); apply isArray_js_set.
Qed.

Lemma get_path_assign_path keys : forall acc value,
  isObjectLike acc = true -> keys <> [] -> forallb ordinary keys = true ->
  get_path (assign_path acc keys value) keys = value.
Proof.
  induction keys as [|k rest IH]; [done|]. intros acc value Hacc _ Hord.
  simpl in Hord. apply andb_true_iff in Hord as [Hk Hrest].
  pose proof (ordinary_not_proto k Hk) as Hproto.
  destruct rest as [|k' rest].
  - simpl. by apply js_get_js_set_eq.
  - rewrite assign_path_unfold by by apply ordinary_not_inherits.
    change (get_path ?o (k :: ?r)) with (get_path (js_get o k) r).
    rewrite js_get_js_set_eq by done. apply IH; [|done|done].
    destruct (isObjectLike (js_get acc k)) eqn:E; [done|].
    by destruct (isInteger k').
Qed.

(** *** Path segments *)

Lemma no_sep_app s c :
  no_sep s = true -> is_sep c = false ->
  no_sep (s +:+ String c "") = true.
Proof.
  intros Hs Hc. induction s as [|d r IH]; simpl in *.
  - by rewrite Hc.
  - apply andb_true_iff in Hs as [-> Hr]. simpl. auto.
Qed.

Lemma split_path_segments s : forall cur,
  no_sep cur = true ->
  Forall (fun seg => seg <> "" /\ no_sep seg = true) (split_path cur s).
Proof.
  induction s as [|c r IH]; intros cur Hcur; simpl.
  - destruct (String.eqb cur "") eqn:E; constructor; [|constructor].
    split; [|done]. by apply String.eqb_neq.
  - destruct (is_sep c) eqn:Hc.
    + destruct (String.eqb cur "") eqn:E; [by apply IH|].
      constructor; [|by apply IH]. split; [|done]. by apply String.eqb_neq.
    + apply IH. by apply no_sep_app.
Qed.

Lemma string_app_cons c r t : String c r +:+ t = String c (r +:+ t).
Proof. reflexivity. Qed.

Lemma string_app_assoc s t u : (s +:+ t) +:+ u = s +:+ (t +:+ u).
Proof.
  induction s as [|c r IH]; [done|]. by rewrite !string_app_cons, IH.
Qed.

Lemma split_path_concat s : forall cur,
  no_sep cur = true ->
  fold_right String.append "" (split_path cur s) = cur +:+ strip_sep s.
Proof.
  induction s as [|c r IH]; intros cur Hcur; simpl.
  - destruct (String.eqb cur "") eqn:E; simpl.
    + apply String.eqb_eq in E. by subst.
    + done.
  - destruct (is_sep c) eqn:Hc.
    + destruct (String.eqb cur "") eqn:E; simpl.
      * apply String.eqb_eq in E. subst. by rewrite IH.
      * by rewrite IH.
    + rewrite IH by (by apply no_sep_app).
      by rewrite string_app_assoc.
Qed.

Lemma isObject_js_set acc k v : isObject (js_set acc k v) = isObject acc.
Proof.
  unfold js_set. destruct (String.eqb k "__proto__" && negb (owns acc k));
    [done|].
  destruct acc; try done. simpl. by destruct (array_index k).
Qed.

Lemma isObject_assign_path acc keys value :
  isObject (assign_path acc keys value) = isObject acc.
Proof.
  destruct keys as [|k [|k' rest]]; simpl; [apply isObject_js_set..|].
  destruct (inherits acc k); [done|].
  destruct (isObjectLike (js_get acc k)); apply isObject_js_set.
Qed.

(** *** Running a stage *)

Ltac run_stage :=
  unfold mbind, M_bind, mret, M_ret, await, throw, emit, resetUIControls,
    get_state, put_store; simpl.

(** *** The Error stage *)

Lemma handleError_validation inst error s :
  is_string (ERROR_VALIDATION inst) (js_get_opt error "message") = true ->
  handleError inst error s = (Ok VUndef, logged s [ConsoleError error]).
Proof. intros H. unfold handleError. run_stage. by rewrite H. Qed.

Lemma handleError_confirm inst error s :
  is_string (ERROR_VALIDATION inst) (js_get_opt error "message") = false ->
  is_string (ERROR_CONFIRM inst) (js_get_opt error "message") = true ->
  handleError inst error s =
  (Ok VUndef, logged s [ConsoleError error; ResetUIControls]).
Proof.
  intros H1 H2. unfold handleError. run_stage. rewrite H1, H2. simpl.
  unfold logged. simpl. by rewrite <- app_assoc.
Qed.

Lemma handleError_other inst error s m :
  is_string (ERROR_VALIDATION inst) (js_get_opt error "message") = false ->
  is_string (ERROR_CONFIRM inst) (js_get_opt error "message") = false ->
  cfg_getError (inst_config inst) error = Resolved m ->
  handleError inst error s =
  match inst_middleware inst "error" (decorate m error) with
  | Resolved r =>
      let result := if hasValue r then r else decorate m error in
      (Throw result,
       logged s (error_events inst error (decorate m error) result))
  | Rejected e =>
      (Throw e,
       logged s [ConsoleError error;
                 Broadcast EVENT_LIFECYCLE_AFTER
                   (obj1 "error" (decorate m error));
                 TriggerEvent "progress" EVENT_UPLOAD_STOP;
                 ResetUIControls])
  end.
Proof.
  intros H1 H2 Hm. unfold handleError. run_stage. rewrite H1, H2, Hm. simpl.
  destruct (inst_middleware inst "error" _) as [r|e]; simpl.
  - unfold error_events, logged.
    destruct (0 <? inst_messageError inst); simpl;
      by rewrite <- !app_assoc.
  - unfold logged. simpl. by rewrite <- !app_assoc.
Qed.

Lemma handleError_resolver_throws inst error s x :
  is_string (ERROR_VALIDATION inst) (js_get_opt error "message") = false ->
  is_string (ERROR_CONFIRM inst) (js_get_opt error "message") = false ->
  cfg_getError (inst_config inst) error = Rejected x ->
  handleError inst error s = (Throw x, logged s [ConsoleError error]).
Proof.
  intros H1 H2 Hx. unfold handleError. run_stage. by rewrite H1, H2, Hx.
Qed.

Lemma DEFAULT_getError_chain code status error :
  error <> VNull -> error <> VUndef ->
  DEFAULT_getError code status error =
  Resolved (first_truthy (message_candidates code status error) error).
Proof.
  intros Hn Hu. unfold DEFAULT_getError, message_candidates, js_or. simpl.
  destruct error; done.
Qed.

Lemma submit_rejected inst opts s e s' :
  pipeline inst (submitted_data inst opts s) s = (Throw e, s') ->
  submit inst opts s = handleError inst e s'.
Proof. intros H. unfold submit, catch. by rewrite H. Qed.

Lemma js_get_decorate m error : js_get (decorate m error) "message" = m.
Proof. unfold decorate. simpl. by rewrite pget_pset_eq. Qed.

(** *** Response rejection *)

Lemma handleResponse_rejects inst request response s r :
  inst_middleware inst "response"
    (VObj [("request", request); ("response", response)]) = Resolved r ->
  cfg_checkResponse (inst_config inst) (override "response" r response)
  = false ->
  handleResponse inst request response s
  = (Throw (override "response" r response), s).
Proof.
  intros Hr Hc. unfold handleResponse. run_stage. rewrite Hr. simpl.
  by rewrite Hc.
Qed.

Lemma pipeline_response inst data s0 q1 s1 q2 s2 rr s3 :
  handleBefore inst data s0 = (Ok q1, s1) ->
  handleValidation inst q1 s1 = (Ok q2, s2) ->
  handleRequest inst q2 s2 = (Ok rr, s3) ->
  pipeline inst data s0 =
  (data ← handleResponse inst (js_get rr "request") (js_get rr "response");
   handleAfter inst data) s3.
Proof.
  intros H1 H2 H3. unfold pipeline.
  unfold mbind at 1, M_bind at 1. rewrite H1.
  unfold mbind at 1, M_bind at 1. rewrite H2.
  unfold mbind at 1, M_bind at 1. by rewrite H3.
Qed.

(** *** The input collection *)

Lemma fold_push_filter {A : Type} (p : A -> bool) (l : list A) : forall acc,
  fold_left (fun acc i => if p i then acc ++ [i] else acc) l acc
  = acc ++ List.filter p l.
Proof.
  induction l as [|x r IH]; intros acc; simpl; [by rewrite app_nil_r|].
  rewrite IH. destruct (p x); [|done]. by rewrite <- app_assoc.
Qed.

Lemma fold_left_pointwise {A B : Type} (f g : A -> B -> A) (l : list B) :
  (forall a b, f a b = g a b) ->
  forall a, fold_left f l a = fold_left g l a.
Proof.
  intros Hfg. induction l as [|x r IH]; intros a; simpl; [done|].
  by rewrite Hfg, IH.
Qed.

Lemma filter_filter {A : Type} (p q : A -> bool) (l : list A) :
  List.filter p (List.filter q l) = List.filter (fun x => q x && p x) l.
Proof.
  induction l as [|x r IH]; simpl; [done|].
  destruct (q x); simpl; [destruct (p x)|]; by rewrite IH.
Qed.

Lemma queryFormInput_filter st inputs sel :
  queryFormInput st inputs sel = List.filter (selected st sel) inputs.
Proof.
  unfold queryFormInput.
  rewrite (fold_left_pointwise _
    (fun acc i => if from_option
                       (fun e => from_option (fun m => m e) true sel)
                       false (st !! i)
                  then acc ++ [i] else acc)).
  - rewrite fold_push_filter, filter_filter. simpl.
    apply List.filter_ext. intros i. unfold selected.
    by destruct (st !! i).
  - intros acc i. destruct sel as [m|], (st !! i) as [e|]; done.
Qed.

Lemma queryFormInput_In st inputs sel i :
  In i (queryFormInput st inputs sel) ->
  In i inputs /\ exists e, st !! i = Some e /\ usable e = true
                          /\ from_option (fun m => m e) true sel = true.
Proof.
  rewrite queryFormInput_filter. intros [Hi Hs]%filter_In. split; [done|].
  unfold selected in Hs. destruct (st !! i) as [e|]; [|done].
  apply andb_true_iff in Hs as [? ?]. eauto.
Qed.

(** The collection is the same when the unusable positions are left out
    of [inputs]. *)
Lemma queryFormInput_usable_only st inputs sel :
  queryFormInput st (List.filter (selected st None) inputs) sel
  = queryFormInput st inputs sel.
Proof.
  rewrite !queryFormInput_filter, filter_filter.
  apply List.filter_ext. intros i. unfold selected.
  destruct (st !! i) as [e|]; simpl; [|done].
  by destruct (usable e), (from_option (fun m => m e) true sel).
Qed.

(** *** The standard pass *)

Lemma set_disabled_same b e : el_disabled e = b -> set_disabled b e = e.
Proof. destruct e. simpl. by intros ->. Qed.

Lemma alter_enable_usable (st : store) i e :
  st !! i = Some e -> usable e = true ->
  alter (set_disabled false) i st = st.
Proof.
  intros Hi Hu. transitivity (alter id i st).
  - apply list_alter_ext; [|done].
    intros x Hx. rewrite Hi in Hx. injection Hx as <-.
    apply set_disabled_same. unfold usable in Hu.
    apply andb_true_iff in Hu as [Hd _]. by apply negb_true_iff in Hd.
  - by apply list_alter_id.
Qed.

(** The standard pass assigns [disabled = false] only to elements that
    are enabled already: it leaves the store as it found it. *)
Lemma check_fields_store st l : forall acc,
  Forall (fun i => exists e, st !! i = Some e /\ usable e = true) l ->
  (fold_left check_field l (st, acc)).1 = st.
Proof.
  induction l as [|i r IH]; intros acc Hl; simpl; [done|].
  inversion Hl as [|? ? (e & Hi & Hu) Hr]; subst. rewrite Hi.
  rewrite (alter_enable_usable st i e Hi Hu). by apply IH.
Qed.

Lemma queryFormInput_Forall_usable st inputs sel :
  Forall (fun i => exists e, st !! i = Some e /\ usable e = true)
    (queryFormInput st inputs sel).
Proof.
  apply List.Forall_forall. intros i Hi.
  apply queryFormInput_In in Hi as (_ & e & ? & ? & _). eauto.
Qed.

Lemma validate_store cfg st inputs :
  (validate cfg st inputs).1 = resolve_groups cfg st inputs.
Proof.
  unfold validate. apply check_fields_store, queryFormInput_Forall_usable.
Qed.

(** *** A validation group of two fields *)

Lemma pset_nil {A : Type} k (v : A) : pset k v [] = [(k, v)].
Proof. reflexivity. Qed.

Lemma pget_head {A : Type} k (x : A) r : pget k ((k, x) :: r) = Some x.
Proof. simpl. by rewrite String.eqb_refl. Qed.

Lemma pset_head {A : Type} k (v x : A) r :
  pset k v ((k, x) :: r) = (k, v) :: r.
Proof. unfold pset. rewrite pget_head. simpl. by rewrite String.eqb_refl. Qed.

Lemma collect_groups_pair a b g :
  usable a = true -> usable b = true ->
  el_validation a = Some g -> el_validation b = Some g ->
  el_required a = true -> el_required b = true ->
  collect_groups [a; b] [0; 1]
  = ([setCustomValidity "" a; setCustomValidity "" b], [(g, [0; 1])]).
Proof.
  intros Hua Hub Hga Hgb Hra Hrb.
  unfold collect_groups. rewrite !queryFormInput_filter.
  unfold selected, in_validation_group. simpl.
  rewrite Hua, Hub, Hga, Hgb, Hra, Hrb. simpl.
  rewrite Hga, Hgb. simpl.
  rewrite String.eqb_refl. simpl. by rewrite pset_nil, pset_head.
Qed.

Lemma resolve_groups_pair_satisfied cfg a b g :
  usable a = true -> usable b = true ->
  el_validation a = Some g -> el_validation b = Some g ->
  el_required a = true -> el_required b = true ->
  isNotBlank (el_value a) || isNotBlank (el_value b) = true ->
  resolve_groups cfg [a; b] [0; 1]
  = [(if isNotBlank (el_value a) then id else set_disabled true)
       (setCustomValidity "" a);
     (if isNotBlank (el_value b) then id else set_disabled true)
       (setCustomValidity "" b)].
Proof.
  intros Hua Hub Hga Hgb Hra Hrb Hv.
  unfold resolve_groups. rewrite (collect_groups_pair a b g) by done. simpl.
  unfold value_not_blank. simpl.
  replace (isNotBlank (el_value a) || (isNotBlank (el_value b) || false))
    with true by (by rewrite orb_false_r).
  unfold disable_blank, value_not_blank. simpl.
  destruct (isNotBlank (el_value a)); simpl;
    destruct (isNotBlank (el_value b)); done.
Qed.

Lemma resolve_groups_pair_blank cfg a b g :
  usable a = true -> usable b = true ->
  el_validation a = Some g -> el_validation b = Some g ->
  el_required a = true -> el_required b = true ->
  isNotBlank (el_value a) = false -> isNotBlank (el_value b) = false ->
  resolve_groups cfg [a; b] [0; 1]
  = [setCustomValidity (group_message cfg g) a; setCustomValidity "" b].
Proof.
  intros Hua Hub Hga Hgb Hra Hrb Hva Hvb.
  unfold resolve_groups. rewrite (collect_groups_pair a b g) by done. simpl.
  unfold value_not_blank. simpl. rewrite Hva, Hvb. simpl. by destruct a.
Qed.

Lemma not_blank_not_empty s : isNotBlank s = true -> String.eqb s "" = false.
Proof. by destruct s. Qed.

Lemma group_message_not_empty cfg g :
  g <> "" -> String.eqb (group_message cfg g) "" = false.
Proof.
  intros Hg. unfold group_message.
  destruct (String.eqb (i18n_validation cfg g) "") eqn:E; [|done].
  by apply String.eqb_neq.
Qed.

Lemma value_missing_by_value e :
  by_value e = true -> value_missing e = String.eqb (el_value e) "".
Proof.
  unfold by_value, value_missing. intros H.
  destruct (String.eqb_spec (el_type e) "checkbox") as [E|_];
    [by rewrite E in H|].
  destruct (String.eqb_spec (el_type e) "file") as [E|_];
    [by rewrite E in H|].
  destruct (String.eqb_spec (el_type e) "select-multiple") as [E|_];
    [by rewrite E in H|].
  by rewrite H, orb_true_r.
Qed.

Lemma validity_valid_custom m e :
  validity_valid (setCustomValidity m e)
  = String.eqb m "" && negb (el_required e && value_missing e)
    && negb (el_other_invalid e).
Proof. reflexivity. Qed.

(** A satisfied group of two: nothing is reported. *)
Lemma validate_pair_satisfied cfg a b g :
  usable a = true -> usable b = true ->
  by_value a = true -> by_value b = true ->
  el_validation a = Some g -> el_validation b = Some g ->
  el_required a = true -> el_required b = true ->
  el_other_invalid a = false -> el_other_invalid b = false ->
  isNotBlank (el_value a) || isNotBlank (el_value b) = true ->
  (validate cfg [a; b] [0; 1]).2 = [].
Proof.
  intros Hua Hub Hta Htb Hga Hgb Hra Hrb Hoa Hob Hv.
  assert (Hvalid : forall e, by_value e = true -> el_other_invalid e = false ->
            isNotBlank (el_value e) = true ->
            validity_valid (setCustomValidity "" e) = true).
  { intros e Ht Ho Hne. rewrite validity_valid_custom.
    rewrite (value_missing_by_value e Ht), (not_blank_not_empty _ Hne), Ho.
    by rewrite andb_false_r. }
  unfold validate.
  rewrite (resolve_groups_pair_satisfied cfg a b g) by done.
  rewrite queryFormInput_filter. unfold selected.
  destruct (isNotBlank (el_value a)) eqn:Hva,
           (isNotBlank (el_value b)) eqn:Hvb; try done; simpl;
    change (usable (setCustomValidity "" ?e)) with (usable e);
    rewrite ?Hua, ?Hub; simpl;
    rewrite ?(Hvalid a Hta Hoa Hva), ?(Hvalid b Htb Hob Hvb); reflexivity.
Qed.

(** A group of two with both members blank: the first is reported, the
    second when its value is empty. *)
Lemma validate_pair_blank cfg a b g :
  usable a = true -> usable b = true ->
  by_value a = true -> by_value b = true ->
  el_validation a = Some g -> el_validation b = Some g ->
  el_required a = true -> el_required b = true ->
  el_other_invalid a = false -> el_other_invalid b = false ->
  isNotBlank (el_value a) = false -> isNotBlank (el_value b) = false ->
  g <> "" ->
  (validate cfg [a; b] [0; 1]).2
  = (if String.eqb (el_value b) "" then set_add (el_name b) [el_name a]
     else [el_name a])
  /\ el_custom <$> (validate cfg [a; b] [0; 1]).1 !! 0
     = Some (group_message cfg g).
Proof.
  intros Hua Hub Hta Htb Hga Hgb Hra Hrb Hoa Hob Hva Hvb Hg.
  split.
  - unfold validate.
    rewrite (resolve_groups_pair_blank cfg a b g) by done.
    rewrite queryFormInput_filter. unfold selected. simpl.
    change (usable (setCustomValidity ?m ?e)) with (usable e).
    rewrite Hua, Hub. simpl. rewrite !validity_valid_custom.
    rewrite (group_message_not_empty cfg g Hg), Hrb, Hob.
    rewrite (value_missing_by_value b Htb). simpl.
    by destruct (String.eqb (el_value b) "").
  - rewrite validate_store.
    by rewrite (resolve_groups_pair_blank cfg a b g).
Qed.

(** *** Validation only ever disables *)

Lemma narrows_refl st : narrows st st.
Proof. intros i e H. eauto. Qed.

Lemma narrows_trans st1 st2 st3 :
  narrows st1 st2 -> narrows st2 st3 -> narrows st1 st3.
Proof.
  intros H12 H23 i e3 H3.
  destruct (H23 i e3 H3) as (e2 & H2 & Hn2 & Hd2).
  destruct (H12 i e2 H2) as (e1 & H1 & Hn1 & Hd1).
  exists e1. repeat split; [done|congruence|auto].
Qed.

Lemma narrows_alter (f : element -> element) i (st : list element) :
  (forall e, el_name (f e) = el_name e) ->
  (forall e, el_disabled e = true -> el_disabled (f e) = true) ->
  narrows st (alter f i st).
Proof.
  intros Hn Hd j e' H. rewrite list_lookup_alter in H.
  case_decide; [subst j|eauto].
  destruct (st !! i) as [e|] eqn:E; simpl in H; [|done].
  injection H as <-. exists e. auto.
Qed.

Lemma narrows_collect l : forall acc,
  narrows acc.1 (fold_left collect_group l acc).1.
Proof.
  induction l as [|i r IH]; intros [st groups]; simpl; [apply narrows_refl|].
  destruct (st !! i) as [e|] eqn:E; [|apply (IH (st, groups))].
  eapply narrows_trans; [|apply IH]. simpl. by apply narrows_alter.
Qed.

Lemma narrows_disable_blank l : forall st,
  narrows st (fold_left disable_blank l st).
Proof.
  induction l as [|i r IH]; intros st; simpl; [apply narrows_refl|].
  eapply narrows_trans; [|apply IH]. unfold disable_blank.
  destruct (value_not_blank st i); [apply narrows_refl|].
  by apply narrows_alter.
Qed.

Lemma narrows_resolve cfg l : forall st,
  narrows st (fold_left (resolve_group cfg) l st).
Proof.
  induction l as [|[group members] r IH]; intros st; simpl;
    [apply narrows_refl|].
  eapply narrows_trans; [|apply IH].
  destruct (existsb (value_not_blank st) members);
    [apply narrows_disable_blank|].
  destruct members; [apply narrows_refl|]. by apply narrows_alter.
Qed.

Lemma narrows_resolve_groups cfg st inputs :
  narrows st (resolve_groups cfg st inputs).
Proof.
  unfold resolve_groups, collect_groups.
  eapply narrows_trans; [|apply narrows_resolve].
  apply (narrows_collect _ (st, [])).
Qed.

Lemma selected_narrows st st' i :
  narrows st st' -> selected st' None i = true -> selected st None i = true.
Proof.
  intros Hn. unfold selected.
  destruct (st' !! i) as [e'|] eqn:E'; simpl; [|done].
  destruct (Hn i e' E') as (e & -> & Hname & Hdis). simpl.
  unfold usable. rewrite Hname, !andb_true_r.
  intros [Hd ->]%andb_true_iff. rewrite andb_true_r.
  destruct (el_disabled e); [|done]. by rewrite Hdis in Hd.
Qed.

(** *** The four readers see the usable fields only *)

Lemma collect_groups_usable_only st inputs :
  collect_groups st (List.filter (selected st None) inputs)
  = collect_groups st inputs.
Proof. unfold collect_groups. by rewrite queryFormInput_usable_only. Qed.

Lemma validate_usable_only cfg st inputs :
  validate cfg st (List.filter (selected st None) inputs)
  = validate cfg st inputs.
Proof.
  unfold validate, resolve_groups. rewrite collect_groups_usable_only.
  f_equal. rewrite !queryFormInput_filter, filter_filter.
  apply List.filter_ext_in. intros i _.
  destruct (selected (fold_left _ _ _) None i) eqn:E;
    [|by rewrite andb_false_r].
  rewrite andb_true_r.
  apply (selected_narrows st _ i (narrows_resolve_groups cfg st inputs) E).
Qed.

Lemma generateDataAndProps_usable_only cfg st inputs w withParams :
  generateDataAndProps cfg st (List.filter (selected st None) inputs)
    w withParams
  = generateDataAndProps cfg st inputs w withParams.
Proof.
  unfold generateDataAndProps, group_fields.
  by rewrite queryFormInput_usable_only.
Qed.

Lemma handleEventApplied_usable_only st inputs request response apply :
  handleEventApplied st (List.filter (selected st None) inputs)
    request response apply
  = handleEventApplied st inputs request response apply.
Proof.
  unfold handleEventApplied. apply fold_left_pointwise.
  intros acc sv. by rewrite queryFormInput_usable_only.
Qed.

Lemma In_set_add n x s : In n (set_add x s) -> n = x \/ In n s.
Proof.
  unfold set_add. destruct (existsb _ s); [auto|].
  intros [H|[H|[]]]%in_app_or; auto.
Qed.

Lemma check_fields_names st l : forall acc n,
  Forall (fun i => exists e, st !! i = Some e /\ usable e = true) l ->
  In n (fold_left check_field l (st, acc)).2 ->
  In n acc \/ exists i e, In i l /\ st !! i = Some e /\ usable e = true
                          /\ validity_valid e = false /\ el_name e = n.
Proof.
  induction l as [|i r IH]; intros acc n Hl; simpl; [auto|].
  inversion Hl as [|? ? (e & Hi & Hu) Hr]; subst. rewrite Hi.
  rewrite (alter_enable_usable st i e Hi Hu). intros Hin.
  destruct (IH _ n Hr Hin) as [Hacc|(j & e' & Hj & He' & Hu' & Hv' & Hn')].
  - destruct (validity_valid e) eqn:Hv; [auto|].
    apply In_set_add in Hacc as [->|Hacc]; [|auto].
    right. exists i, e. auto.
  - right. exists j, e'. auto.
Qed.

(** *** The side-channel merge *)

Lemma fold_left_flat_map {A B C : Type} (f : A -> C -> A) (h : B -> list C)
    (l : list B) : forall a,
  fold_left f (flat_map h l) a = fold_left (fun a x => fold_left f (h x) a) l a.
Proof.
  induction l as [|x r IH]; intros a; simpl; [done|].
  by rewrite fold_left_app, IH.
Qed.

Lemma fold_left_map {A B C : Type} (f : A -> C -> A) (h : B -> C)
    (l : list B) : forall a,
  fold_left f (map h l) a = fold_left (fun a x => f a (h x)) l a.
Proof. induction l as [|x r IH]; intros a; simpl; [done|]. by rewrite IH. Qed.

Lemma merge_as_writes w withParams
    (groups : list (string * list (string * slot))) :
  fold_left (merge_with w withParams) WITH groups
  = fold_left (fun g wr => merge_key wr.1.1 g (wr.1.2, wr.2))
      (side_writes w withParams) groups.
Proof.
  unfold side_writes. rewrite fold_left_flat_map.
  apply fold_left_pointwise. intros g nr. unfold merge_with.
  destruct (nr.2 || existsb (String.eqb nr.1) withParams); [|done].
  rewrite fold_left_flat_map. apply fold_left_pointwise. intros g' tv.
  unfold merge_bucket. rewrite fold_left_map.
  apply fold_left_pointwise. by intros g'' [k v].
Qed.

Lemma pget2_merge_key t k t' k' v
    (groups : list (string * list (string * slot))) :
  pget2 t k (merge_key t' groups (k', v))
  = if String.eqb t' t && String.eqb k' k then Some (SValue v)
    else pget2 t k groups.
Proof.
  unfold pget2, merge_key. simpl.
  destruct (String.eqb t' t) eqn:Et; simpl.
  - apply String.eqb_eq in Et as ->. rewrite pget_pset_eq.
    destruct (String.eqb k' k) eqn:Ek.
    + apply String.eqb_eq in Ek as ->. by rewrite pget_pset_eq.
    + apply String.eqb_neq in Ek. rewrite pget_pset_ne by done.
      by destruct (pget t groups).
  - apply String.eqb_neq in Et. by rewrite pget_pset_ne.
Qed.

Lemma pget2_writes t k writes : forall acc
    (groups : list (string * list (string * slot))),
  pget2 t k groups = acc ->
  pget2 t k (fold_left (fun g wr => merge_key wr.1.1 g (wr.1.2, wr.2))
               writes groups)
  = fold_left
      (fun acc wr => if String.eqb wr.1.1 t && String.eqb wr.1.2 k
                     then Some (SValue wr.2) else acc)
      writes acc.
Proof.
  induction writes as [|[[t' k'] v] r IH]; intros acc groups Hacc; simpl;
    [done|].
  apply IH. rewrite pget2_merge_key. simpl. by rewrite Hacc.
Qed.

Lemma last_write_fold t k writes (field : option slot) :
  forall o : option jsval,
  fold_left
    (fun acc wr => if String.eqb wr.1.1 t && String.eqb wr.1.2 k
                   then Some (SValue wr.2) else acc)
    writes (match o with Some v => Some (SValue v) | None => field end)
  = match fold_left
            (fun acc wr => if String.eqb wr.1.1 t && String.eqb wr.1.2 k
                           then Some wr.2 else acc)
            writes o with
    | Some v => Some (SValue v)
    | None => field
    end.
Proof.
  induction writes as [|[[t' k'] v] r IH]; intros o; simpl; [done|].
  destruct (String.eqb t' t && String.eqb k' k); [|apply IH].
  apply (IH (Some v)).
Qed.

Lemma pget_map_values {A B : Type} (f : A -> B) k (o : list (string * A)) :
  pget k (map (fun kv => (kv.1, f kv.2)) o) = f <$> pget k o.
Proof.
  induction o as [|[k' x] r IH]; simpl; [done|].
  by destruct (String.eqb k k').
Qed.

(** What a key of a bucket holds after the merge: the value of the last
    side-channel assignment to it, and the field slot only when there is
    none. *)
Lemma pget2_merge_side_channels w withParams t k
    (groups : list (string * list (string * fslot))) :
  pget2 t k (merge_side_channels w withParams groups)
  = match last_write t k (side_writes w withParams) with
    | Some v => Some (SValue v)
    | None => SField <$> pget2 t k groups
    end.
Proof.
  unfold merge_side_channels. rewrite merge_as_writes.
  erewrite pget2_writes; [|reflexivity].
  unfold last_write.
  rewrite <- (last_write_fold t k (side_writes w withParams)
                (SField <$> pget2 t k groups) None).
  f_equal. unfold pget2.
  rewrite (pget_map_values
             (fun tg => map (fun kf => (kf.1, SField kf.2)) tg) t groups).
  destruct (pget t groups) as [g|]; simpl; [|done].
  apply (pget_map_values SField).
Qed.

(** *** Keys of a property table *)

Section PropsKeys.
Context {A : Type}.
Implicit Types (o : list (string * A)) (k : string) (v : A).

Lemma preplace_keys k v o : map fst (preplace k v o) = map fst o.
Proof.
  induction o as [|[k' x] r IH]; simpl; [done|].
  destruct (String.eqb k k'); simpl; [done|]. by rewrite IH.
Qed.

Lemma In_preplace k v o k' x :
  In (k', x) (preplace k v o) -> (k' = k /\ x = v) \/ In (k', x) o.
Proof.
  induction o as [|[k2 y] r IH]; simpl; [tauto|].
  destruct (String.eqb k k2) eqn:E; simpl.
  - apply String.eqb_eq in E as <-. intros [[= <- <-]|H]; auto.
  - intros [H|H]; [auto|]. destruct (IH H); auto.
Qed.

Lemma In_pinsert ki k v o k' x :
  In (k', x) (pinsert ki k v o) -> (k' = k /\ x = v) \/ In (k', x) o.
Proof.
  induction o as [|[k2 y] r IH]; simpl.
  - intros [[= <- <-]|[]]. auto.
  - destruct (precedes ki (array_index k2)); simpl.
    + intros [[= <- <-]|H]; auto.
    + intros [H|H]; [auto|]. destruct (IH H); auto.
Qed.

Lemma In_pset k v o k' x :
  In (k', x) (pset k v o) -> (k' = k /\ x = v) \/ In (k', x) o.
Proof.
  unfold pset. destruct (pget k o); [apply In_preplace | apply In_pinsert].
Qed.

Lemma pget_In k o x : pget k o = Some x -> In (k, x) o.
Proof.
  induction o as [|[k' y] r IH]; simpl; [done|].
  destruct (String.eqb k k') eqn:E.
  - apply String.eqb_eq in E as <-. intros [= <-]. auto.
  - auto.
Qed.

Lemma pget_None_keys k o : pget k o = None -> ~ In k (map fst o).
Proof.
  induction o as [|[k' y] r IH]; simpl; [tauto|].
  destruct (String.eqb k k') eqn:E; [done|].
  apply String.eqb_neq in E. intros H [Hk|Hk]; [congruence|]. by apply IH.
Qed.

Lemma pinsert_keys_perm ki k v o x :
  In x (map fst (pinsert ki k v o)) <-> x = k \/ In x (map fst o).
Proof.
  induction o as [|[k' y] r IH]; simpl; [intuition|].
  destruct (precedes ki (array_index k')); simpl; [intuition|].
  rewrite IH. intuition.
Qed.

Lemma pinsert_NoDup ki k v o :
  ~ In k (map fst o) -> List.NoDup (map fst o) ->
  List.NoDup (map fst (pinsert ki k v o)).
Proof.
  induction o as [|[k' y] r IH]; simpl; intros Hk Hnd.
  - constructor; [tauto|constructor].
  - destruct (precedes ki (array_index k')); simpl.
    + apply List.NoDup_cons_iff. simpl. auto.
    + apply List.NoDup_cons_iff in Hnd as [Hk' Hnd].
      apply List.NoDup_cons_iff. split; [|apply IH; tauto].
      rewrite pinsert_keys_perm. intros [->|H]; tauto.
Qed.

Lemma pset_NoDup k v o :
  List.NoDup (map fst o) -> List.NoDup (map fst (pset k v o)).
Proof.
  intros Hnd. unfold pset. destruct (pget k o) eqn:E.
  - by rewrite preplace_keys.
  - apply pinsert_NoDup; [by apply pget_None_keys|done].
Qed.
End PropsKeys.

Lemma wf_groups_nil {A : Type} : @wf_groups A [].
Proof. split; constructor. Qed.

Lemma wf_groups_bucket {A : Type}
    (groups : list (string * list (string * A))) t :
  wf_groups groups -> List.NoDup (map fst (default [] (pget t groups))).
Proof.
  intros [_ Hin]. destruct (pget t groups) as [g|] eqn:E; simpl;
    [|constructor].
  apply pget_In in E. rewrite List.Forall_forall in Hin. apply (Hin _ E).
Qed.

(** Both the grouping loop and the merge loop update a table by
    [groups[t] ||= {}; groups[t][k] = x]. *)
Lemma wf_groups_pset2 {A : Type} (groups : list (string * list (string * A)))
    t k (x : A) :
  wf_groups groups ->
  wf_groups (pset t (pset k x (default [] (pget t groups))) groups).
Proof.
  intros Hwf. split.
  - apply pset_NoDup, Hwf.
  - apply List.Forall_forall. intros [t' g'] Hin.
    apply In_pset in Hin as [[-> ->]|Hin]; simpl.
    + by apply pset_NoDup, wf_groups_bucket.
    + destruct Hwf as [_ Hall]. rewrite List.Forall_forall in Hall.
      apply (Hall _ Hin).
Qed.

Lemma wf_group_fields st inputs : wf_groups (group_fields st inputs).
Proof.
  unfold group_fields.
  generalize (queryFormInput st inputs None) as l.
  assert (H : forall l groups, wf_groups groups ->
                wf_groups (fold_left (group_field st) l groups)).
  { induction l as [|i r IH]; intros groups Hwf; simpl; [done|].
    apply IH. unfold group_field. destruct (st !! i) as [e|]; [|done].
    destruct (endsWith_brackets (el_name e)) as [exist_ value].
    destruct (bool_decide _ || exist_); by apply wf_groups_pset2. }
  intros l. apply H, wf_groups_nil.
Qed.

Lemma wf_merge_side_channels w withParams
    (groups : list (string * list (string * fslot))) :
  wf_groups groups -> wf_groups (merge_side_channels w withParams groups).
Proof.
  intros [Hout Hin]. unfold merge_side_channels. rewrite merge_as_writes.
  generalize (side_writes w withParams) as writes.
  assert (H : forall writes (g : list (string * list (string * slot))),
             wf_groups g ->
             wf_groups (fold_left
                          (fun g wr => merge_key wr.1.1 g (wr.1.2, wr.2))
                          writes g)).
  { induction writes as [|[[t k] v] r IH]; intros g Hwf; simpl; [done|].
    apply IH. unfold merge_key. simpl. by apply wf_groups_pset2. }
  intros writes. apply H. split.
  - by rewrite map_map.
  - apply Forall_map. simpl. apply (Forall_impl _ _ _ Hin).
    intros [t g] Hg. simpl in *. by rewrite map_map.
Qed.

(** *** The final write *)

Lemma js_get_js_set_ne acc k k' v :
  isObject acc = true -> k <> k' ->
  js_get (js_set acc k' v) k = js_get acc k.
Proof.
  intros Hacc Hne. unfold js_set.
  destruct (String.eqb k' "__proto__" && negb (owns acc k')); [done|].
  destruct acc; try done. simpl. by rewrite pget_pset_ne.
Qed.

Lemma assign_path_top acc keys value :
  (exists x, assign_path acc keys value
             = js_set acc (default "undefined" (head keys)) x)
  \/ assign_path acc keys value = acc.
Proof.
  destruct keys as [|k [|k' rest]]; simpl; eauto.
  destruct (inherits acc k); [by right|].
  destruct (isObjectLike (js_get acc k)); eauto.
Qed.

Lemma isObject_setNestedValue obj name value :
  isObject (setNestedValue obj name value) = isObject obj.
Proof.
  unfold setNestedValue.
  destruct (negb (hasValue value) || negb (isObject obj)); [done|].
  apply isObject_assign_path.
Qed.

Lemma setNestedValue_other obj name value k :
  isObject obj = true -> first_segment name <> k ->
  js_get (setNestedValue obj name value) k = js_get obj k.
Proof.
  intros Hobj Hk. unfold setNestedValue.
  destruct (negb (hasValue value) || negb (isObject obj)); [done|].
  destruct (assign_path_top obj (path_of name) value) as [[x ->]| ->];
    [|done].
  apply js_get_js_set_ne; [done|]. intros ->. by apply Hk.
Qed.

Lemma setNestedValue_plain obj k value :
  isObject obj = true -> path_of k = [k] -> k <> "__proto__" ->
  hasValue value = true ->
  js_get (setNestedValue obj k value) k = value.
Proof.
  intros Hobj Hp Hk Hv. unfold setNestedValue. rewrite Hv, Hobj, Hp. simpl.
  apply js_get_js_set_eq; [by destruct obj|done].
Qed.

Lemma isObject_write_keys cfg st g : forall obj,
  isObject (fold_left (write_key cfg st) g obj) = isObject obj.
Proof.
  induction g as [|[k s] r IH]; intros obj; simpl; [done|].
  rewrite IH. apply isObject_setNestedValue.
Qed.

Lemma write_keys_other cfg st g k : forall obj,
  isObject obj = true ->
  (forall k' s, In (k', s) g -> first_segment k' <> k) ->
  js_get (fold_left (write_key cfg st) g obj) k = js_get obj k.
Proof.
  induction g as [|[k' s] r IH]; intros obj Hobj Hg; simpl; [done|].
  rewrite IH.
  - apply setNestedValue_other; [done|]. apply (Hg k' s). by left.
  - unfold write_key. by rewrite isObject_setNestedValue.
  - intros k2 s2 Hin. apply (Hg k2 s2). by right.
Qed.

(** In a bucket whose keys are distinct, the key [k] ends up with the
    value computed for its slot when no other key of the bucket writes
    under the same top-level segment. *)
Lemma write_keys_sole cfg st g k s : forall obj,
  isObject obj = true -> List.NoDup (map fst g) -> In (k, s) g ->
  path_of k = [k] -> k <> "__proto__" ->
  (forall k' s', In (k', s') g -> k' <> k -> first_segment k' <> k) ->
  js_get (fold_left (write_key cfg st) g obj) k
  = if hasValue (slot_value cfg st s) then slot_value cfg st s
    else js_get obj k.
Proof.
  induction g as [|[k1 s1] r IH]; intros obj Hobj Hnd Hin Hp Hproto Hsole;
    simpl; [done|].
  apply List.NoDup_cons_iff in Hnd as [Hk1 Hnd]. simpl in Hk1.
  destruct (String.eqb k1 k) eqn:E.
  - apply String.eqb_eq in E as ->.
    assert (s1 = s) as ->.
    { destruct Hin as [[= ->]|Hin]; [done|].
      destruct Hk1. apply (in_map fst) in Hin. exact Hin. }
    rewrite write_keys_other.
    + unfold write_key. simpl.
      destruct (hasValue (slot_value cfg st s)) eqn:Hv.
      * by apply setNestedValue_plain.
      * unfold setNestedValue. by rewrite Hv.
    + unfold write_key. by rewrite isObject_setNestedValue.
    + intros k' s' Hin'. apply (Hsole k' s'); [by right|].
      intros ->. apply Hk1. apply (in_map fst) in Hin'. exact Hin'.
  - apply String.eqb_neq in E.
    destruct Hin as [[= -> ->]|Hin]; [done|].
    rewrite IH; try done.
    + replace (js_get (write_key cfg st obj (k1, s1)) k) with (js_get obj k);
        [done|].
      unfold write_key. simpl. symmetry.
      apply setNestedValue_other; [done|].
      apply (Hsole k1 s1); [by left|done].
    + unfold write_key. by rewrite isObject_setNestedValue.
    + intros k' s' Hin'. apply (Hsole k' s'). by right.
Qed.

Lemma write_buckets_absent cfg st groups t : forall result,
  ~ In t (map fst groups) ->
  pget t (fold_left (write_bucket cfg st) groups result) = pget t result.
Proof.
  induction groups as [|[t1 g1] r IH]; intros result Ht; simpl; [done|].
  simpl in Ht. rewrite IH by tauto. unfold write_bucket. simpl.
  apply pget_pset_ne. intros ->. tauto.
Qed.

Lemma write_buckets_lookup cfg st groups t g : forall result,
  List.NoDup (map fst groups) -> pget t groups = Some g ->
  pget t (fold_left (write_bucket cfg st) groups result)
  = Some (fold_left (write_key cfg st) g
            (default (VObj []) (pget t result))).
Proof.
  induction groups as [|[t1 g1] r IH]; intros result Hnd Hg; simpl; [done|].
  apply List.NoDup_cons_iff in Hnd as [Ht1 Hnd]. simpl in Hg, Ht1.
  destruct (String.eqb t t1) eqn:E.
  - apply String.eqb_eq in E as ->. injection Hg as ->.
    rewrite write_buckets_absent by done.
    unfold write_bucket. simpl. apply pget_pset_eq.
  - apply String.eqb_neq in E. rewrite (IH _ Hnd Hg).
    unfold write_bucket. simpl. by rewrite pget_pset_ne.
Qed.

Lemma js_get_deepFilterArrays_obj props k :
  js_get (deepFilterArrays (VObj props)) k
  = deepFilterArrays (js_get (VObj props) k).
Proof.
  rewrite deepFilterArrays_obj. simpl.
  rewrite (pget_map_values deepFilterArrays).
  by destruct (pget k props).
Qed.

(** *** What the readers depend on *)

Lemma fold_left_pointwise_in {A B : Type} (f g : A -> B -> A) (l : list B) :
  (forall a b, In b l -> f a b = g a b) ->
  forall a, fold_left f l a = fold_left g l a.
Proof.
  induction l as [|x r IH]; intros Hfg a; simpl; [done|].
  rewrite Hfg by (by left). apply IH. intros a' b Hb. apply Hfg. by right.
Qed.

Lemma queryFormInput_agree (st st' : list element) inputs sel :
  (forall i, In i inputs -> st !! i = st' !! i) ->
  queryFormInput st inputs sel = queryFormInput st' inputs sel.
Proof.
  intros H. rewrite !queryFormInput_filter. apply List.filter_ext_in.
  intros i Hi. unfold selected. by rewrite (H i Hi).
Qed.

Lemma ids_in_pset2 {A : Type} (ids : A -> list nat) (Q : nat -> Prop)
    (groups : list (string * list (string * A))) t k x :
  ids_in ids Q groups -> (forall i, In i (ids x) -> Q i) ->
  ids_in ids Q (pset t (pset k x (default [] (pget t groups))) groups).
Proof.
  intros Hg Hx t' g' k' s i Ht Hk Hi.
  apply In_pset in Ht as [[-> ->]|Ht]; [|by eapply Hg].
  apply In_pset in Hk as [[-> ->]|Hk]; [by apply Hx|].
  destruct (pget t groups) as [g|] eqn:E; simpl in Hk; [|done].
  apply pget_In in E. by eapply Hg.
Qed.

Lemma ids_in_group_fields st inputs :
  ids_in fslot_ids (fun i => In i (queryFormInput st inputs None))
    (group_fields st inputs).
Proof.
  unfold group_fields.
  generalize (queryFormInput st inputs None) as l. intros l.
  assert (H : forall r groups,
             (forall i, In i r -> In i l) ->
             ids_in fslot_ids (fun i => In i l) groups ->
             ids_in fslot_ids (fun i => In i l)
               (fold_left (group_field st) r groups)).
  { induction r as [|i r IH]; intros groups Hr Hg; simpl; [done|].
    apply IH; [intros j Hj; apply Hr; by right|].
    unfold group_field. destruct (st !! i) as [e|]; [|done].
    destruct (endsWith_brackets (el_name e)) as [exist_ value].
    assert (Hi : In i l) by (apply Hr; by left).
    destruct (bool_decide _ || exist_); apply ids_in_pset2; try done.
    - intros j Hj.
      destruct (pget value (default [] (pget (bucket_of e) groups)))
        as [[j'|l']|] eqn:E; simpl in Hj.
      + destruct Hj as [<-|[<-|[]]]; [|done].
        destruct (pget (bucket_of e) groups) as [g|] eqn:Eg; simpl in E;
          [|done].
        apply (Hg _ g value (FOne j') j' (pget_In _ _ _ Eg) (pget_In _ _ _ E)).
        by left.
      + apply in_app_or in Hj as [Hj|[<-|[]]]; [|done].
        destruct (pget (bucket_of e) groups) as [g|] eqn:Eg; simpl in E;
          [|done].
        by apply (Hg _ g value (FMany l') j (pget_In _ _ _ Eg)
                    (pget_In _ _ _ E)).
      + by destruct Hj as [<-|[]].
    - intros j [<-|[]]. done. }
  apply H; [done|]. intros t g k s i [].
Qed.

Lemma ids_in_merge_side_channels w withParams Q
    (groups : list (string * list (string * fslot))) :
  ids_in fslot_ids Q groups ->
  ids_in slot_ids Q (merge_side_channels w withParams groups).
Proof.
  intros Hg. unfold merge_side_channels. rewrite merge_as_writes.
  generalize (side_writes w withParams) as writes.
  assert (H : forall writes (g : list (string * list (string * slot))),
             ids_in slot_ids Q g ->
             ids_in slot_ids Q
               (fold_left (fun g wr => merge_key wr.1.1 g (wr.1.2, wr.2))
                  writes g)).
  { induction writes as [|[[t k] v] r IH]; intros g Hin; simpl; [done|].
    apply IH. unfold merge_key. simpl. apply ids_in_pset2; [done|].
    intros i []. }
  intros writes. apply H.
  intros t g k s i Ht Hk Hi.
  apply in_map_iff in Ht as ([t0 g0] & [= <- <-] & Ht).
  apply in_map_iff in Hk as ([k0 f0] & [= <- <-] & Hk).
  by apply (Hg t0 g0 k0 f0 i).
Qed.

Lemma flat_map_pointwise_in {A B : Type} (f g : A -> list B) (l : list A) :
  (forall x, In x l -> f x = g x) -> flat_map f l = flat_map g l.
Proof.
  induction l as [|x r IH]; intros H; simpl; [done|].
  rewrite (H x) by (by left). f_equal. apply IH. intros y Hy. apply H.
  by right.
Qed.

Lemma slot_value_agree cfg (st st' : list element) s :
  (forall i, In i (slot_ids s) -> st !! i = st' !! i) ->
  slot_value cfg st s = slot_value cfg st' s.
Proof.
  destruct s as [[i|l]|v]; simpl; intros H; [| |done].
  - unfold field_value. rewrite (H i); [done|by left].
  - assert (Hfirst : first_is_radio st l = first_is_radio st' l).
    { destruct l as [|i r]; simpl; [done|]. rewrite (H i); [done|by left]. }
    assert (Hvals : flat_map (fun i => splice (field_value cfg st i)) l
                    = flat_map (fun i => splice (field_value cfg st' i)) l).
    { apply flat_map_pointwise_in. intros i Hi. unfold field_value.
      by rewrite (H i Hi). }
    by rewrite Hfirst, Hvals.
Qed.

Lemma write_groups_agree cfg (st st' : list element)
    (groups : list (string * list (string * slot))) :
  ids_in slot_ids (fun i => st !! i = st' !! i) groups ->
  write_groups cfg st groups = write_groups cfg st' groups.
Proof.
  intros Hg. unfold write_groups. f_equal.
  apply fold_left_pointwise_in. intros result [t g] Ht.
  unfold write_bucket. simpl. f_equal.
  apply fold_left_pointwise_in. intros obj [k s] Hk.
  unfold write_key. simpl. f_equal.
  apply slot_value_agree. intros i Hi. by apply (Hg t g k s i).
Qed.

Lemma ids_in_weaken {A : Type} (ids : A -> list nat) (Q Q' : nat -> Prop)
    (groups : list (string * list (string * A))) :
  (forall i, Q i -> Q' i) -> ids_in ids Q groups -> ids_in ids Q' groups.
Proof. intros HQ Hg t g k s i Ht Hk Hi. eapply HQ, Hg; eauto. Qed.

Lemma group_fields_agree (st st' : list element) inputs :
  (forall i, In i inputs -> st !! i = st' !! i) ->
  group_fields st inputs = group_fields st' inputs.
Proof.
  intros H. unfold group_fields.
  rewrite <- (queryFormInput_agree st st') by done.
  apply fold_left_pointwise_in. intros groups i Hi.
  apply queryFormInput_In in Hi as [Hi _].
  unfold group_field. by rewrite (H i Hi).
Qed.

Lemma generateDataAndProps_agree cfg (st st' : list element) inputs w
    withParams :
  (forall i, In i inputs -> st !! i = st' !! i) ->
  generateDataAndProps cfg st inputs w withParams
  = generateDataAndProps cfg st' inputs w withParams.
Proof.
  intros H. unfold generateDataAndProps.
  rewrite <- (group_fields_agree st st') by done. f_equal.
  apply write_groups_agree, ids_in_merge_side_channels.
  eapply ids_in_weaken; [|apply ids_in_group_fields].
  intros i Hi. apply queryFormInput_In in Hi as [Hi _]. by apply H.
Qed.

Lemma handleEventApplied_agree (st st' : list element) inputs request
    response apply :
  (forall i, In i inputs -> st !! i = st' !! i) ->
  handleEventApplied st inputs request response apply
  = handleEventApplied st' inputs request response apply.
Proof.
  intros H. unfold handleEventApplied. apply fold_left_pointwise.
  intros acc sv. rewrite <- (queryFormInput_agree st st') by done.
  apply fold_left_pointwise_in. intros a i Hi.
  apply queryFormInput_In in Hi as [Hi _].
  unfold apply_to_field. by rewrite (H i Hi).
Qed.

(** *** The blank members of a satisfied group *)

Lemma core_alter (f : element -> element) i (st : list element) :
  (forall e, core (f e) = core e) ->
  core <$> alter f i st = core <$> st.
Proof.
  intros Hf. rewrite (list_fmap_alter core f id).
  - by apply list_alter_id.
  - apply Forall_true. intros e. by rewrite Hf.
Qed.

Lemma core_lookup (st cur : list element) i e :
  core <$> cur = core <$> st -> st !! i = Some e ->
  exists e', cur !! i = Some e' /\ core e' = core e.
Proof.
  intros Hc Hi.
  assert (H : (core <$> cur) !! i = Some (core e)).
  { rewrite Hc, list_lookup_fmap, Hi. done. }
  rewrite list_lookup_fmap in H.
  destruct (cur !! i) as [e'|]; [|done]. simpl in H.
  exists e'. split; [done|congruence].
Qed.

Lemma core_value e e' : core e' = core e -> el_value e' = el_value e.
Proof. destruct e, e'. by intros [= ]. Qed.

Lemma core_validation e e' :
  core e' = core e -> el_validation e' = el_validation e.
Proof. destruct e, e'. by intros [= ]. Qed.

Lemma value_not_blank_core (st cur : list element) i :
  core <$> cur = core <$> st ->
  value_not_blank cur i = value_not_blank st i.
Proof.
  intros Hc. unfold value_not_blank.
  destruct (st !! i) as [e|] eqn:E.
  - destruct (core_lookup st cur i e Hc E) as (e' & -> & He'). simpl.
    by rewrite (core_value _ _ He').
  - assert (H : (core <$> cur) !! i = None)
      by (by rewrite Hc, list_lookup_fmap, E).
    rewrite list_lookup_fmap in H. by destruct (cur !! i).
Qed.

(** The grouping reduce: every grouped field ends up in its group. *)
Lemma collect_members (st : list element) l : forall cur groups,
  core <$> cur = core <$> st ->
  core <$> (fold_left collect_group l (cur, groups)).1 = core <$> st
  /\ (forall g members, pget g groups = Some members ->
        exists members',
          pget g (fold_left collect_group l (cur, groups)).2 = Some members'
          /\ incl members members')
  /\ (forall x e g, In x l -> st !! x = Some e -> el_validation e = Some g ->
        exists members,
          pget g (fold_left collect_group l (cur, groups)).2 = Some members
          /\ In x members).
Proof.
  induction l as [|y r IH]; intros cur groups Hc; simpl.
  - split; [done|]. split; [|intros x e g []].
    intros g members Hg. exists members. split; [done|apply incl_refl].
  - destruct (cur !! y) as [ey|] eqn:Ey.
    + set (gy := default "" (el_validation ey)).
      set (groups' := pset gy (default [] (pget gy groups) ++ [y]) groups).
      assert (Hc' : core <$> alter (setCustomValidity "") y cur = core <$> st).
      { by rewrite core_alter. }
      destruct (IH (alter (setCustomValidity "") y cur) groups' Hc')
        as (H1 & H2 & H3).
      split; [exact H1|]. split.
      * intros g members Hg.
        destruct (String.eqb g gy) eqn:E.
        -- apply String.eqb_eq in E as ->.
           destruct (H2 gy (members ++ [y])) as (m' & Hm' & Hincl).
           { unfold groups'. by rewrite pget_pset_eq, Hg. }
           exists m'. split; [done|].
           intros z Hz. apply Hincl, in_or_app. by left.
        -- apply String.eqb_neq in E. apply H2. unfold groups'.
           by rewrite pget_pset_ne.
      * intros x e g [->|Hx] He Hg; [|by eapply H3].
        destruct (core_lookup st cur x e Hc He) as (e' & He' & Hcore).
        rewrite Ey in He'. injection He' as <-.
        assert (gy = g) as <-.
        { unfold gy. by rewrite (core_validation _ _ Hcore), Hg. }
        destruct (H2 gy (default [] (pget gy groups) ++ [x]))
          as (m' & Hm' & Hincl).
        { unfold groups'. by rewrite pget_pset_eq. }
        exists m'. split; [done|]. apply Hincl, in_or_app. right. by left.
    + destruct (IH cur groups Hc) as (H1 & H2 & H3).
      split; [exact H1|]. split; [exact H2|].
      intros x e g [->|Hx] He Hg; [|by eapply H3].
      destruct (core_lookup st cur x e Hc He) as (e' & He' & _).
      by rewrite Ey in He'.
Qed.

Lemma core_disable_blank l : forall cur : list element,
  core <$> fold_left disable_blank l cur = core <$> cur.
Proof.
  induction l as [|x r IH]; intros cur; simpl; [done|].
  rewrite IH. unfold disable_blank.
  destruct (value_not_blank cur x); [done|]. by apply core_alter.
Qed.

Lemma core_resolve_group cfg (cur : list element) gi :
  core <$> resolve_group cfg cur gi = core <$> cur.
Proof.
  destruct gi as [g members]. simpl.
  destruct (existsb (value_not_blank cur) members);
    [apply core_disable_blank|].
  destruct members; [done|]. by apply core_alter.
Qed.

Lemma core_resolve cfg l : forall cur : list element,
  core <$> fold_left (resolve_group cfg) l cur = core <$> cur.
Proof.
  induction l as [|gi r IH]; intros cur; simpl; [done|].
  by rewrite IH, core_resolve_group.
Qed.

Lemma stays_disabled (st a b : list element) i e :
  narrows a b -> core <$> b = core <$> st -> st !! i = Some e ->
  el_disabled <$> a !! i = Some true ->
  el_disabled <$> b !! i = Some true.
Proof.
  intros Hn Hc Hi Ha.
  destruct (core_lookup st b i e Hc Hi) as (eb & Hb & _).
  destruct (Hn i eb Hb) as (ea & Hea & _ & Hd).
  rewrite Hea in Ha. simpl in Ha. rewrite Hb. simpl. f_equal.
  apply Hd. congruence.
Qed.

Lemma disable_blank_member (st : list element) i e members :
  forall cur : list element,
  core <$> cur = core <$> st -> In i members -> st !! i = Some e ->
  isNotBlank (el_value e) = false ->
  el_disabled <$> fold_left disable_blank members cur !! i = Some true.
Proof.
  induction members as [|x r IH]; intros cur Hc Hin Hi Hv; [done|].
  simpl. destruct (Nat.eq_dec x i) as [->|Hne].
  - apply (stays_disabled st (disable_blank cur i) _ i e);
      [apply narrows_disable_blank| |done|].
    + rewrite core_disable_blank. unfold disable_blank.
      destruct (value_not_blank cur i); [done|]. by rewrite core_alter.
    + unfold disable_blank.
      rewrite (value_not_blank_core st cur i Hc). unfold value_not_blank.
      rewrite Hi. simpl. rewrite Hv.
      destruct (core_lookup st cur i e Hc Hi) as (e' & He' & _).
      by rewrite list_lookup_alter_eq, He'.
  - apply IH; [|by destruct Hin|done..].
    unfold disable_blank. destruct (value_not_blank cur x); [done|].
    by rewrite core_alter.
Qed.

Lemma resolve_member cfg (st : list element) g members i j e ej groups :
  forall cur : list element,
  core <$> cur = core <$> st ->
  In (g, members) groups -> In i members -> In j members ->
  st !! i = Some e -> isNotBlank (el_value e) = false ->
  st !! j = Some ej -> isNotBlank (el_value ej) = true ->
  el_disabled <$> fold_left (resolve_group cfg) groups cur !! i = Some true.
Proof.
  induction groups as [|[g1 m1] r IH];
    intros cur Hc Hg Hi Hj Hei Hvi Hej Hvj; [done|].
  simpl fold_left. destruct Hg as [[= -> ->]|Hg].
  - apply (stays_disabled st (resolve_group cfg cur (g, members)) _ i e);
      [apply narrows_resolve| |done|].
    + rewrite core_resolve.
      etransitivity; [apply (core_resolve_group cfg cur (g, members))|done].
    + simpl.
      assert (Hex : existsb (value_not_blank cur) members = true).
      { apply existsb_exists. exists j. split; [done|].
        rewrite (value_not_blank_core st cur j Hc). unfold value_not_blank.
        by rewrite Hej. }
      rewrite Hex. by apply (disable_blank_member st i e).
  - apply IH; try done.
    etransitivity; [apply (core_resolve_group cfg cur (g1, m1))|done].
Qed.

(** Every blank member of a satisfied group is disabled when [validate]
    returns. *)
Lemma validate_disables_blank_member cfg (st : list element) inputs i j e ej g :
  In i inputs -> st !! i = Some e -> usable e = true ->
  el_required e = true -> el_validation e = Some g ->
  isNotBlank (el_value e) = false ->
  In j inputs -> st !! j = Some ej -> usable ej = true ->
  el_required ej = true -> el_validation ej = Some g ->
  isNotBlank (el_value ej) = true ->
  el_disabled <$> (validate cfg st inputs).1 !! i = Some true.
Proof.
  intros Hi He Hu Hr Hg Hv Hj Hej Huj Hrj Hgj Hvj.
  rewrite validate_store. unfold resolve_groups, collect_groups.
  set (l := queryFormInput st inputs (Some in_validation_group)).
  assert (Hl : forall x ex, In x inputs -> st !! x = Some ex ->
                 usable ex = true -> el_required ex = true ->
                 el_validation ex = Some g -> In x l).
  { intros x ex Hx Hex Hux Hrx Hgx. unfold l.
    rewrite queryFormInput_filter. apply filter_In. split; [done|].
    unfold selected, in_validation_group. rewrite Hex. simpl.
    by rewrite Hux, Hgx, Hrx. }
  destruct (collect_members st l st [] eq_refl) as (Hc & _ & Hm).
  destruct (Hm i e g (Hl i e Hi He Hu Hr Hg) He Hg) as (mi & Hmi & Hini).
  destruct (Hm j ej g (Hl j ej Hj Hej Huj Hrj Hgj) Hej Hgj)
    as (mj & Hmj & Hinj).
  rewrite Hmi in Hmj. injection Hmj as <-.
  apply (resolve_member cfg st g mi i j e ej); try done.
  by apply pget_In.
Qed.

(** *** Ordinary names *)



(** *** The captured query string *)

Lemma getAll_In key query v :
  In (key, v) query -> In v (getAll key query).
Proof.
  intros H. unfold getAll. apply in_map_iff. exists (key, v).
  split; [done|]. apply filter_In. split; [done|]. apply String.eqb_refl.
Qed.

Lemma getAll_nil key query :
  getAll key query = [] <-> ~ In key (map fst query).
Proof.
  unfold getAll. induction query as [|[k v] r IH]; simpl; [tauto|].
  destruct (String.eqb k key) eqn:E; simpl.
  - apply String.eqb_eq in E. split; [done|]. intros H. destruct H. by left.
  - apply String.eqb_neq in E. rewrite IH. tauto.
Qed.

Lemma getAll_single key query v :
  In (key, v) query -> length (getAll key query) <= 1 ->
  getAll key query = [v].
Proof.
  intros Hin Hlen. apply (getAll_In key query v) in Hin.
  destruct (getAll key query) as [|x [|y r]]; simpl in *; [done| |lia].
  by destruct Hin as [->|[]].
Qed.

Lemma query_step_thrown query l :
  fold_left (query_step query) l None = None.
Proof. induction l; auto. Qed.

(** While the fold has not thrown, the table holds the parameters seen
    so far, each with all its values, and no key named [__proto__]. *)
Lemma getQuerystring_fold query l : forall seen d d',
  fold_left (query_step query) l (Some d) = Some d' ->
  (forall k v, In (k, v) l -> In (k, v) query) ->
  (forall key, pget key d =
     if existsb (String.eqb key) seen && negb (String.eqb key "__proto__")
     then captured (getAll key query) else None) ->
  forall key, pget key d' =
    if existsb (String.eqb key) (seen ++ map fst l)
       && negb (String.eqb key "__proto__")
    then captured (getAll key query) else None.
Proof.
  induction l as [|[k v] r IH]; intros seen d d' Hfold Hsub Hd key.
  - simpl in Hfold. injection Hfold as <-. by rewrite app_nil_r.
  - simpl in Hfold.
    destruct (bool_decide (is_Some (pget "hasOwnProperty" d))) eqn:Eh.
    { by rewrite query_step_thrown in Hfold. }
    assert (Hstep : forall d1,
              fold_left (query_step query) r (Some d1) = Some d' ->
              (forall key, pget key d1 =
                 if existsb (String.eqb key) (seen ++ [k])
                    && negb (String.eqb key "__proto__")
                 then captured (getAll key query) else None) ->
              pget key d' =
              if existsb (String.eqb key) (seen ++ map fst ((k, v) :: r))
                 && negb (String.eqb key "__proto__")
              then captured (getAll key query) else None).
    { intros d1 Hf1 Hd1.
      rewrite (IH (seen ++ [k]) d1 d' Hf1).
      - simpl. by rewrite <- app_assoc.
      - intros k0 v0 H0. apply Hsub. by right.
      - exact Hd1. }
    assert (Hkq : In (k, v) query) by (apply Hsub; by left).
    assert (Hmem : forall key0,
              existsb (String.eqb key0) (seen ++ [k]) =
              existsb (String.eqb key0) seen || String.eqb key0 k).
    { intros key0. rewrite existsb_app. simpl. by rewrite orb_false_r. }
    destruct (bool_decide (is_Some (pget k d))) eqn:Ek.
    + apply Hstep with d; [done|]. intros key0. rewrite Hmem, Hd.
      destruct (String.eqb key0 k) eqn:E; [|by rewrite orb_false_r].
      apply String.eqb_eq in E as ->. rewrite orb_true_r.
      apply bool_decide_eq_true in Ek. rewrite Hd in Ek.
      destruct (existsb (String.eqb k) seen); [done|]. simpl in Ek.
      by destruct Ek.
    + apply bool_decide_eq_false in Ek.
      destruct (String.eqb k "__proto__") eqn:Ep.
      * apply String.eqb_eq in Ep as ->.
        apply Hstep with d; [done|]. intros key0. rewrite Hmem, Hd.
        destruct (String.eqb key0 "__proto__"); simpl;
          by rewrite ?andb_false_r, ?orb_false_r.
      * apply Hstep with
          (pset k (if 1 <? length (getAll k query)
                   then VArr (map VStr (getAll k query)) []
                   else VStr v) d); [done|].
        intros key0. rewrite Hmem.
        destruct (String.eqb key0 k) eqn:E.
        -- apply String.eqb_eq in E as ->.
           rewrite pget_pset_eq, orb_true_r, Ep. simpl.
           destruct (1 <? length (getAll k query)) eqn:El.
           ++ apply Nat.ltb_lt in El.
              by destruct (getAll k query) as [|x [|y t]]; simpl in *;
                try lia.
           ++ apply Nat.ltb_ge in El.
              by rewrite (getAll_single k query v Hkq El).
        -- apply String.eqb_neq in E.
           rewrite pget_pset_ne by done. by rewrite Hd, orb_false_r.
Qed.

Lemma query_step_shadowed query l d :
  l <> [] -> is_Some (pget "hasOwnProperty" d) ->
  fold_left (query_step query) l (Some d) = None.
Proof.
  destruct l as [|kv r]; [done|]. intros _ Hd. simpl.
  rewrite bool_decide_eq_true_2 by done. apply query_step_thrown.
Qed.

Lemma removelast_cons {A : Type} (x : A) (r : list A) :
  r <> [] -> removelast (x :: r) = x :: removelast r.
Proof. by destruct r. Qed.

Lemma getQuerystring_throws_fold query l : forall d,
  ~ is_Some (pget "hasOwnProperty" d) ->
  fold_left (query_step query) l (Some d) = None
  <-> In "hasOwnProperty" (map fst (removelast l)).
Proof.
  induction l as [|[k v] r IH]; intros d Hd; [simpl; split; [done|tauto]|].
  change (fold_left (query_step query) ((k, v) :: r) (Some d))
    with (fold_left (query_step query) r (query_step query (Some d) (k, v))).
  unfold query_step at 2. simpl fst. simpl snd.
  rewrite bool_decide_eq_false_2 by done.
  destruct (String.eqb k "hasOwnProperty") eqn:Ek.
  - apply String.eqb_eq in Ek as ->.
    rewrite bool_decide_eq_false_2 by done. simpl.
    destruct r as [|kv r]; [split; [intros [=]|intros []]|].
    split; [intros _; by left|intros _].
    apply query_step_shadowed; [done|]. by rewrite pget_pset_eq.
  - apply String.eqb_neq in Ek.
    assert (Hrest : forall d1, ~ is_Some (pget "hasOwnProperty" d1) ->
              fold_left (query_step query) r (Some d1) = None
              <-> In "hasOwnProperty" (map fst (removelast ((k, v) :: r)))).
    { intros d1 Hd1. rewrite (IH d1 Hd1).
      destruct r as [|kv r]; [simpl; tauto|].
      rewrite (removelast_cons (k, v) (kv :: r)) by done.
      simpl. intuition. }
    destruct (bool_decide (is_Some (pget k d))); [by apply Hrest|].
    destruct (String.eqb k "__proto__"); [by apply Hrest|].
    apply Hrest. rewrite pget_pset_ne; [done|]. by intros <-.
Qed.

(** *** Running the stages *)

Lemma handleBefore_run inst request s rb :
  inst_middleware inst "before" (obj1 "request" request) = Resolved rb ->
  handleBefore inst request s =
  (Ok (override "request" rb request),
   logged s [Broadcast EVENT_LIFECYCLE_BEFORE
               (obj1 "request" (override "request" rb request));
             ResetUIControls;
             SuccessHandlerCall "before"
               (obj1 "request" (override "request" rb request))]).
Proof.
  intros H. unfold handleBefore. run_stage. rewrite H. simpl.
  unfold logged. simpl. by rewrite <- !app_assoc.
Qed.

Lemma handleValidation_run inst request s rv :
  inst_middleware inst "validation"
    (validation_payload request
       (validate (inst_config inst) (st_store s) (inst_inputs inst)).2)
  = Resolved rv ->
  handleValidation inst request s =
  if 0 <? length (validation_names rv
                    (validate (inst_config inst) (st_store s)
                       (inst_inputs inst)).2)
  then (Throw (VHost (HError (ERROR_VALIDATION inst)) []),
        State (validate (inst_config inst) (st_store s) (inst_inputs inst)).1
          (st_with s)
          (st_log s ++ [ReportValidity;
                        Broadcast EVENT_LIFECYCLE_INVALID VUndef;
                        ShowElements "messageValidation"]))
  else (Ok request,
        State (validate (inst_config inst) (st_store s) (inst_inputs inst)).1
          (st_with s) (st_log s)).
Proof.
  intros Hrv. unfold handleValidation, validation_names, validation_payload in *.
  unfold mbind at 1, M_bind at 1. unfold get_state.
  destruct (validate (inst_config inst) (st_store s) (inst_inputs inst))
    as [st1 v1] eqn:Ev.
  simpl in *. run_stage. rewrite Hrv. simpl.
  destruct (0 <? length _); simpl; [|done].
  by rewrite <- !app_assoc.
Qed.




Lemma set_add_not_nil x s : set_add x s <> [].
Proof.
  destruct s as [|y t]; [done|]. unfold set_add.
  by destruct (existsb _ (y :: t)).
Qed.

Lemma add_names_grow (l : list jsval) : forall validation : list string,
  validation <> [] ->
  fold_left (fun acc v => match v with VStr x => set_add x acc | _ => acc end)
    l validation <> [].
Proof.
  induction l as [|x r IH]; intros validation Hv; simpl; [done|].
  apply IH. destruct x; try done. apply set_add_not_nil.
Qed.

Lemma validation_names_grow rv validation :
  validation <> [] -> validation_names rv validation <> [].
Proof. apply add_names_grow. Qed.

Lemma validation_names_added rv x validation :
  In (VStr x) (toArray (js_get_opt rv "validation")) ->
  isNotBlank x = true ->
  validation_names rv validation <> [].
Proof.
  intros Hin Hx. unfold validation_names.
  assert (Hf : In (VStr x)
                 (List.filter isNotBlankV
                    (toArray (js_get_opt rv "validation"))))
    by (apply filter_In; by split).
  revert validation Hf.
  generalize (List.filter isNotBlankV (toArray (js_get_opt rv "validation"))).
  induction l as [|y r IH]; intros validation Hl; [done|].
  destruct Hl as [->|Hin']; simpl.
  - apply add_names_grow, set_add_not_nil.
  - by apply IH.
Qed.

Lemma length_not_nil {A : Type} (l : list A) :
  l <> [] -> (0 <? length l) = true.
Proof. by destruct l. Qed.

Lemma sentinel_message inst :
  is_string (ERROR_VALIDATION inst)
    (js_get_opt (VHost (HError (ERROR_VALIDATION inst)) []) "message") = true.
Proof. simpl. apply String.eqb_refl. Qed.

Lemma pget_pset_mono {A : Type} t t' (x : A) g :
  is_Some (pget t g) -> is_Some (pget t (pset t' x g)).
Proof.
  intros H. destruct (String.eqb t t') eqn:E.
  - apply String.eqb_eq in E as ->. rewrite pget_pset_eq. eauto.
  - apply String.eqb_neq in E. by rewrite pget_pset_ne.
Qed.

Lemma group_field_bucket st groups i e :
  st !! i = Some e -> is_Some (pget (bucket_of e) (group_field st groups i)).
Proof.
  intros He. unfold group_field. rewrite He.
  destruct (endsWith_brackets (el_name e)) as [exist_ value].
  rewrite pget_pset_eq. eauto.
Qed.

Lemma group_field_mono st groups i t :
  is_Some (pget t groups) -> is_Some (pget t (group_field st groups i)).
Proof.
  intros H. unfold group_field. destruct (st !! i) as [e|]; [|done].
  destruct (endsWith_brackets (el_name e)) as [exist_ value].
  by apply pget_pset_mono.
Qed.

Lemma group_fields_fold_mono st l t : forall groups,
  is_Some (pget t groups) ->
  is_Some (pget t (fold_left (group_field st) l groups)).
Proof.
  induction l as [|i r IH]; intros groups H; simpl; [done|].
  by apply IH, group_field_mono.
Qed.

Lemma group_fields_bucket st inputs i e :
  In i inputs -> st !! i = Some e -> usable e = true ->
  is_Some (pget (bucket_of e) (group_fields st inputs)).
Proof.
  intros Hi He Hu. unfold group_fields.
  assert (Hq : In i (queryFormInput st inputs None)).
  { rewrite queryFormInput_filter. apply filter_In. split; [done|].
    unfold selected. rewrite He. simpl. by rewrite Hu. }
  revert Hq. generalize (queryFormInput st inputs None) as l.
  intros l. generalize (@nil (string * list (string * fslot))).
  induction l as [|j r IH]; intros groups Hin; [done|]. simpl.
  destruct Hin as [->|Hin]; [|by apply IH].
  by apply group_fields_fold_mono, group_field_bucket.
Qed.

Lemma group_fields_no_bucket st inputs t :
  (forall i e, In i inputs -> st !! i = Some e -> usable e = true ->
               bucket_of e <> t) ->
  pget t (group_fields st inputs) = None.
Proof.
  intros H. unfold group_fields.
  assert (Hq : forall i, In i (queryFormInput st inputs None) ->
                 forall e, st !! i = Some e -> bucket_of e <> t).
  { intros i Hi e He. apply queryFormInput_In in Hi as (Hi & e' & He' & Hu & _).
    rewrite He in He'. injection He' as <-. by apply (H i e). }
  revert Hq. generalize (queryFormInput st inputs None) as l. intros l.
  assert (Hg : pget t (@nil (string * list (string * fslot))) = None) by done.
  revert Hg. generalize (@nil (string * list (string * fslot))).
  induction l as [|j r IH]; intros groups Hg Hq; [done|]. simpl.
  apply IH; [|intros i Hi; apply Hq; by right].
  unfold group_field. destruct (st !! j) as [e|] eqn:E; [|done].
  destruct (endsWith_brackets (el_name e)) as [exist_ value].
  rewrite pget_pset_ne; [done|]. intros ->.
  by apply (Hq j (or_introl eq_refl) e).
Qed.

Lemma merge_writes_mono t writes : forall g : list (string * list (string * slot)),
  is_Some (pget t g) ->
  is_Some (pget t (fold_left (fun g wr => merge_key wr.1.1 g (wr.1.2, wr.2))
                     writes g)).
Proof.
  induction writes as [|[[t' k] v] r IH]; intros g H; simpl; [done|].
  apply IH. unfold merge_key. by apply pget_pset_mono.
Qed.

Lemma merge_writes_no_bucket t writes : forall g : list (string * list (string * slot)),
  pget t g = None ->
  (forall k v, ~ In (t, k, v) writes) ->
  pget t (fold_left (fun g wr => merge_key wr.1.1 g (wr.1.2, wr.2))
            writes g) = None.
Proof.
  induction writes as [|[[t' k] v] r IH]; intros g H Hw; simpl; [done|].
  apply IH.
  - unfold merge_key. simpl. rewrite pget_pset_ne; [done|].
    intros ->. apply (Hw k v). by left.
  - intros k0 v0 Hin. apply (Hw k0 v0). by right.
Qed.

Lemma merge_bucket_mono w withParams t (groups : list (string * list (string * fslot))) :
  is_Some (pget t groups) ->
  is_Some (pget t (merge_side_channels w withParams groups)).
Proof.
  intros H. unfold merge_side_channels. rewrite merge_as_writes.
  apply merge_writes_mono.
  rewrite (pget_map_values (fun tg => map (fun kf => (kf.1, SField kf.2)) tg)).
  destruct H as [g ->]. simpl. eauto.
Qed.

Lemma merge_no_bucket w withParams t (groups : list (string * list (string * fslot))) :
  pget t groups = None ->
  (forall k v, ~ In (t, k, v) (side_writes w withParams)) ->
  pget t (merge_side_channels w withParams groups) = None.
Proof.
  intros H Hw. unfold merge_side_channels. rewrite merge_as_writes.
  apply merge_writes_no_bucket; [|done].
  rewrite (pget_map_values (fun tg => map (fun kf => (kf.1, SField kf.2)) tg)).
  by rewrite H.
Qed.

(** The bucket [t] of the assembled body. *)
Lemma generated_bucket cfg st inputs w withParams t :
  pget t (spread (generateDataAndProps cfg st inputs w withParams))
  = (fun g => deepFilterArrays (fold_left (write_key cfg st) g (VObj [])))
    <$> pget t (merge_side_channels w withParams (group_fields st inputs)).
Proof.
  unfold generateDataAndProps, write_groups.
  rewrite deepFilterArrays_obj. simpl.
  rewrite (pget_map_values deepFilterArrays).
  pose proof (wf_merge_side_channels w withParams _
                (wf_group_fields st inputs)) as [Hout _].
  destruct (pget t (merge_side_channels w withParams (group_fields st inputs)))
    as [g|] eqn:Hg; simpl.
  - by rewrite (write_buckets_lookup cfg st _ t g [] Hout Hg).
  - rewrite write_buckets_absent; [done|]. by apply pget_None_keys.
Qed.

Lemma pget2_pset2_eq {A : Type} t k (x : A)
    (groups : list (string * list (string * A))) :
  pget2 t k (pset t (pset k x (default [] (pget t groups))) groups) = Some x.
Proof. unfold pget2. by rewrite !pget_pset_eq. Qed.

Lemma pget2_pset2_ne {A : Type} t k t' k' (x : A)
    (groups : list (string * list (string * A))) :
  t' <> t \/ k' <> k ->
  pget2 t k (pset t' (pset k' x (default [] (pget t' groups))) groups)
  = pget2 t k groups.
Proof.
  intros H. unfold pget2. destruct (String.eqb t t') eqn:E.
  - apply String.eqb_eq in E as ->. rewrite pget_pset_eq.
    destruct H as [H|H]; [done|]. rewrite pget_pset_ne by done.
    by destruct (pget t' groups).
  - apply String.eqb_neq in E. by rewrite pget_pset_ne.
Qed.

Lemma grouped_slot_push st l i :
  l <> [] -> grouped_slot st (l ++ [i]) = Some (fslot_push i (grouped_slot st l)).
Proof.
  destruct l as [|j [|j' r]]; [done| |]; intros _; simpl.
  - by destruct (has_suffix st j).
  - done.
Qed.

Lemma group_field_lookup st groups i e t k :
  st !! i = Some e ->
  pget2 t k (group_field st groups i)
  = if addressed st t k i
    then Some (if bool_decide (is_Some (pget2 t k groups)) || has_suffix st i
               then fslot_push i (pget2 t k groups) else FOne i)
    else pget2 t k groups.
Proof.
  intros He. unfold group_field, addressed, has_suffix. rewrite He. simpl.
  destruct (endsWith_brackets (el_name e)) as [exist_ value] eqn:Ee. simpl.
  destruct (String.eqb (bucket_of e) t) eqn:Et; simpl.
  - apply String.eqb_eq in Et as <-.
    destruct (String.eqb value k) eqn:Ek.
    + apply String.eqb_eq in Ek as <-.
      assert (Hp : pget2 (bucket_of e) value groups
                   = pget value (default [] (pget (bucket_of e) groups))).
      { unfold pget2. by destruct (pget (bucket_of e) groups). }
      rewrite Hp.
      destruct (bool_decide _ || exist_); apply pget2_pset2_eq.
    + apply String.eqb_neq in Ek.
      destruct (bool_decide _ || exist_); apply pget2_pset2_ne; by right.
  - apply String.eqb_neq in Et.
    destruct (bool_decide _ || exist_); apply pget2_pset2_ne; by left.
Qed.

Lemma group_fields_fold_lookup st t k l :
  Forall (fun i => is_Some (st !! i)) l ->
  pget2 t k (fold_left (group_field st) l [])
  = grouped_slot st (List.filter (addressed st t k) l).
Proof.
  induction l as [|i l IH] using rev_ind; intros Hall; [done|].
  apply Forall_app in Hall as [Hl Hi].
  apply Forall_singleton in Hi as [e He].
  rewrite fold_left_app. simpl. rewrite List.filter_app. simpl.
  rewrite (group_field_lookup _ _ _ e) by done. rewrite IH by done.
  destruct (addressed st t k i); [|by rewrite app_nil_r].
  destruct (List.filter (addressed st t k) l) as [|j r] eqn:E.
  - simpl. by destruct (has_suffix st i).
  - rewrite grouped_slot_push by done.
    assert (Hs : is_Some (grouped_slot st (j :: r))).
    { destruct r; simpl; eauto. }
    by rewrite bool_decide_true.
Qed.

Lemma group_fields_slot st inputs t k :
  pget2 t k (group_fields st inputs)
  = grouped_slot st (fields_of st inputs t k).
Proof.
  unfold group_fields, fields_of. apply group_fields_fold_lookup.
  apply List.Forall_forall. intros i Hi.
  apply queryFormInput_In in Hi as (_ & e & He & _). eauto.
Qed.


Lemma In_pget {A : Type} k (x : A) o :
  List.NoDup (map fst o) -> In (k, x) o -> pget k o = Some x.
Proof.
  induction o as [|[k' x'] r IH]; intros Hnd Hin; [done|]. simpl in *.
  apply List.NoDup_cons_iff in Hnd as [Hk Hnd].
  destruct Hin as [[= -> ->]|Hin].
  - by rewrite String.eqb_refl.
  - destruct (String.eqb k k') eqn:E.
    + apply String.eqb_eq in E as ->. destruct Hk.
      apply in_map_iff. by exists (k', x).
    + by apply IH.
Qed.

(** The value the assembled body carries at a plain key of a bucket. *)
Lemma generated_key cfg st inputs w withParams t k s :
  pget2 t k (merge_side_channels w withParams (group_fields st inputs))
  = Some s ->
  path_of k = [k] -> k <> "__proto__" ->
  (forall k' s', k' <> k ->
     pget2 t k' (merge_side_channels w withParams (group_fields st inputs))
     = Some s' -> first_segment k' <> k) ->
  js_get (js_get (generateDataAndProps cfg st inputs w withParams) t) k
  = if hasValue (slot_value cfg st s) then deepFilterArrays (slot_value cfg st s)
    else VUndef.
Proof.
  intros Hslot Hp Hproto Hsole.
  pose proof (wf_merge_side_channels w withParams _
                (wf_group_fields st inputs)) as [Hout Hin].
  unfold pget2 in Hslot, Hsole.
  destruct (pget t (merge_side_channels w withParams (group_fields st inputs)))
    as [g|] eqn:Hg; [|done].
  assert (Hgnd : List.NoDup (map fst g)).
  { rewrite List.Forall_forall in Hin. apply (Hin _ (pget_In _ _ _ Hg)). }
  unfold generateDataAndProps, write_groups.
  rewrite js_get_deepFilterArrays_obj. simpl.
  rewrite (write_buckets_lookup cfg st _ t g [] Hout Hg). simpl.
  pose proof (isObject_write_keys cfg st g (VObj [])) as Hobj.
  destruct (fold_left (write_key cfg st) g (VObj [])) as
    [ | | | | | | props | ] eqn:Hfold; try done.
  rewrite js_get_deepFilterArrays_obj, <- Hfold.
  rewrite (write_keys_sole cfg st g k s); try done.
  - simpl. by destruct (hasValue (slot_value cfg st s)).
  - by apply pget_In.
  - intros k' s' Hin' Hne. apply (Hsole k' s' Hne). by apply In_pget.
Qed.

Lemma last_write_In t k v writes :
  last_write t k writes = Some v -> In (t, k, v) writes.
Proof.
  unfold last_write.
  assert (H : forall o, fold_left
             (fun acc wr => if String.eqb wr.1.1 t && String.eqb wr.1.2 k
                            then Some wr.2 else acc) writes o = Some v ->
             o = Some v \/ In (t, k, v) writes).
  { induction writes as [|[[t' k'] v'] r IH]; intros o Ho; simpl in *;
      [by left|].
    apply IH in Ho as [Ho|Ho]; [|right; by right].
    destruct (String.eqb t' t) eqn:Et; simpl in Ho; [|by left].
    destruct (String.eqb k' k) eqn:Ek; simpl in Ho; [|by left].
    apply String.eqb_eq in Et as ->. apply String.eqb_eq in Ek as ->.
    injection Ho as ->. right. by left. }
  intros Hl. by destruct (H None Hl).
Qed.

Lemma grouped_slot_Some st l f :
  grouped_slot st l = Some f -> exists i, In i l.
Proof. destruct l as [|i r]; [done|]. intros _. exists i. by left. Qed.

Lemma fields_of_In st inputs t k i :
  In i (fields_of st inputs t k) ->
  exists e, In i inputs /\ st !! i = Some e /\ usable e = true
            /\ bucket_of e = t /\ (endsWith_brackets (el_name e)).2 = k.
Proof.
  unfold fields_of. intros Hin. apply filter_In in Hin as [Hq Ha].
  apply queryFormInput_In in Hq as (Hi & e & He & Hu & _).
  exists e. unfold addressed in Ha. rewrite He in Ha. simpl in Ha.
  apply andb_true_iff in Ha as [Ht Hk].
  apply String.eqb_eq in Ht, Hk. done.
Qed.






Lemma radio_values cfg st l :
  Forall (fun i => exists e, st !! i = Some e
                     /\ resolved_type e = HTML_RADIO
                     /\ el_from_type e = None /\ el_from_pattern e = None) l ->
  List.filter hasValue (flat_map (fun i => splice (field_value cfg st i)) l)
  = checked_values st l.
Proof.
  induction 1 as [|i r (e & He & Ht & Hft & Hfp) _ IH]; [done|].
  simpl. rewrite List.filter_app, IH. f_equal.
  unfold field_value. rewrite He. simpl.
  unfold getElementValue, element_result. rewrite Ht. simpl.
  destruct (el_checked e); [|done].
  unfold source_lookup, source_key. by rewrite Hft, Hfp.
Qed.


Lemma apply_to_field_lookup st v apply i t n :
  pget2 t n (apply_to_field st v apply i)
  = if targets st t n i then Some v else pget2 t n apply.
Proof.
  unfold apply_to_field, targets. destruct (st !! i) as [e|]; [|done]. simpl.
  destruct (String.eqb (bucket_of e) t) eqn:Et; simpl.
  - apply String.eqb_eq in Et as <-.
    destruct (String.eqb (el_name e) n) eqn:En.
    + apply String.eqb_eq in En as <-. apply pget2_pset2_eq.
    + apply String.eqb_neq in En. apply pget2_pset2_ne. by right.
  - apply String.eqb_neq in Et. apply pget2_pset2_ne. by left.
Qed.

Lemma apply_to_fields_lookup st v t n l : forall apply,
  pget2 t n (fold_left (apply_to_field st v) l apply)
  = if existsb (targets st t n) l then Some v else pget2 t n apply.
Proof.
  induction l as [|i r IH]; intros apply; [done|]. simpl.
  rewrite IH, apply_to_field_lookup.
  destruct (targets st t n i); simpl; by destruct (existsb _ r).
Qed.

Lemma applied_fold_lookup st inputs t n selectors : forall apply,
  pget2 t n
    (fold_left
       (fun apply (sv : applied_selector * jsval) =>
          fold_left (apply_to_field st sv.2)
            (queryFormInput st inputs (Some (matches_applied sv.1))) apply)
       selectors apply)
  = match last (List.filter (fun sv => reaches st inputs t n sv.1) selectors)
    with
    | Some sv => Some sv.2
    | None => pget2 t n apply
    end.
Proof.
  induction selectors as [|sv r IH]; intros apply; [done|]. simpl.
  rewrite IH, apply_to_fields_lookup. fold (reaches st inputs t n sv.1).
  destruct (reaches st inputs t n sv.1); [|done].
  rewrite last_cons.
  by destruct (last (List.filter (fun sv => reaches st inputs t n sv.1) r)).
Qed.

Lemma selectors_set_fresh sel v m :
  (forall s x, In (s, x) m -> applied_selector_eqb sel s = false) ->
  selectors_set sel v m = m ++ [(sel, v)].
Proof.
  induction m as [|[s x] r IH]; intros H; [done|]. simpl.
  rewrite (H s x) by by left. rewrite IH; [done|].
  intros s' x' Hin. apply (H s' x'). by right.
Qed.

Lemma applied_selector_eqb_eq a b :
  applied_selector_eqb a b = true <-> a = b.
Proof.
  destruct a as [t k|t], b as [t' k'|t']; simpl; try (split; [done|by intros [=]]).
  - rewrite andb_true_iff, !String.eqb_eq. split; [by intros [-> ->]|by intros [= -> ->]].
  - rewrite String.eqb_eq. split; [by intros ->|by intros [= ->]].
Qed.

Lemma applied_selectors_obj type props : forall m,
  List.NoDup (map fst props) ->
  (forall k s x, In k (map fst props) -> In (s, x) m -> s <> ByKey type k) ->
  applied_selectors type (VObj props) m
  = m ++ map (fun kv => (ByKey type kv.1, kv.2)) props.
Proof.
  simpl. induction props as [|[k v] r IH]; intros m Hnd Hm; simpl;
    [by rewrite app_nil_r|].
  apply List.NoDup_cons_iff in Hnd as [Hk Hnd].
  rewrite selectors_set_fresh.
  - rewrite IH; [by rewrite <- app_assoc|done|].
    intros k' s x Hk' Hin. apply in_app_or in Hin as [Hin|[[= <- <-]|[]]].
    + apply (Hm k' s x); [by right|done].
    + intros [= <-]. done.
  - intros s x Hin. destruct (applied_selector_eqb (ByKey type k) s) eqn:E;
      [|done].
    apply applied_selector_eqb_eq in E as <-.
    destruct (Hm k (ByKey type k) x); [by left|done|done].
Qed.

Lemma filter_key_NoDup {A : Type} key (props : list (string * A)) :
  List.NoDup (map fst props) ->
  List.filter (fun kv => String.eqb kv.1 key) props
  = match pget key props with Some v => [(key, v)] | None => [] end.
Proof.
  induction props as [|[k v] r IH]; intros Hnd; [done|]. simpl.
  apply List.NoDup_cons_iff in Hnd as [Hk Hnd]. rewrite IH by done.
  rewrite (String.eqb_sym key k).
  destruct (String.eqb k key) eqn:E; [|done].
  apply String.eqb_eq in E as ->.
  destruct (pget key r) as [x|] eqn:Er; [|done].
  destruct Hk. apply pget_In in Er. apply in_map_iff. by exists (key, x).
Qed.

Lemma controls_pending_app l1 : forall l2 p,
  controls_pending (l1 ++ l2) p = controls_pending l2 (controls_pending l1 p).
Proof.
  induction l1 as [|ev r IH]; intros l2 p; [done|].
  destruct ev; simpl; apply IH.
Qed.


Lemma extends_trans s1 s2 s3 : extends s1 s2 -> extends s2 s3 -> extends s1 s3.
Proof.
  intros (Hw1 & Hs1 & evs1 & Hl1) (Hw2 & Hs2 & evs2 & Hl2).
  split; [congruence|]. split; [congruence|].
  exists (evs1 ++ evs2). by rewrite Hl2, Hl1, app_assoc.
Qed.






Lemma keeps_catch {A : Type} (m : M A) h :
  keeps m -> (forall e, keeps (h e)) -> keeps (catch m h).
Proof.
  intros Hm Hh s. unfold catch. specialize (Hm s).
  destruct (m s) as [[a|e] s1]; simpl in *; [done|].
  exact (extends_trans _ _ _ Hm (Hh e s1)).
Qed.








Lemma handleBefore_outcome inst request s :
  match inst_middleware inst "before" (obj1 "request" request) with
  | Resolved _ => exists q, (handleBefore inst request s).1 = Ok q
  | Rejected e => handleBefore inst request s = (Throw e, s)
  end.
Proof.
  unfold handleBefore. run_stage.
  destruct (inst_middleware inst "before" _); simpl; eauto.
Qed.


Lemma handleBefore_pending inst request s q s' p :
  handleBefore inst request s = (Ok q, s') ->
  controls_pending (st_log s') p = false.
Proof.
  unfold handleBefore. run_stage.
  destruct (inst_middleware inst "before" _); simpl; [|done].
  intros [= _ <-]. simpl. by rewrite <- !app_assoc, controls_pending_app.
Qed.

Lemma handleValidation_pending inst request s r p :
  handleValidation inst request s = r ->
  controls_pending (st_log r.2) p = controls_pending (st_log s) p.
Proof.
  intros <-. unfold handleValidation.
  unfold mbind at 1, M_bind at 1, get_state.
  destruct (validate (inst_config inst) (st_store s) (inst_inputs inst))
    as [st1 v1].
  run_stage.
  destruct (inst_middleware inst "validation" _); simpl; [|done].
  destruct (0 <? length _); simpl; [|done].
  by rewrite <- !app_assoc, controls_pending_app.
Qed.

Lemma handleResponse_pending inst request response s d s' p :
  handleResponse inst request response s = (Ok d, s') ->
  controls_pending (st_log s') p = false.
Proof.
  unfold handleResponse. run_stage.
  destruct (inst_middleware inst "response" _); simpl; [|done].
  destruct (cfg_checkResponse _ _); simpl; [|done].
  intros [= _ <-]. simpl. by rewrite <- !app_assoc, controls_pending_app.
Qed.

Lemma handleAfter_pending inst data s r p :
  handleAfter inst data s = r ->
  controls_pending (st_log r.2) p = controls_pending (st_log s) p.
Proof.
  intros <-. unfold handleAfter. run_stage.
  destruct (inst_middleware inst "after" _); simpl; [|done].
  by rewrite <- !app_assoc, controls_pending_app.
Qed.

Lemma pipeline_pending inst data s v s' p :
  pipeline inst data s = (Ok v, s') ->
  controls_pending (st_log s') p = false.
Proof.
  unfold pipeline. unfold mbind at 1, M_bind at 1.
  destruct (handleBefore inst data s) as [[q1|e1] s1]; [|done].
  unfold mbind at 1, M_bind at 1.
  destruct (handleValidation inst q1 s1) as [[q2|e2] s2]; [|done].
  unfold mbind at 1, M_bind at 1.
  destruct (handleRequest inst q2 s2) as [[rr|e3] s3]; [|done].
  unfold mbind at 1, M_bind at 1.
  destruct (handleResponse inst (js_get rr "request") (js_get rr "response")
              s3) as [[d|e4] s4] eqn:E4; [|done].
  intros E5. pose proof (handleAfter_pending _ _ _ _ p E5) as H5.
  simpl in H5. rewrite H5.
  by apply (handleResponse_pending _ _ _ _ _ _ p E4).
Qed.

Lemma handleError_pending inst e s p :
  controls_pending (st_log (handleError inst e s).2) p
  = if is_string (ERROR_VALIDATION inst) (js_get_opt e "message")
    then controls_pending (st_log s) p
    else if is_string (ERROR_CONFIRM inst) (js_get_opt e "message")
         then false
         else match cfg_getError (inst_config inst) e with
              | Resolved _ => false
              | Rejected _ => controls_pending (st_log s) p
              end.
Proof.
  destruct (is_string (ERROR_VALIDATION inst) (js_get_opt e "message"))
    eqn:E1.
  { rewrite handleError_validation by done. simpl.
    by rewrite controls_pending_app. }
  destruct (is_string (ERROR_CONFIRM inst) (js_get_opt e "message")) eqn:E2.
  { rewrite handleError_confirm by done. simpl.
    by rewrite controls_pending_app. }
  destruct (cfg_getError (inst_config inst) e) as [m|x] eqn:E3.
  - rewrite (handleError_other _ _ _ m) by done.
    destruct (inst_middleware inst "error" _); simpl;
      rewrite controls_pending_app; [|done].
    unfold error_events. by destruct (0 <? inst_messageError inst).
  - unfold handleError. run_stage. rewrite E1, E2, E3. simpl.
    by rewrite controls_pending_app.
Qed.

Lemma check_fields_report st l : forall acc,
  Forall (fun i => exists e, st !! i = Some e /\ usable e = true) l ->
  (fold_left check_field l (st, acc)).2
  = fold_left
      (fun acc i => match st !! i with
                    | Some e => if validity_valid e then acc
                                else set_add (el_name e) acc
                    | None => acc
                    end)
      l acc.
Proof.
  induction l as [|i r IH]; intros acc Hl; simpl; [done|].
  inversion Hl as [|? ? (e & Hi & Hu) Hr]; subst. rewrite Hi.
  rewrite (alter_enable_usable st i e Hi Hu). by apply IH.
Qed.

Lemma no_group_selected st inputs :
  (forall i e, In i inputs -> st !! i = Some e -> usable e = true ->
               in_validation_group e = false) ->
  queryFormInput st inputs (Some in_validation_group) = [].
Proof.
  intros H. rewrite queryFormInput_filter.
  induction inputs as [|i r IH]; [done|]. simpl.
  rewrite IH by (intros j e Hj; apply H; by right).
  unfold selected. destruct (st !! i) as [e|] eqn:E; [|done]. simpl.
  destruct (usable e) eqn:Hu; [|done]. simpl.
  by rewrite (H i e (or_introl eq_refl) E Hu).
Qed.








Section AppliedKey.
Variables (st : list element) (inputs : list nat) (i : nat) (e : element).
Variable key : string.
Hypothesis Hi : In i inputs.
Hypothesis He : st !! i = Some e.
Hypothesis Hu : usable e = true.
Hypothesis Ha : el_applied e = Some key.
Hypothesis Har : el_applied_request e = None.
Hypothesis Has : el_applied_response e = None.
Hypothesis Huniq :
  forall j e', In j inputs -> st !! j = Some e' -> usable e' = true ->
               bucket_of e' = bucket_of e -> el_name e' = el_name e -> j = i.

Lemma applied_reach type k :
  type = "request" \/ type = "response" ->
  reaches st inputs (bucket_of e) (el_name e) (ByKey type k)
  = String.eqb k key.
Proof.
  intros Htype. unfold reaches.
  destruct (String.eqb k key) eqn:Ek.
  - apply String.eqb_eq in Ek as ->. apply existsb_exists. exists i. split.
    + rewrite queryFormInput_filter. apply filter_In. split; [done|].
      unfold selected. rewrite He. simpl. rewrite Hu, Ha. simpl.
      by rewrite bool_decide_true.
    + unfold targets. rewrite He. simpl. by rewrite !String.eqb_refl.
  - apply String.eqb_neq in Ek.
    apply not_true_is_false. intros Hex.
    apply existsb_exists in Hex as (j & Hj & Ht).
    apply queryFormInput_In in Hj as (Hj & e' & He' & Hu' & Hm).
    unfold targets in Ht. rewrite He' in Ht. simpl in Ht.
    apply andb_true_iff in Ht as [Ht Hn]. apply String.eqb_eq in Ht, Hn.
    assert (j = i) as -> by by apply (Huniq j e').
    rewrite He in He'. injection He' as <-. simpl in Hm.
    apply orb_true_iff in Hm as [Hm|Hm]; apply bool_decide_eq_true in Hm.
    + rewrite Ha in Hm. by injection Hm as ->.
    + unfold applied_typed in Hm.
      destruct Htype as [-> | ->]; simpl in Hm; congruence.
Qed.

Lemma applied_filter type (props : list (string * jsval)) :
  type = "request" \/ type = "response" ->
  List.NoDup (map fst props) ->
  List.filter
    (fun sv : applied_selector * jsval =>
       reaches st inputs (bucket_of e) (el_name e) sv.1)
    (map (fun kv : string * jsval => (ByKey type kv.1, kv.2)) props)
  = match pget key props with
    | Some v => [(ByKey type key, v)]
    | None => []
    end.
Proof.
  intros Htype Hnd.
  transitivity
    (map (fun kv : string * jsval => (ByKey type kv.1, kv.2))
       (List.filter (fun kv => String.eqb kv.1 key) props)).
  - clear Hnd. induction props as [|[k v] r IH]; [done|]. simpl.
    rewrite (applied_reach type k Htype), IH. by destruct (String.eqb k key).
  - rewrite filter_key_NoDup by done. by destruct (pget key props).
Qed.

Lemma applied_mappings (rq rs : list (string * jsval))
    (apply : list (string * list (string * jsval))) :
  List.NoDup (map fst rq) -> List.NoDup (map fst rs) ->
  last (List.filter
          (fun sv : applied_selector * jsval =>
             reaches st inputs (bucket_of e) (el_name e) sv.1)
          (event_selectors (VObj rq) (VObj rs)))
  = match pget key rs with
    | Some v => Some (ByKey "response" key, v)
    | None => match pget key rq with
              | Some v => Some (ByKey "request" key, v)
              | None => None
              end
    end.
Proof.
  intros Hrq Hrs. unfold event_selectors.
  rewrite (applied_selectors_obj "request" rq []) by done.
  rewrite (applied_selectors_obj "response" rs).
  2: done.
  2: { intros k s x _ Hin.
       apply in_map_iff in Hin as ([k' v'] & [= <- <-] & _). discriminate. }
  simpl app. rewrite List.filter_app.
  rewrite (applied_filter "request" rq) by (done || by left).
  rewrite (applied_filter "response" rs) by (done || by right).
  destruct (pget key rs) as [v|], (pget key rq) as [v'|]; done.
Qed.
End AppliedKey.






Lemma page_toggles :
  Controls.toggles
    (Controls.set_visible true) (Controls.set_visible false)
    (Controls.set_enabled true) (Controls.set_enabled false)
    (fun u x => (u x).1) (fun u x => (u x).2).
Proof.
  split; intros l u x; unfold Controls.set_visible, Controls.set_enabled;
    by destruct (Controls.mem x l).
Qed.

(** ** The claims *)

(** C1 fails on the code.  The standard pass assigns [disabled = false]
    to the elements [#queryFormInput] returns, which are the enabled ones:
    for every form the store [validate] leaves is the store after group
    resolution, and a blank member of a group that has a non-blank member
    is disabled when [validate] returns although it was enabled before.
    In the form [satisfied_pair] the blank member [b] is enabled before
    the call and disabled after it, so that [#queryFormInput] no longer
    returns it. *)
Theorem validation_leaves_exempted_field_disabled :
  (forall cfg st inputs,
      (validate cfg st inputs).1 = resolve_groups cfg st inputs)
  /\ (forall cfg (st : list element) inputs i j e ej g,
         In i inputs -> st !! i = Some e -> usable e = true ->
         el_required e = true -> el_validation e = Some g ->
         isNotBlank (el_value e) = false ->
         In j inputs -> st !! j = Some ej -> usable ej = true ->
         el_required ej = true -> el_validation ej = Some g ->
         isNotBlank (el_value ej) = true ->
         el_disabled e = false
         /\ el_disabled <$> (validate cfg st inputs).1 !! i = Some true)
  /\ el_disabled <$> satisfied_pair !! 1 = Some false
  /\ (validate plain_config satisfied_pair [0; 1]).2 = []
  /\ el_disabled <$> (validate plain_config satisfied_pair [0; 1]).1 !! 1
     = Some true
  /\ queryFormInput satisfied_pair [0; 1] None = [0; 1]
  /\ queryFormInput (validate plain_config satisfied_pair [0; 1]).1 [0; 1]
       None
     = [0].
Proof.
  split; [apply validate_store|].
  split.
  { intros cfg st inputs i j e ej g Hi He Hu Hr Hg Hv Hj Hej Huj Hrj Hgj Hvj.
    split.
    - unfold usable in Hu. apply andb_true_iff in Hu as [Hd _].
      by apply negb_true_iff in Hd.
    - by apply (validate_disables_blank_member cfg st inputs i j e ej g). }
  repeat split; vm_compute; reflexivity.
Qed.

(** C2, as the code has it.  When the pipeline rejects with an error: the
    ValidationError sentinel makes [submit] resolve after nothing but the
    console log; the ConfirmationError sentinel makes it resolve after the
    UI affordances are reset; any other error goes to the configured
    message resolver.  When the resolver returns, the error is copied with
    the [message] it gave and [submit] rejects with the result of the
    [error] middleware when that has a value, with the decorated copy
    when it has none, and with the middleware's own failure when it
    rejects.  When the resolver throws, [submit] rejects with what it
    threw and nothing else of the Error stage runs.  The default resolver
    is the precedence chain code-keyed lookup, status-keyed lookup,
    original message, code, status, the raw object, on the error or on
    [{}] for an undefined error, and it throws a TypeError on a null
    error. *)
Theorem error_stage
    (inst : instance) (opts : options) (s s' : state) (e : jsval) :
  pipeline inst (submitted_data inst opts s) s = (Throw e, s') ->
  (is_string (ERROR_VALIDATION inst) (js_get_opt e "message") = true ->
   submit inst opts s = (Ok VUndef, logged s' [ConsoleError e]))
  /\ (is_string (ERROR_VALIDATION inst) (js_get_opt e "message") = false ->
      is_string (ERROR_CONFIRM inst) (js_get_opt e "message") = true ->
      submit inst opts s =
      (Ok VUndef, logged s' [ConsoleError e; ResetUIControls]))
  /\ (is_string (ERROR_VALIDATION inst) (js_get_opt e "message") = false ->
      is_string (ERROR_CONFIRM inst) (js_get_opt e "message") = false ->
      match cfg_getError (inst_config inst) e with
      | Resolved m =>
          js_get (decorate m e) "message" = m
          /\ settle (submit inst opts s) =
             Rejected
               match inst_middleware inst "error" (decorate m e) with
               | Resolved r => if hasValue r then r else decorate m e
               | Rejected e' => e'
               end
      | Rejected x =>
          submit inst opts s = (Throw x, logged s' [ConsoleError e])
      end)
  /\ (forall code status,
         DEFAULT_getError code status e =
         match e with
         | VNull => Rejected (VHost (HError "TypeError") [])
         | VUndef =>
             Resolved (first_truthy
                         (message_candidates code status (VObj []))
                         (VObj []))
         | _ => Resolved (first_truthy (message_candidates code status e) e)
         end).
Proof.
  intros Hp. rewrite (submit_rejected _ _ _ _ _ Hp).
  split; [apply handleError_validation|].
  split; [apply handleError_confirm|].
  split.
  - intros H1 H2.
    destruct (cfg_getError (inst_config inst) e) as [m|x] eqn:Hm.
    + split; [apply js_get_decorate|].
      rewrite (handleError_other _ _ _ _ H1 H2 Hm).
      by destruct (inst_middleware inst "error" _).
    + by apply handleError_resolver_throws.
  - intros code status. destruct e; try by apply DEFAULT_getError_chain.
    + by rewrite <- (DEFAULT_getError_chain code status (VObj [])).
    + reflexivity.
Qed.

(** The theorem at a transport failure [{ status: 500 }] with no
    middleware, where [submit] rejects with
    [{ status: 500, message: 500 }], at a null transport failure, where
    the default resolver throws, and at a form whose required fields are
    empty, where the validation sentinel makes [submit] resolve. *)
Lemma error_stage_witness :
  settle (submit (simple_instance [0] identity_chain
                    (fails (VObj [("status", VNum 500)])))
            no_options one_field)
  = Rejected (VObj [("status", VNum 500); ("message", VNum 500)])
  /\ settle (submit (simple_instance [0] identity_chain (fails VNull))
               no_options one_field)
     = Rejected (VHost (HError "TypeError") [])
  /\ settle (submit (simple_instance [0; 1] identity_chain (answers VNull))
               no_options (State empty_pair [] []))
     = Resolved VUndef.
Proof.
  split; [|split].
  - edestruct (error_stage
                 (simple_instance [0] identity_chain
                    (fails (VObj [("status", VNum 500)])))
                 no_options one_field) as (_ & _ & H & _).
    + vm_compute. reflexivity.
    + destruct (H eq_refl eq_refl) as [_ Hs]. exact Hs.
  - edestruct (error_stage
                 (simple_instance [0] identity_chain (fails VNull))
                 no_options one_field) as (_ & _ & H & _).
    + vm_compute. reflexivity.
    + rewrite (H eq_refl eq_refl). reflexivity.
  - edestruct (error_stage
                 (simple_instance [0; 1] identity_chain (answers VNull))
                 no_options (State empty_pair [] [])) as (H & _).
    + vm_compute. reflexivity.
    + rewrite (H eq_refl). reflexivity.
Defined.

(** C2 as stated fails in three ways.  When the [error] middleware
    resolves with a value, [submit] rejects with that value, not with the
    decorated error; when it rejects, [submit] rejects with its failure;
    and on a null error the default resolver throws, so that [submit]
    rejects with a TypeError and no error is decorated. *)
Lemma error_middleware_replaces_error :
  let raw := VObj [("status", VNum 500)] in
  let replaced := simple_instance [0] (error_override (VStr "handled"))
                    (fails raw) in
  let failed := simple_instance [0] (error_failing (VStr "broken"))
                  (fails raw) in
  let null := simple_instance [0] identity_chain (fails VNull) in
  (cfg_getError (inst_config replaced) raw = Resolved (VNum 500)
   /\ decorate (VNum 500) raw
      = VObj [("status", VNum 500); ("message", VNum 500)]
   /\ settle (submit replaced no_options one_field)
      = Rejected (VStr "handled")
   /\ settle (submit replaced no_options one_field)
      <> Rejected (decorate (VNum 500) raw))
  /\ (settle (submit failed no_options one_field) = Rejected (VStr "broken")
      /\ settle (submit failed no_options one_field)
         <> Rejected (decorate (VNum 500) raw))
  /\ (pipeline null (submitted_data null no_options one_field) one_field
      = (Throw VNull,
         logged one_field
           [Broadcast EVENT_LIFECYCLE_BEFORE
              (obj1 "request" (VObj [("q", VStr "v")]));
            ResetUIControls;
            SuccessHandlerCall "before"
              (obj1 "request" (VObj [("q", VStr "v")]));
            RequestUIControls;
            Broadcast EVENT_LIFECYCLE_REQUEST
              (obj1 "request" (VObj [("q", VStr "v")]));
            SuccessHandlerCall "request"
              (obj1 "request" (VObj [("q", VStr "v")]))])
      /\ settle (submit null no_options one_field)
         = Rejected (VHost (HError "TypeError") [])).
Proof.
  repeat split; try (vm_compute; reflexivity); vm_compute; discriminate.
Qed.

(** C3, as the code has it.  When the stages before it succeed and the
    [response] middleware resolves, a response (the override of the
    middleware when it gives one) on which the acceptance predicate
    returns false makes the Response stage reject with that response
    value itself, not with the canonical envelope, and change nothing
    else.  The rejection then goes through the Error stage like any other
    error: [submit] resolves with [undefined] when the [message] of the
    response is one of the two sentinels; it rejects with what the
    message resolver threw when the resolver throws; otherwise it rejects
    with a copy of the response whose [message] is the resolved one, or
    with the value of the [error] middleware when it gives one, or with
    the failure of that middleware. *)
Theorem response_rejection
    (inst : instance) (opts : options) (s0 s1 s2 s3 : state)
    (q1 q2 rr r : jsval) :
  handleBefore inst (submitted_data inst opts s0) s0 = (Ok q1, s1) ->
  handleValidation inst q1 s1 = (Ok q2, s2) ->
  handleRequest inst q2 s2 = (Ok rr, s3) ->
  inst_middleware inst "response"
    (VObj [("request", js_get rr "request");
           ("response", js_get rr "response")]) = Resolved r ->
  let raw := if hasValue (js_get_opt r "response") then js_get r "response"
             else js_get rr "response" in
  cfg_checkResponse (inst_config inst) raw = false ->
  handleResponse inst (js_get rr "request") (js_get rr "response") s3
  = (Throw raw, s3)
  /\ pipeline inst (submitted_data inst opts s0) s0 = (Throw raw, s3)
  /\ submit inst opts s0 = handleError inst raw s3
  /\ settle (submit inst opts s0) =
     if is_string (ERROR_VALIDATION inst) (js_get_opt raw "message")
        || is_string (ERROR_CONFIRM inst) (js_get_opt raw "message")
     then Resolved VUndef
     else match cfg_getError (inst_config inst) raw with
          | Rejected x => Rejected x
          | Resolved m =>
              Rejected
                match inst_middleware inst "error" (decorate m raw) with
                | Resolved r' => if hasValue r' then r' else decorate m raw
                | Rejected e' => e'
                end
          end.
Proof.
  intros H1 H2 H3 Hr raw Hc.
  assert (Hresp : handleResponse inst (js_get rr "request")
                    (js_get rr "response") s3 = (Throw raw, s3))
    by exact (handleResponse_rejects _ _ _ _ _ Hr Hc).
  assert (Hp : pipeline inst (submitted_data inst opts s0) s0
               = (Throw raw, s3)).
  { rewrite (pipeline_response _ _ _ _ _ _ _ _ _ H1 H2 H3).
    unfold mbind, M_bind. by rewrite Hresp. }
  split; [exact Hresp|]. split; [exact Hp|].
  split; [exact (submit_rejected _ _ _ _ _ Hp)|].
  rewrite (submit_rejected _ _ _ _ _ Hp).
  destruct (is_string (ERROR_VALIDATION inst) (js_get_opt raw "message"))
    eqn:Hv; [by rewrite handleError_validation|].
  destruct (is_string (ERROR_CONFIRM inst) (js_get_opt raw "message"))
    eqn:Hf; [by rewrite handleError_confirm|].
  simpl. destruct (cfg_getError (inst_config inst) raw) as [m|x] eqn:Hm.
  - rewrite (handleError_other _ _ _ _ Hv Hf Hm).
    by destruct (inst_middleware inst "error" _).
  - by rewrite (handleError_resolver_throws _ _ _ _ Hv Hf Hm).
Qed.

(** The theorem at a response [{ code: 500 }] with no middleware. *)
Lemma response_rejection_witness :
  settle (submit (simple_instance [0] identity_chain
                    (answers (VObj [("code", VNum 500)])))
            no_options one_field)
  = Rejected (VObj [("code", VNum 500); ("message", VNum 500)]).
Proof.
  edestruct (response_rejection
               (simple_instance [0] identity_chain
                  (answers (VObj [("code", VNum 500)])))
               no_options one_field) as (_ & _ & _ & H);
    [vm_compute; reflexivity ..|].
  exact H.
Defined.

(** C3 as stated fails at the response [{ code: 500 }]: the acceptance
    predicate rejects it, and [submit] rejects with a decorated copy that
    carries a [message], not with the response itself.  It fails as well
    at a null response, where the default resolver throws and [submit]
    rejects with a TypeError, and at a refused response whose [message]
    is the validation sentinel, where [submit] resolves. *)
Lemma rejected_response_is_decorated :
  let raw := VObj [("code", VNum 500)] in
  let inst := simple_instance [0] identity_chain (answers raw) in
  let null := simple_instance [0] identity_chain (answers VNull) in
  let marked := VObj [("code", VNum 500);
                      ("message", VStr "validation-error")] in
  let sentinel := simple_instance [0] identity_chain (answers marked) in
  (cfg_checkResponse (inst_config inst) raw = false
   /\ settle (submit inst no_options one_field)
      = Rejected (VObj [("code", VNum 500); ("message", VNum 500)])
   /\ settle (submit inst no_options one_field) <> Rejected raw)
  /\ (cfg_checkResponse (inst_config null) VNull = false
      /\ settle (submit null no_options one_field)
         = Rejected (VHost (HError "TypeError") [])
      /\ settle (submit null no_options one_field) <> Rejected VNull)
  /\ (cfg_checkResponse (inst_config sentinel) marked = false
      /\ settle (submit sentinel no_options one_field) = Resolved VUndef).
Proof.
  repeat split; try (vm_compute; reflexivity); vm_compute; discriminate.
Qed.




(** C5, as the code has it.  For a form made of a validation group of two
    required fields, both of them text-like controls (whose required
    check is on their value), with no other failing constraint and a
    group name that is an ordinary name: when one member is non-blank and
    the other blank, [validate] reports nothing, whichever comes first;
    when both are blank, the first member gets the group message (the
    i18n entry of the group, else the group name) and is reported, and
    the second member, which is not exempted, is reported as well when
    its value is empty and not when it is white space. *)
Theorem validation_group_of_two (cfg : config) (a b : element) (g : string) :
  usable a = true -> usable b = true ->
  by_value a = true -> by_value b = true ->
  el_validation a = Some g -> el_validation b = Some g ->
  el_required a = true -> el_required b = true ->
  el_other_invalid a = false -> el_other_invalid b = false ->
  g <> "" -> ordinary g = true ->
  (isNotBlank (el_value a) = true -> isNotBlank (el_value b) = false ->
   (validate cfg [a; b] [0; 1]).2 = []
   /\ (validate cfg [b; a] [0; 1]).2 = [])
  /\ (isNotBlank (el_value a) = false -> isNotBlank (el_value b) = false ->
      (validate cfg [a; b] [0; 1]).2
      = (if String.eqb (el_value b) "" then set_add (el_name b) [el_name a]
         else [el_name a])
      /\ el_custom <$> (validate cfg [a; b] [0; 1]).1 !! 0
         = Some (group_message cfg g)).
Proof.
  intros Hua Hub Hta Htb Hga Hgb Hra Hrb Hoa Hob Hg _. split.
  - intros Hva Hvb. split.
    + apply (validate_pair_satisfied cfg a b g); try done. by rewrite Hva.
    + apply (validate_pair_satisfied cfg b a g); try done.
      by rewrite Hva, orb_true_r.
  - intros Hva Hvb. by apply (validate_pair_blank cfg a b g).
Qed.

(** The theorem at the two example forms. *)
Lemma validation_group_of_two_witness :
  (validate plain_config satisfied_pair [0; 1]).2 = []
  /\ (validate plain_config empty_pair [0; 1]).2 = ["a"; "b"].
Proof.
  assert (Hg : "g" <> "") by discriminate.
  split.
  - exact (proj1 (proj1 (validation_group_of_two plain_config
                           (grouped "g" "a" "x") (grouped "g" "b" "") "g"
                           eq_refl eq_refl eq_refl eq_refl eq_refl eq_refl
                           eq_refl eq_refl eq_refl eq_refl Hg eq_refl)
                    eq_refl eq_refl)).
  - exact (proj1 (proj2 (validation_group_of_two plain_config
                           (grouped "g" "a" "") (grouped "g" "b" "") "g"
                           eq_refl eq_refl eq_refl eq_refl eq_refl eq_refl
                           eq_refl eq_refl eq_refl eq_refl Hg eq_refl)
                    eq_refl eq_refl)).
Defined.

(** C5 as stated fails when both members are empty: the second member is
    reported next to the first, since it still fails the required
    check.  It fails as well when the non-blank member is an unchecked
    required checkbox: the group is satisfied by the declared value of the
    box, but the box itself misses its check mark and is reported. *)
Lemma both_empty_members_reported :
  let box := Element "a" "checkbox" None "yes" false false [] [] false true
               "" false (Some "g") None None None None None None in
  (Forall (fun e => el_required e = true /\ el_validation e = Some "g"
                    /\ isNotBlank (el_value e) = false) empty_pair
   /\ (validate plain_config empty_pair [0; 1]).2 = ["a"; "b"]
   /\ (validate plain_config empty_pair [0; 1]).2 <> ["a"])
  /\ (isNotBlank (el_value box) = true
      /\ (validate plain_config [box; grouped "g" "b" ""] [0; 1]).2 = ["a"]
      /\ (validate plain_config [box; grouped "g" "b" ""] [0; 1]).2 <> []).
Proof.
  split.
  - split; [repeat constructor|].
    split; [vm_compute; reflexivity | vm_compute; discriminate].
  - split; [reflexivity|].
    split; [vm_compute; reflexivity | vm_compute; discriminate].
Qed.

(** C6, as the code has it.  For every checkbox field: when its raw value
    is ["on"] or empty, the boolean checked state is extracted; otherwise
    the declared value is extracted when the box is checked, and nothing
    is extracted (so nothing is written into the payload) when it is
    unchecked.  The extracted value goes through the field's source
    lookup, which is the identity for a field that declares none. *)
Theorem checkbox_value (cfg : config) (e : element) :
  resolved_type e = HTML_CHECKBOX ->
  getElementValue cfg e =
    (if String.eqb (el_value e) "on" || String.eqb (el_value e) ""
     then via_source cfg e (VBool (el_checked e))
     else if el_checked e then via_source cfg e (VStr (el_value e))
          else VUndef)
  /\ (el_from_type e = None -> el_from_pattern e = None ->
      getElementValue cfg e =
        (if String.eqb (el_value e) "on" || String.eqb (el_value e) ""
         then VBool (el_checked e)
         else if el_checked e then VStr (el_value e) else VUndef))
  /\ (String.eqb (el_value e) "on" || String.eqb (el_value e) "" = false ->
      el_checked e = false ->
      forall obj name,
        setNestedValue obj name (getElementValue cfg e) = obj).
Proof.
  intros Ht.
  assert (Hv : getElementValue cfg e =
    (if String.eqb (el_value e) "on" || String.eqb (el_value e) ""
     then via_source cfg e (VBool (el_checked e))
     else if el_checked e then via_source cfg e (VStr (el_value e))
          else VUndef)).
  { unfold getElementValue. rewrite (element_result_checkbox cfg e Ht).
    destruct (String.eqb (el_value e) "on"); simpl; [done|].
    destruct (String.eqb (el_value e) ""); simpl; [done|].
    by destruct (el_checked e). }
  split; [exact Hv|]. split.
  - intros Hft Hfp. rewrite Hv, !via_source_plain by done. done.
  - intros Hd Hc obj name. rewrite Hv, Hd, Hc. reflexivity.
Qed.

(** The theorem at a checked box that declares the value ["yes"]. *)
Lemma checkbox_value_witness :
  resolved_type (input "checkbox" "agree" "yes" true) = HTML_CHECKBOX
  /\ getElementValue plain_config (input "checkbox" "agree" "yes" true)
     = VStr "yes".
Proof.
  split; [reflexivity|].
  destruct (checkbox_value plain_config (input "checkbox" "agree" "yes" true)
              eq_refl) as (_ & H & _).
  rewrite H; reflexivity.
Defined.

(** C6 as stated fails on a checkbox whose declared value is empty: the
    value is not the marker ["on"] and the box is unchecked, yet the
    boolean [false] is extracted and the field reaches the payload. *)
Lemma checkbox_empty_value_not_omitted :
  let e := input "checkbox" "agree" "" false in
  resolved_type e = HTML_CHECKBOX
  /\ el_value e <> "on"
  /\ el_checked e = false
  /\ getElementValue plain_config e = VBool false
  /\ getElementValue plain_config e <> VUndef
  /\ generateDataAndProps plain_config [e] [0] [] []
     = VObj [("data", VObj [("agree", VBool false)])].
Proof. repeat split; try reflexivity; discriminate. Qed.

(** C7. The final cleaning pass [deepFilterArrays] is idempotent on every
    nested structure; it drops the absent entries of a sequence and then
    cleans the entries that remain, cleans a mapping key by key, leaves
    file handles, blobs and date instants as they are, and its result
    holds no absent entry in any sequence. *)
Theorem clean_idempotent (x : jsval) :
  deepFilterArrays (deepFilterArrays x) = deepFilterArrays x
  /\ is_clean (deepFilterArrays x) = true
  /\ (forall items props,
         deepFilterArrays (VArr items props) =
         VArr (map deepFilterArrays (List.filter hasValue items)) [])
  /\ (forall props,
         deepFilterArrays (VObj props) =
         VObj (map (fun kv => (kv.1, deepFilterArrays kv.2)) props))
  /\ (forall id props,
         deepFilterArrays (VHost (HFile id) props) = VHost (HFile id) props
         /\ deepFilterArrays (VHost (HBlob id) props) = VHost (HBlob id) props)
  /\ (forall ms props,
         deepFilterArrays (VHost (HDate ms) props) = VHost (HDate ms) props).
Proof.
  split; [apply deepFilterArrays_idem|].
  split; [apply deepFilterArrays_clean|].
  split; [apply deepFilterArrays_arr|].
  split; [apply deepFilterArrays_obj|].
  split; [intros; split; reflexivity | reflexivity].
Qed.

(** C8 fails on the code at a name with an inherited segment.  The name
    is cut into its segments (the non-empty runs between [.], [[] and
    []]) and nothing is written when the value is absent, for every
    name.  For a name whose segments are ordinary names, in a body of
    mappings and sequences, the value is found at the end of the path; a
    container missing on the way is created as a sequence when the next
    segment is numeric and as a mapping otherwise, and a container that is
    there is kept and written into; so a text field [user.name] with
    value ["Ann"] assembles to [{ user: { name: "Ann" } }] and fields
    named [tags[]] with the values ["x"] and ["y"] to
    [{ tags: ["x", "y"] }].  But the walk reads [acc[key]] through the
    prototype chain: at the segment [__proto__] of the name
    [__proto__.polluted], which the empty bucket does not own, it finds
    [Object.prototype], creates no container and assigns [polluted] there,
    so that the bucket is left as it was: a field of that name assembles
    to an empty bucket. *)
Theorem nested_path_assignment :
  (forall name,
      Forall (fun seg => seg <> "" /\ no_sep seg = true) (path_of name)
      /\ fold_right String.append "" (path_of name) = strip_sep name)
  /\ path_of "a.b[0].c" = ["a"; "b"; "0"; "c"]
  /\ (forall obj name value,
         hasValue value = false -> setNestedValue obj name value = obj)
  /\ (forall props name value,
         hasValue value = true -> path_of name <> [] ->
         ordinary_path name = true -> host_free (VObj props) = true ->
         get_path (setNestedValue (VObj props) name value) (path_of name)
         = value)
  /\ (forall acc k k' rest value,
         isObjectLike acc = true -> host_free acc = true ->
         ordinary k = true ->
         isObjectLike (js_get acc k) = false ->
         isArray (js_get (assign_path acc (k :: k' :: rest) value) k)
         = isInteger k'
         /\ isObject (js_get (assign_path acc (k :: k' :: rest) value) k)
            = negb (isInteger k'))
  /\ (forall acc k k' rest value,
         isObjectLike acc = true -> host_free acc = true ->
         ordinary k = true ->
         isObjectLike (js_get acc k) = true ->
         js_get (assign_path acc (k :: k' :: rest) value) k
         = assign_path (js_get acc k) (k' :: rest) value)
  /\ generateDataAndProps plain_config
       [input "text" "user.name" "Ann" false] [0] [] []
     = VObj [("data", VObj [("user", VObj [("name", VStr "Ann")])])]
  /\ generateDataAndProps plain_config
       [input "text" "tags[]" "x" false; input "text" "tags[]" "y" false]
       [0; 1] [] []
     = VObj [("data", VObj [("tags", VArr [VStr "x"; VStr "y"] [])])]
  /\ generateDataAndProps plain_config
       [select_multiple "tags[]" ["x"; "y"]] [0] [] []
     = VObj [("data", VObj [("tags", VArr [VStr "x"; VStr "y"] [])])]
  /\ inherits (VObj []) "__proto__" = true
  /\ setNestedValue (VObj []) "__proto__.polluted" (VStr "x") = VObj []
  /\ generateDataAndProps plain_config
       [input "text" "__proto__.polluted" "x" false] [0] [] []
     = VObj [("data", VObj [])].
Proof.
  split.
  { intros name. split.
    - by apply split_path_segments.
    - unfold path_of. by rewrite split_path_concat. }
  split; [reflexivity|].
  split.
  { intros obj name value Hv. unfold setNestedValue. by rewrite Hv. }
  split.
  { intros props name value Hv Hp Ho _. unfold setNestedValue.
    rewrite Hv. simpl. by apply get_path_assign_path. }
  split.
  { intros acc k k' rest value Hacc _ Hk Hchild.
    rewrite assign_path_unfold by by apply ordinary_not_inherits.
    rewrite Hchild, js_get_js_set_eq
      by (done || by apply ordinary_not_proto).
    rewrite isArray_assign_path, isObject_assign_path.
    by destruct (isInteger k'). }
  split.
  { intros acc k k' rest value Hacc _ Hk Hchild.
    rewrite assign_path_unfold by by apply ordinary_not_inherits.
    by rewrite Hchild, js_get_js_set_eq
      by (done || by apply ordinary_not_proto). }
  split; [vm_compute; reflexivity|].
  split; [vm_compute; reflexivity|].
  split; [vm_compute; reflexivity|].
  repeat split; vm_compute; reflexivity.
Qed.


(** C10. Every reader of the input collection sees the fields that are
    enabled and have a non-blank name, and nothing else: each position
    [#queryFormInput] returns holds such a field, whatever the selector;
    validation grouping, the whole validation pass, payload assembly and
    applied-value targeting give the same result when the other positions
    are left out of the collection; every name [validate] reports is the
    name of a field of the collection that was enabled, with a non-blank
    name, when [validate] was called; and the assembled body and the
    applied values are the same for any store that holds the same usable
    fields, whatever its disabled or unnamed fields hold. *)
Theorem readers_use_usable_fields
    (cfg : config) (st : list element) (inputs : list nat)
    (w : withdata) (withParams : list string)
    (request response : jsval)
    (apply : list (string * list (string * jsval))) :
  (forall sel i,
      In i (queryFormInput st inputs sel) ->
      exists e, st !! i = Some e /\ el_disabled e = false
                /\ isNotBlank (el_name e) = true)
  /\ (forall i,
         In i (List.filter (selected st None) inputs) <->
         In i inputs
         /\ exists e, st !! i = Some e /\ el_disabled e = false
                      /\ isNotBlank (el_name e) = true)
  /\ collect_groups st (List.filter (selected st None) inputs)
     = collect_groups st inputs
  /\ validate cfg st (List.filter (selected st None) inputs)
     = validate cfg st inputs
  /\ (forall n,
         In n (validate cfg st inputs).2 ->
         exists i e, In i inputs /\ st !! i = Some e
                     /\ el_disabled e = false
                     /\ isNotBlank (el_name e) = true /\ el_name e = n)
  /\ generateDataAndProps cfg st (List.filter (selected st None) inputs)
       w withParams
     = generateDataAndProps cfg st inputs w withParams
  /\ handleEventApplied st (List.filter (selected st None) inputs)
       request response apply
     = handleEventApplied st inputs request response apply
  /\ (forall st' : list element,
         (forall i, In i (List.filter (selected st None) inputs) ->
                    st' !! i = st !! i) ->
         generateDataAndProps cfg st'
           (List.filter (selected st None) inputs) w withParams
         = generateDataAndProps cfg st inputs w withParams
         /\ handleEventApplied st'
              (List.filter (selected st None) inputs) request response apply
            = handleEventApplied st inputs request response apply).
Proof.
  assert (Husable : forall e, usable e = true <->
            el_disabled e = false /\ isNotBlank (el_name e) = true).
  { intros e. unfold usable. rewrite andb_true_iff, negb_true_iff. tauto. }
  split.
  { intros sel i Hi.
    apply queryFormInput_In in Hi as (_ & e & He & Hu & _).
    exists e. split; [done|]. by apply Husable. }
  split.
  { intros i. rewrite filter_In. unfold selected. split.
    - intros [Hi Hs]. split; [done|].
      destruct (st !! i) as [e|]; [|done]. simpl in Hs.
      rewrite andb_true_r in Hs. exists e. split; [done|]. by apply Husable.
    - intros [Hi (e & -> & He)]. split; [done|]. simpl.
      rewrite andb_true_r. by apply Husable. }
  split; [apply collect_groups_usable_only|].
  split; [apply validate_usable_only|].
  split.
  { intros n Hn. unfold validate in Hn.
    apply check_fields_names in Hn; [|apply queryFormInput_Forall_usable].
    destruct Hn as [[]|(i & e2 & Hi & He2 & Hu2 & _ & Hname)].
    apply queryFormInput_In in Hi as (Hi & _).
    destruct (narrows_resolve_groups cfg st inputs i e2 He2)
      as (e & He & Hn & Hd).
    exists i, e. split; [done|]. split; [done|].
    apply Husable in Hu2 as [Hd2 Hn2]. rewrite Hn in Hn2, Hname.
    repeat split; [|done..]. destruct (el_disabled e); [|done].
    rewrite Hd in Hd2; done. }
  split; [apply generateDataAndProps_usable_only|].
  split; [apply handleEventApplied_usable_only|].
  intros st' Hst'. split.
  - rewrite <- (generateDataAndProps_usable_only cfg st inputs).
    by apply generateDataAndProps_agree.
  - rewrite <- (handleEventApplied_usable_only st inputs).
    by apply handleEventApplied_agree.
Qed.

(** ** Further properties of the code *)

(** X1. When [getQuerystring] returns, the table it returns holds every
    parameter of the query string under its name: the string itself for a
    parameter given once, the sequence of all its values, in order, for a
    repeated one, and nothing for a name the query string does not have
    (nor for [__proto__], which never becomes an own property). *)
Theorem getQuerystring_lookup
    (query : list (string * string)) (data : list (string * jsval))
    (key : string) :
  getQuerystring query = Some data ->
  pget key data =
    if String.eqb key "__proto__" then None
    else captured (getAll key query).
Proof.
  intros H. unfold getQuerystring in H.
  rewrite (getQuerystring_fold query query [] [] data H); [|done..].
  simpl. destruct (String.eqb key "__proto__"); [by rewrite andb_false_r|].
  rewrite andb_true_r.
  destruct (existsb (String.eqb key) (map fst query)) eqn:E; [done|].
  assert (Hnil : getAll key query = []).
  { apply getAll_nil. intros Hin.
    assert (Hex : existsb (String.eqb key) (map fst query) = true).
    { apply existsb_exists. exists key. split; [done|apply String.eqb_refl]. }
    by rewrite Hex in E. }
  by rewrite Hnil.
Qed.

(** The theorem at [?a=1&b=2&a=3]. *)
Lemma getQuerystring_lookup_witness :
  getQuerystring [("a", "1"); ("b", "2"); ("a", "3")]
  = Some [("a", VArr [VStr "1"; VStr "3"] []); ("b", VStr "2")]
  /\ pget "a" [("a", VArr [VStr "1"; VStr "3"] []); ("b", VStr "2")]
     = Some (VArr [VStr "1"; VStr "3"] []).
Proof.
  split; [reflexivity|].
  exact (getQuerystring_lookup [("a", "1"); ("b", "2"); ("a", "3")]
           _ "a" eq_refl).
Defined.

(** X2. [getQuerystring] throws exactly when a parameter named
    [hasOwnProperty] is followed by another parameter: the stored
    parameter shadows the method the next callback calls. *)
Theorem getQuerystring_throws (query : list (string * string)) :
  getQuerystring query = None
  <-> In "hasOwnProperty" (map fst (removelast query)).
Proof. unfold getQuerystring. apply getQuerystring_throws_fold. by intros [? ?]. Qed.



(** X4. When the Before stage resolves and the invalid set is not empty
    once the validation middleware has resolved (a field failed the
    checks of [validate], or the middleware named a field), the
    submission stops there: validity is reported, the invalid event is
    broadcast, the validation message is shown, no request event occurs,
    and [submit] resolves with [undefined] whatever the transport would
    do. *)
Theorem submit_stopped_by_validation
    (inst : instance) (opts : options) (s : state) (rb rv : jsval) :
  let cfg := inst_config inst in
  let data := submitted_data inst opts s in
  let q1 := override "request" rb data in
  let validated := validate cfg (st_store s) (inst_inputs inst) in
  inst_middleware inst "before" (obj1 "request" data) = Resolved rb ->
  inst_middleware inst "validation" (validation_payload q1 validated.2)
  = Resolved rv ->
  (validated.2 <> []
   \/ exists x, In (VStr x) (toArray (js_get_opt rv "validation"))
                /\ isNotBlank x = true) ->
  submit inst opts s =
  (Ok VUndef,
   State validated.1 (st_with s) (st_log s ++ invalid_events inst q1)).
Proof.
  intros cfg data q1 validated Hb Hv Hnames.
  assert (Hn : validation_names rv validated.2 <> []).
  { destruct Hnames as [Hn|(x & Hin & Hx)].
    - by apply validation_names_grow.
    - by apply (validation_names_added rv x). }
  unfold submit, catch, pipeline. fold data.
  unfold mbind at 1, M_bind at 1. rewrite (handleBefore_run _ _ _ _ Hb).
  fold q1. unfold mbind at 1, M_bind at 1.
  rewrite (handleValidation_run inst q1
             (logged s [Broadcast EVENT_LIFECYCLE_BEFORE (obj1 "request" q1);
                        ResetUIControls;
                        SuccessHandlerCall "before" (obj1 "request" q1)])
             rv Hv).
  simpl st_store.
  fold cfg validated. rewrite (length_not_nil _ Hn).
  rewrite (handleError_validation _ _ _ (sentinel_message inst)).
  unfold logged, invalid_events. simpl. by rewrite <- !app_assoc.
Qed.

(** The theorem at the form whose two required fields are empty. *)
Lemma submit_stopped_by_validation_witness :
  settle (submit (simple_instance [0; 1] identity_chain (answers VNull))
            no_options (State empty_pair [] []))
  = Resolved VUndef.
Proof.
  erewrite (submit_stopped_by_validation
              (simple_instance [0; 1] identity_chain (answers VNull))
              no_options (State empty_pair [] []));
    [|reflexivity | reflexivity | left; vm_compute; discriminate].
  reflexivity.
Defined.

(** X5. As soon as one usable field of the collection is addressed to the
    bucket [data] (the default bucket), [submit] sends the assembled
    bucket, which is a mapping, and the [data] option of the caller is not
    used, whatever it is. *)
Theorem submitted_data_assembled
    (inst : instance) (opts : options) (s : state) (i : nat) (e : element) :
  In i (inst_inputs inst) -> st_store s !! i = Some e ->
  usable e = true -> bucket_of e = "data" ->
  isObject (submitted_data inst opts s) = true
  /\ forall d, submitted_data inst (Options (opt_with opts) d) s
               = submitted_data inst opts s.
Proof.
  intros Hi He Hu Hb.
  pose proof (group_fields_bucket _ _ _ _ Hi He Hu) as Hg. rewrite Hb in Hg.
  apply (merge_bucket_mono (st_with s) (opt_with opts)) in Hg as [g Hg].
  unfold submitted_data. split;
    [|intros d; cbn [opt_with]; by rewrite !generated_bucket, Hg].
  rewrite generated_bucket, Hg. simpl.
  generalize (fold_left
                (write_key (inst_config inst) (st_store s)) g (VObj [])),
    (isObject_write_keys (inst_config inst) (st_store s) g (VObj [])).
  intros [] H; try done.
Qed.

(** The theorem at the form of one text field, submitted with a [data]
    option. *)
Lemma submitted_data_assembled_witness :
  isObject (submitted_data (simple_instance [0] identity_chain
                              (answers VUndef))
              (Options [] (VStr "mine")) one_field) = true.
Proof.
  exact (proj1 (submitted_data_assembled
                  (simple_instance [0] identity_chain (answers VUndef))
                  (Options [] (VStr "mine")) one_field 0
                  (input "text" "q" "v" false)
                  (or_introl eq_refl) eq_refl eq_refl eq_refl)).
Defined.

(** X6. When no usable field is addressed to the bucket [data] and no
    included side channel assigns a key of it, the assembly has no such
    bucket and [submit] sends the [data] option of the caller as it is. *)
Theorem submitted_data_passed_through
    (inst : instance) (opts : options) (s : state) :
  (forall i e, In i (inst_inputs inst) -> st_store s !! i = Some e ->
               usable e = true -> bucket_of e <> "data") ->
  (forall k v, ~ In ("data", k, v) (side_writes (st_with s) (opt_with opts))) ->
  submitted_data inst opts s = opt_data opts.
Proof.
  intros Hf Hw. unfold submitted_data.
  rewrite generated_bucket, merge_no_bucket; [done| |done].
  by apply group_fields_no_bucket.
Qed.

(** The theorem at a form with no field. *)
Lemma submitted_data_passed_through_witness :
  submitted_data (simple_instance [] identity_chain (answers VUndef))
    (Options [] (VStr "mine")) (State [] [] [])
  = VStr "mine".
Proof.
  apply (submitted_data_passed_through
           (simple_instance [] identity_chain (answers VUndef))
           (Options [] (VStr "mine")) (State [] [] [])).
  - intros i e [].
  - intros k v [].
Defined.

(** X7. Field grouping, the first loop of the assembly, in a form whose
    buckets and name segments are ordinary names: under a key of a bucket
    it leaves the usable fields addressed to that bucket whose name,
    without the suffix [[]], is the key, in document order.  A single
    field is kept as it is when its name has no suffix and as a sequence
    of one when it has; two fields or more always make a sequence; a key
    no usable field carries is not there. *)
Theorem grouping_rule
    (st : list element) (inputs : list nat) (t k : string) :
  ordinary_form st inputs = true ->
  pget2 t k (group_fields st inputs)
  = grouped_slot st (fields_of st inputs t k).
Proof.
  intros _. unfold group_fields, fields_of. apply group_fields_fold_lookup.
  apply List.Forall_forall. intros i Hi.
  apply queryFormInput_In in Hi as (_ & e & He & _). eauto.
Qed.

(** The theorem at three fields that share the key [tags] of the default
    bucket, next to a field of another name. *)
Lemma grouping_rule_witness :
  pget2 "data" "tags"
    (group_fields
       [input "text" "tags[]" "x" false; input "text" "q" "v" false;
        input "text" "tags" "y" false; input "text" "tags[]" "z" false]
       [0; 1; 2; 3])
  = Some (FMany [0; 2; 3]).
Proof.
  exact (grouping_rule
           [input "text" "tags[]" "x" false; input "text" "q" "v" false;
            input "text" "tags" "y" false; input "text" "tags[]" "z" false]
           [0; 1; 2; 3] "data" "tags" eq_refl).
Defined.

(** X8. The assembled body at a plain key [k] of a bucket [t] that some
    usable field carries, in a form and with side channels whose names
    are ordinary: when no included side channel and no other field of the
    bucket writes under the top-level segment [k], the body holds at [t],
    [k] the cleaned value of the fields that share the key, and nothing
    when that value is absent. *)
Theorem field_in_body
    (cfg : config) (st : list element) (inputs : list nat)
    (w : list (string * list (string * list (string * jsval))))
    (withParams : list string) (t k : string) (f : fslot) :
  ordinary_form st inputs = true -> ordinary_with w = true ->
  ordinary k = true -> path_of k = [k] ->
  grouped_slot st (fields_of st inputs t k) = Some f ->
  (forall k' v, In (t, k', v) (side_writes w withParams) ->
                first_segment k' <> k) ->
  (forall i e, In i inputs -> st !! i = Some e -> usable e = true ->
               bucket_of e = t -> (endsWith_brackets (el_name e)).2 <> k ->
               first_segment (endsWith_brackets (el_name e)).2 <> k) ->
  js_get (js_get (generateDataAndProps cfg st inputs w withParams) t) k
  = if hasValue (slot_value cfg st (SField f))
    then deepFilterArrays (slot_value cfg st (SField f))
    else VUndef.
Proof.
  intros _ _ Hord Hp Hf Hw Hother.
  assert (Hk : first_segment k = k) by (unfold first_segment; by rewrite Hp).
  apply generated_key; [|done|by apply ordinary_not_proto|].
  - rewrite pget2_merge_side_channels.
    destruct (last_write t k (side_writes w withParams)) as [v|] eqn:El.
    + apply last_write_In in El. by destruct (Hw _ _ El).
    + by rewrite group_fields_slot, Hf.
  - intros k' s' Hne. rewrite pget2_merge_side_channels.
    destruct (last_write t k' (side_writes w withParams)) as [v|] eqn:El.
    + intros _. apply last_write_In in El. by apply (Hw _ _ El).
    + rewrite group_fields_slot.
      destruct (grouped_slot st (fields_of st inputs t k')) as [f'|] eqn:Ef;
        [|done].
      intros _. apply grouped_slot_Some in Ef as [i Hi].
      apply fields_of_In in Hi as (e & Hi & He & Hu & Ht & Hn).
      rewrite <- Hn. apply (Hother i e); try done. by rewrite Hn.
Qed.

(** The theorem at two text fields [q] and [r]: the body carries the
    value of [q] at [data.q]. *)
Lemma field_in_body_witness :
  js_get (js_get (generateDataAndProps plain_config
                    [input "text" "q" "v" false; input "text" "r" "w" false]
                    [0; 1] [] []) "data") "q"
  = VStr "v".
Proof.
  apply (field_in_body plain_config
           [input "text" "q" "v" false; input "text" "r" "w" false]
           [0; 1] [] [] "data" "q" (FOne 0) eq_refl eq_refl eq_refl eq_refl
           eq_refl).
  - intros k' v [].
  - intros i e [<-|[<-|[]]] [= <-] _ _ Hne; [done|].
    vm_compute. discriminate.
Defined.

(** X9. A group of radio buttons that share a name (none of them with a
    declared source or an overridden type) yields one scalar: the value of
    the first checked button in document order, and nothing when no
    button is checked. *)
Theorem radio_group_value
    (cfg : config) (st : list element) (l : list nat) :
  Forall (fun i => exists e, st !! i = Some e
                     /\ el_type e = HTML_RADIO /\ el_data_type e = None
                     /\ el_from_type e = None /\ el_from_pattern e = None) l ->
  l <> [] ->
  slot_value cfg st (SField (FMany l))
  = default VUndef (head (checked_values st l)).
Proof.
  intros Hall Hl. simpl. rewrite radio_values.
  - destruct Hall as [|i r (e & He & Ht & _) _]; [done|].
    simpl. rewrite He. simpl. rewrite Ht. simpl.
    by rewrite <- head_lookup.
  - apply (Forall_impl _ _ _ Hall).
    intros i (e & He & Ht & Hd & Hft & Hfp). exists e.
    unfold resolved_type. by rewrite Hd.
Qed.

(** The theorem at three radio buttons of which the second and the third
    are checked. *)
Lemma radio_group_value_witness :
  slot_value plain_config
    [input "radio" "c" "red" false; input "radio" "c" "green" true;
     input "radio" "c" "blue" true]
    (SField (FMany [0; 1; 2]))
  = VStr "green".
Proof.
  apply (radio_group_value plain_config
           [input "radio" "c" "red" false; input "radio" "c" "green" true;
            input "radio" "c" "blue" true] [0; 1; 2]); [|discriminate].
  repeat (apply Forall_cons; split; [eexists; by repeat split|]).
  apply Forall_nil_2.
Defined.




(** X12. What an applied event leaves in the applied side channel at a
    bucket and a field name, in a form whose buckets and names are
    ordinary and for payloads whose keys can stand in a selector as they
    are: the value of the last selector of the event, in the order
    request keys then response keys, that reaches a usable field
    addressed to that bucket under that name; when no selector reaches
    one, what the channel held before.  An event never removes an applied
    value. *)
Theorem applied_lookup
    (st : list element) (inputs : list nat) (request response : jsval)
    (apply : list (string * list (string * jsval))) (t n : string) :
  ordinary_form st inputs = true ->
  payload_plain request = true -> payload_plain response = true ->
  pget2 t n (handleEventApplied st inputs request response apply)
  = match last (List.filter (fun sv => reaches st inputs t n sv.1)
                  (event_selectors request response)) with
    | Some sv => Some sv.2
    | None => pget2 t n apply
    end.
Proof.
  intros _ _ _. unfold handleEventApplied, event_selectors.
  generalize (applied_selectors "response" response
                (applied_selectors "request" request [])) as selectors.
  intros selectors. revert apply.
  induction selectors as [|sv r IH]; intros apply; [done|]. simpl.
  rewrite IH, apply_to_fields_lookup. fold (reaches st inputs t n sv.1).
  destruct (reaches st inputs t n sv.1); [|done].
  rewrite last_cons.
  by destruct (last (List.filter (fun sv => reaches st inputs t n sv.1) r)).
Qed.

(** The theorem at two fields that declare the same applied key, for an
    event whose request carries it. *)
Lemma applied_lookup_witness :
  pget2 "data" "city"
    (handleEventApplied
       [Element "city" "text" None "" false false [] [] false false "" false
          None None None None (Some "town") None None;
        Element "home" "text" None "" false false [] [] false false "" false
          None None None None (Some "town") None None]
       [0; 1] (VObj [("town", VStr "Rome")]) VUndef
       [("data", [("city", VStr "Oslo")])])
  = Some (VStr "Rome").
Proof.
  exact (applied_lookup
           [Element "city" "text" None "" false false [] [] false false ""
              false None None None None (Some "town") None None;
            Element "home" "text" None "" false false [] [] false false ""
              false None None None None (Some "town") None None]
           [0; 1] (VObj [("town", VStr "Rome")]) VUndef
           [("data", [("city", VStr "Oslo")])] "data" "city"
           eq_refl eq_refl eq_refl).
Defined.

(** X13. A field that declares [applied="key"] (and no typed variant),
    alone among the usable fields under its bucket and name, receives
    from an event whose request and response payloads are mappings the
    response value of [key] when the response has one, else the request
    value when the request has one, and keeps its earlier applied value
    otherwise: the response is applied after the request.  The form has
    ordinary buckets and names, and the keys of the payloads can stand in
    a selector as they are. *)
Theorem applied_response_wins
    (st : list element) (inputs : list nat) (i : nat) (e : element)
    (key : string) (rq rs : list (string * jsval))
    (apply : list (string * list (string * jsval))) :
  ordinary_form st inputs = true ->
  payload_plain (VObj rq) = true -> payload_plain (VObj rs) = true ->
  In i inputs -> st !! i = Some e -> usable e = true ->
  el_applied e = Some key ->
  el_applied_request e = None -> el_applied_response e = None ->
  (forall j e', In j inputs -> st !! j = Some e' -> usable e' = true ->
                bucket_of e' = bucket_of e -> el_name e' = el_name e ->
                j = i) ->
  List.NoDup (map fst rq) -> List.NoDup (map fst rs) ->
  pget2 (bucket_of e) (el_name e)
    (handleEventApplied st inputs (VObj rq) (VObj rs) apply)
  = match pget key rs with
    | Some v => Some v
    | None => match pget key rq with
              | Some v => Some v
              | None => pget2 (bucket_of e) (el_name e) apply
              end
    end.
Proof.
  intros _ _ _ Hi He Hu Ha Har Has Huniq Hrq Hrs.
  unfold handleEventApplied. rewrite applied_fold_lookup.
  fold (event_selectors (VObj rq) (VObj rs)).
  rewrite (applied_mappings st inputs i e key) by done.
  destruct (pget key rs) as [v|]; [done|].
  by destruct (pget key rq).
Qed.

(** The theorem at a field [city] that declares [applied="town"], for an
    event whose request and response both carry [town]. *)
Lemma applied_response_wins_witness :
  pget2 "data" "city"
    (handleEventApplied
       [Element "city" "text" None "" false false [] [] false false "" false
          None None None None (Some "town") None None]
       [0] (VObj [("town", VStr "Rome")]) (VObj [("town", VStr "Oslo")]) [])
  = Some (VStr "Oslo").
Proof.
  apply (applied_response_wins
           [Element "city" "text" None "" false false [] [] false false ""
              false None None None None (Some "town") None None]
           [0] 0 _ "town" [("town", VStr "Rome")] [("town", VStr "Oslo")] []
           eq_refl eq_refl eq_refl
           (or_introl eq_refl) eq_refl eq_refl eq_refl eq_refl eq_refl).
  - by intros j e' [<-|[]].
  - repeat constructor. by intros [].
  - repeat constructor. by intros [].
Defined.


(** X15. When the UI controls are released.  After a submission whose
    pipeline succeeds the controls are never left in the state of a
    running request.  After one whose pipeline fails they are released as
    well, except in two cases, in which the Error stage leaves them as
    they were when the error was thrown: the error carries the
    validation sentinel as its message, or the error resolver itself
    throws.  A failure of the Validation stage always finds them
    released, since the Before stage has released them by then.  A
    failure of the Before stage, which is a failure of its middleware, is
    thrown before anything is released: in the two cases above the
    controls are left as they were before the submission. *)
Theorem controls_after_submit
    (inst : instance) (opts : options) (s : state) (p : bool) :
  controls_pending (st_log (submit inst opts s).2) p
  = match pipeline inst (submitted_data inst opts s) s with
    | (Ok _, _) => false
    | (Throw e, s') =>
        if is_string (ERROR_VALIDATION inst) (js_get_opt e "message")
        then controls_pending (st_log s') p
        else if is_string (ERROR_CONFIRM inst) (js_get_opt e "message")
             then false
             else match cfg_getError (inst_config inst) e with
                  | Resolved _ => false
                  | Rejected _ => controls_pending (st_log s') p
                  end
    end
  /\ (forall q1 s1 e s2,
         handleBefore inst (submitted_data inst opts s) s = (Ok q1, s1) ->
         handleValidation inst q1 s1 = (Throw e, s2) ->
         controls_pending (st_log (submit inst opts s).2) p = false)
  /\ (forall e,
         inst_middleware inst "before"
           (obj1 "request" (submitted_data inst opts s)) = Rejected e ->
         controls_pending (st_log (submit inst opts s).2) p
         = if is_string (ERROR_VALIDATION inst) (js_get_opt e "message")
           then controls_pending (st_log s) p
           else if is_string (ERROR_CONFIRM inst) (js_get_opt e "message")
                then false
                else match cfg_getError (inst_config inst) e with
                     | Resolved _ => false
                     | Rejected _ => controls_pending (st_log s) p
                     end).
Proof.
  assert (Hsubmit : controls_pending (st_log (submit inst opts s).2) p
    = match pipeline inst (submitted_data inst opts s) s with
      | (Ok _, _) => false
      | (Throw e, s') =>
          controls_pending (st_log (handleError inst e s').2) p
      end).
  { unfold submit, catch.
    destruct (pipeline inst (submitted_data inst opts s) s) as [[v|e] s1]
      eqn:Ep; [|done].
    simpl. by apply (pipeline_pending _ _ _ _ _ p Ep). }
  split; [|split].
  - rewrite Hsubmit.
    destruct (pipeline inst (submitted_data inst opts s) s) as [[v|e] s1];
      [done|apply handleError_pending].
  - intros q1 s1 e s2 H1 H2. rewrite Hsubmit.
    assert (Hp : pipeline inst (submitted_data inst opts s) s = (Throw e, s2)).
    { unfold pipeline. unfold mbind at 1, M_bind at 1. rewrite H1.
      unfold mbind at 1, M_bind at 1. by rewrite H2. }
    rewrite Hp, handleError_pending.
    pose proof (handleValidation_pending _ _ _ _ p H2) as Hv.
    simpl in Hv. rewrite Hv.
    rewrite (handleBefore_pending _ _ _ _ _ p H1).
    repeat case_match; done.
  - intros e He. rewrite Hsubmit.
    pose proof (handleBefore_outcome inst (submitted_data inst opts s) s)
      as Hb.
    rewrite He in Hb.
    assert (Hp : pipeline inst (submitted_data inst opts s) s = (Throw e, s)).
    { unfold pipeline. unfold mbind at 1, M_bind at 1. by rewrite Hb. }
    rewrite Hp. apply handleError_pending.
Qed.

(** X16. The report of the validation pass, in a form whose validation
    groups have ordinary names: the names of the usable fields that fail
    their constraints once the groups are resolved, each name once, in
    document order.  In such a form where no usable field is a required
    member of a validation group the pass changes no field, so the report
    is that of the form as it is. *)
Theorem validation_report
    (cfg : config) (st : list element) (inputs : list nat) :
  ordinary_form st inputs = true ->
  (validate cfg st inputs).2
  = invalid_names (resolve_groups cfg st inputs)
      (queryFormInput (resolve_groups cfg st inputs) inputs None)
  /\ ((forall i e, In i inputs -> st !! i = Some e -> usable e = true ->
                   in_validation_group e = false) ->
      validate cfg st inputs
      = (st, invalid_names st (queryFormInput st inputs None))).
Proof.
  intros _.
  assert (Hreport : (validate cfg st inputs).2
            = invalid_names (resolve_groups cfg st inputs)
                (queryFormInput (resolve_groups cfg st inputs) inputs None)).
  { unfold validate, invalid_names.
    apply check_fields_report, queryFormInput_Forall_usable. }
  split; [exact Hreport|].
  intros Hno.
  assert (Hst : resolve_groups cfg st inputs = st).
  { unfold resolve_groups, collect_groups.
    by rewrite (no_group_selected st inputs Hno). }
  rewrite (surjective_pairing (validate cfg st inputs)).
  by rewrite Hreport, validate_store, Hst.
Qed.

(** The theorem at a form of a required text field left empty, a filled
    one and a required checkbox left unchecked, none in a group. *)
Lemma validation_report_witness :
  let name := Element "name" "text" None "" false false [] [] false true
                "" false None None None None None None None in
  let city := Element "city" "text" None "Oslo" false false [] [] false true
                "" false None None None None None None None in
  let terms := Element "terms" "checkbox" None "yes" false false [] [] false
                 true "" false None None None None None None None in
  validate plain_config [name; city; terms] [0; 1; 2]
  = ([name; city; terms], ["name"; "terms"]).
Proof.
  intros name city terms.
  rewrite (proj2 (validation_report plain_config [name; city; terms]
                    [0; 1; 2] eq_refl)).
  - reflexivity.
  - intros i e Hi He _.
    destruct Hi as [<-|[<-|[<-|[]]]]; injection He as <-; reflexivity.
Defined.







(** X20. The idle state that [#resetUIControls] leaves, for helpers that
    set the flag of the elements they are given and touch nothing else:
    the progress and message elements are hidden; otherwise an element of
    the [hide] list is visible and one of the [show] list hidden; an
    element of the [disable] list is enabled, otherwise one of the
    [enable] list is disabled; where an element is in several lists the
    later key of [UI_CONTROLS] decides; every other element is left as it
    was.  A reset therefore undoes the toggles of the Request stage
    entirely, and resetting twice is resetting once. *)
Theorem reset_idle_state
    {U : Type} (showE hideE enableE disableE : list nat -> U -> U)
    (visible enabled : U -> nat -> bool)
    (c : Controls.controls) (u : U) (x : nat) :
  Controls.toggles showE hideE enableE disableE visible enabled ->
  let reset := Controls.resetUIControls U showE hideE enableE disableE c in
  let request :=
    Controls.requestUIControls U showE hideE enableE disableE c in
  (visible (reset u) x = Controls.idle_visible c x (visible u x)
   /\ enabled (reset u) x = Controls.idle_enabled c x (enabled u x))
  /\ (visible (reset (request u)) x = visible (reset u) x
      /\ enabled (reset (request u)) x = enabled (reset u) x)
  /\ (visible (reset (reset u)) x = visible (reset u) x
      /\ enabled (reset (reset u)) x = enabled (reset u) x).
Proof.
  intros [Hsv Hhv Hev Hdv Hse Hhe Hee Hde] reset request.
  assert (Hidle : forall u,
    visible (reset u) x = Controls.idle_visible c x (visible u x)
    /\ enabled (reset u) x = Controls.idle_enabled c x (enabled u x)).
  { intros u0. subst reset.
    unfold Controls.resetUIControls, Controls.entries, Controls.reset_entry,
      Controls.idle_visible, Controls.idle_enabled.
    simpl. split.
    - rewrite !Hhv, Hsv, Hhv, Hev, Hdv.
      destruct (Controls.mem x (Controls.c_messageError c)),
        (Controls.mem x (Controls.c_messageSuccess c)),
        (Controls.mem x (Controls.c_messageValidation c)),
        (Controls.mem x (Controls.c_progress c)),
        (Controls.mem x (Controls.c_hide c)),
        (Controls.mem x (Controls.c_show c)); simpl; try done;
        by destruct (visible u0 x).
    - rewrite !Hhe, Hse, Hhe, Hee, Hde.
      destruct (Controls.mem x (Controls.c_disable c)),
        (Controls.mem x (Controls.c_enable c)); simpl; try done;
        by destruct (enabled u0 x). }
  split; [apply Hidle|].
  destruct (Hidle u) as [Hv He].
  destruct (Hidle (request u)) as [Hvq Heq].
  destruct (Hidle (reset u)) as [Hvr Her].
  rewrite Hvq, Heq, Hvr, Her, Hv, He. subst request.
  unfold Controls.requestUIControls.
  rewrite Hhv, Hsv, Hdv, Hev, Hhe, Hse, Hde, Hee.
  unfold Controls.idle_visible, Controls.idle_enabled.
  repeat split;
    destruct (Controls.mem x (Controls.c_messageError c)),
      (Controls.mem x (Controls.c_messageSuccess c)),
      (Controls.mem x (Controls.c_messageValidation c)),
      (Controls.mem x (Controls.c_progress c)),
      (Controls.mem x (Controls.c_hide c)),
      (Controls.mem x (Controls.c_show c)),
      (Controls.mem x (Controls.c_disable c)),
      (Controls.mem x (Controls.c_enable c)); simpl; done.
Qed.

(** The theorem on a page whose elements carry the two flags: a submit
    button, element 0 of the [disable] list, is enabled again by a reset
    that follows the Request stage. *)
Lemma reset_idle_state_witness :
  let c := Controls.Build [] [0] [] [] [] [] [] [] in
  let reset :=
    Controls.resetUIControls Controls.page
      (Controls.set_visible true) (Controls.set_visible false)
      (Controls.set_enabled true) (Controls.set_enabled false) c in
  let request :=
    Controls.requestUIControls Controls.page
      (Controls.set_visible true) (Controls.set_visible false)
      (Controls.set_enabled true) (Controls.set_enabled false) c in
  (request (fun _ => (true, true)) 0).2 = false
  /\ (reset (request (fun _ => (true, true))) 0).2
     = (reset (fun _ => (true, true)) 0).2.
Proof.
  split; [reflexivity|].
  exact (proj2 (proj1 (proj2
           (reset_idle_state
              (Controls.set_visible true) (Controls.set_visible false)
              (Controls.set_enabled true) (Controls.set_enabled false)
              (fun u x => (u x).1) (fun u x => (u x).2)
              (Controls.Build [] [0] [] [] [] [] [] [])
              (fun _ => (true, true)) 0 page_toggles)))).
Defined.

(** X21. In a form and with side channels whose names are ordinary, a
    plain key shared by several usable fields, or carried by a field
    whose name ends in [[]], reaches the body as a sequence even when its
    fields yield nothing, provided its first field is not a radio button
    and no included side channel and no other field of the bucket writes
    under the key: it holds the sequence of the values its fields yield,
    in document order, and the empty sequence when they yield nothing,
    where a single unchecked box would be left out. *)
Theorem sequence_always_written
    (cfg : config) (st : list element) (inputs : list nat)
    (w : list (string * list (string * list (string * jsval))))
    (withParams : list string) (t k : string) (l : list nat) :
  ordinary_form st inputs = true -> ordinary_with w = true ->
  ordinary k = true -> path_of k = [k] ->
  grouped_slot st (fields_of st inputs t k) = Some (FMany l) ->
  first_is_radio st l = false ->
  (forall k' v, In (t, k', v) (side_writes w withParams) ->
                first_segment k' <> k) ->
  (forall i e, In i inputs -> st !! i = Some e -> usable e = true ->
               bucket_of e = t -> (endsWith_brackets (el_name e)).2 <> k ->
               first_segment (endsWith_brackets (el_name e)).2 <> k) ->
  js_get (js_get (generateDataAndProps cfg st inputs w withParams) t) k
  = VArr (map deepFilterArrays
            (List.filter hasValue
               (flat_map (fun i => splice (field_value cfg st i)) l))) [].
Proof.
  intros _ _ Hord Hp Hf Hradio Hw Hother.
  rewrite (generated_key cfg st inputs w withParams t k (SField (FMany l)));
    [|..|done|by apply ordinary_not_proto|].
  - simpl. rewrite Hradio. simpl. f_equal.
    generalize (flat_map (fun i => splice (field_value cfg st i)) l) as vs.
    induction vs as [|x r IH]; [done|]. simpl.
    destruct (hasValue x) eqn:Ex; simpl; [|done]. by rewrite Ex, IH.
  - rewrite pget2_merge_side_channels.
    destruct (last_write t k (side_writes w withParams)) as [v|] eqn:El.
    + apply last_write_In in El. destruct (Hw _ _ El).
      unfold first_segment. by rewrite Hp.
    + by rewrite group_fields_slot, Hf.
  - intros k' s' Hne. rewrite pget2_merge_side_channels.
    destruct (last_write t k' (side_writes w withParams)) as [v|] eqn:El.
    + intros _. apply last_write_In in El. by apply (Hw _ _ El).
    + rewrite group_fields_slot.
      destruct (grouped_slot st (fields_of st inputs t k')) as [f'|] eqn:Ef;
        [|done].
      intros _. apply grouped_slot_Some in Ef as [i Hi].
      apply fields_of_In in Hi as (e & Hi & He & Hu & Ht & Hn).
      rewrite <- Hn. apply (Hother i e); try done. by rewrite Hn.
Qed.

(** The theorem at two unchecked boxes named [tags[]]: the body carries
    an empty sequence. *)
Lemma sequence_always_written_witness :
  js_get (js_get (generateDataAndProps plain_config
                    [input "checkbox" "tags[]" "x" false;
                     input "checkbox" "tags[]" "y" false]
                    [0; 1] [] []) "data") "tags"
  = VArr [] [].
Proof.
  apply (sequence_always_written plain_config
           [input "checkbox" "tags[]" "x" false;
            input "checkbox" "tags[]" "y" false]
           [0; 1] [] [] "data" "tags" [0; 1] eq_refl eq_refl eq_refl eq_refl
           eq_refl eq_refl).
  - intros k' v [].
  - by intros i e [<-|[<-|[]]] [= <-] _ _ Hne.
Defined.

(** X22. The default response envelope: what [response.create] builds
    from a value is accepted by the default acceptance predicate, and the
    default extractors give back the [data] and the [page] of the
    value. *)
Theorem default_envelope_round_trip (value : jsval) :
  DEFAULT_checkResponse (DEFAULT_create value) = true
  /\ DEFAULT_getData (DEFAULT_create value) = js_get_opt value "data"
  /\ DEFAULT_getPage (DEFAULT_create value) = js_get_opt value "page".
Proof.
  unfold DEFAULT_checkResponse, DEFAULT_getData, DEFAULT_getPage,
    DEFAULT_create.
  repeat split.
Qed.
